(** * Render worker: queue store, billing, retry, progress throttle, shutdown,
      and the in-memory render queue

    A shallow embedding of the render worker (the durable, PostgreSQL backed
    variant with retry and billing; its earlier version [server/worker.ts];
    and the in-memory job registry of [server/render-queue.ts] with the
    cancel endpoint of [server/index.ts]).

    Conventions of the embedding.
    - SQL tables are lists of records; an [UPDATE .. WHERE id = x] maps over
      the list and rewrites every row whose id matches.
    - Asynchronous functions that run to completion without interference are
      functions in the monad [M]: a state monad over [World] with a JavaScript
      exception as the [Err] result.
    - Every round trip to the store ([pool.connect], [client.query]) may throw.
      Which ones do is decided by a script carried in the world, [faults]:
      the n-th round trip pops the n-th entry, [Some msg] makes it throw
      [Error(msg)] without effect, [None] (or an exhausted script) lets it
      run.
    - Code whose interleaving matters (concurrent claims, the worker loop with
      the signal handler, the promise chain of the in-memory queue) is a
      transition system given by an executable step function.
    - Numbers that are floats in the source (progress, durations) are exact
      rationals here; console lines are kept without their emoji. *)

From stdpp Require Import base strings list gmap pretty sorting.
From Stdlib Require Import ZArith QArith Qround Lia.

Open Scope Z_scope.

(** ** Configuration constants (worker) *)

Definition DB_RETRY_ATTEMPTS : nat := 3.
Definition DB_RETRY_DELAY_MS : Z := 1000.
Definition PROGRESS_UPDATE_INTERVAL_MS : Z := 5000.

(** ** Data model *)

(** [render_jobs.status] *)
Inductive JobStatus := queued | rendering | completed | failed.

Global Instance JobStatus_eq_dec : EqDecision JobStatus.
Proof. solve_decision. Defined.

(** [job.input_props.videoInfo]; the two fields the worker reads. *)
Record VideoInfo := mkVideoInfo {
  durationInFrames : Q;
  fps : Q
}.

(** A row of [render_jobs]. [input_props] keeps the part the worker
    interprets: [videoInfo], which may be missing. *)
Record Job := mkJob {
  id : string;
  status : JobStatus;
  input_props : option VideoInfo;
  user_id : Z;
  progress : Q;
  output_url : option string;
  error : option string;
  created_at : Z;
  started_at : option Z;
  completed_at : option Z
}.

(** A row of [users]. *)
Record User := mkUser {
  uid : Z;
  credits : Z;
  updated_at : Z
}.

(** The two tables. *)
Record Db := mkDb {
  render_jobs : list Job;
  users : list User
}.

(** Console output and timers, in the order they happen. *)
Inductive Event :=
| EvWarn (msg : string)
| EvError (msg : string)
| EvLog (msg : string)
| EvSleep (ms : Z).

Record World := mkWorld {
  db : Db;                        (* committed state of the store *)
  txn : option Db;                (* working copy of the client's open transaction *)
  faults : list (option string);  (* outcomes of the coming round trips *)
  clock : Z;                      (* NOW() *)
  trace : list Event
}.

(** ** The monad of the worker's asynchronous functions *)

Inductive Result (A : Type) :=
| Ok (a : A)
| Err (message : string).
Arguments Ok {A} a.
Arguments Err {A} message.

Definition M (A : Type) : Type := World -> Result A * World.

Definition ret {A} (a : A) : M A := fun w => (Ok a, w).
Definition throw {A} (message : string) : M A := fun w => (Err message, w).
Definition bind {A B} (m : M A) (k : A -> M B) : M B :=
  fun w => match m w with
           | (Ok a, w') => k a w'
           | (Err e, w') => (Err e, w')
           end.

Global Instance M_ret : MRet M := @ret.
Global Instance M_bind : MBind M := fun A B k m => bind m k.

(** [try { m } catch (err) { h err }] *)
Definition try_catch {A} (m : M A) (h : string -> M A) : M A :=
  fun w => match m w with
           | (Ok a, w') => (Ok a, w')
           | (Err e, w') => h e w'
           end.

(** [try { m } finally { f }] with an [f] that may throw itself. *)
Definition finally {A} (m : M A) (f : M unit) : M A :=
  fun w => match m w with
           | (r, w') => match f w' with
                        | (Ok _, w'') => (r, w'')
                        | (Err e, w'') => (Err e, w'')
                        end
           end.

(** [p.catch(() => {})] *)
Definition catch_ignore (m : M unit) : M unit :=
  try_catch m (fun _ => ret tt).

Definition emit (e : Event) : M unit :=
  fun w => (Ok tt, mkWorld (db w) (txn w) (faults w) (clock w) (trace w ++ [e])).

(** [await sleep(ms)]: the timer is recorded and the clock moves on. *)
Definition sleep (ms : Z) : M unit :=
  fun w => (Ok tt, mkWorld (db w) (txn w) (faults w) (clock w + ms)
                           (trace w ++ [EvSleep ms])).

(** The outcome the script holds for the next round trip. *)
Definition head_fault (fs : list (option string)) : option string :=
  match fs with
  | Some msg :: _ => Some msg
  | _ => None
  end.

(** One round trip to the store: pops the script. *)
Definition round_trip : M unit :=
  fun w =>
    let w' := mkWorld (db w) (txn w) (tail (faults w)) (clock w) (trace w) in
    match head_fault (faults w) with
    | Some msg => (Err msg, w')
    | None => (Ok tt, w')
    end.

(** ** Retry wrapper *)

(** The [for (attempt = 1; attempt <= maxAttempts; attempt++)] loop of
    [withRetry]; [remaining] counts the iterations still to run,
    [maxAttempts + 1 - attempt]. [lastError] is [undefined] until an attempt
    has failed. *)
Fixpoint withRetry_loop {T} (operation : M T) (context : string)
    (maxAttempts : nat) (remaining : nat) (attempt : nat)
    (lastError : option string) : M T :=
  match remaining with
  | O =>
      throw (context +:+ " failed after " +:+ pretty maxAttempts +:+ " attempts: "
             +:+ default "undefined" lastError)
  | S remaining' =>
      try_catch operation (fun err =>
        emit (EvWarn (context +:+ " failed (attempt " +:+ pretty attempt +:+ "/"
                      +:+ pretty maxAttempts +:+ "): " +:+ err));;
        (if (attempt <? maxAttempts)%nat
         then sleep (DB_RETRY_DELAY_MS * Z.of_nat attempt)
         else ret tt);;
        withRetry_loop operation context maxAttempts remaining' (S attempt)
                       (Some err))
  end.

Definition withRetry {T} (operation : M T) (context : string)
    (maxAttempts : nat) : M T :=
  withRetry_loop operation context maxAttempts maxAttempts 1%nat None.

(** An operation that is one round trip to some service and returns [v]
    when the round trip succeeds: how often it ran is how much of the script
    it has consumed. *)
Definition scripted {T} (v : T) : M T := round_trip;; ret v.

(** ** The store: SQL statements as functions on the tables *)

(** [WHERE status = 'queued' ... FOR UPDATE SKIP LOCKED]: the rows a caller may
    take, given which rows other transactions hold locked. *)
Definition claimable (locked : string -> bool) (r : Job) : bool :=
  bool_decide (status r = queued) && negb (locked (id r)).

Definition created_before (a b : Job) : Prop := created_at a <= created_at b.

Global Instance created_before_dec : RelDecision created_before.
Proof. intros a b. unfold created_before. apply _. Defined.

(** [SELECT * FROM render_jobs WHERE status = 'queued'
     ORDER BY created_at ASC LIMIT 1 FOR UPDATE SKIP LOCKED]: [res.rows]. *)
Definition select_next_queued (locked : string -> bool) (d : Db) : list Job :=
  take 1 (merge_sort created_before (filter (fun r => claimable locked r = true)
                                            (render_jobs d))).

Definition no_locks : string -> bool := fun _ => false.

Definition set_render_jobs (f : Job -> Job) (jobId : string) (d : Db) : Db :=
  mkDb (map (fun r => if decide (id r = jobId) then f r else r) (render_jobs d))
       (users d).

(** [UPDATE render_jobs SET status = 'rendering', started_at = NOW()
     WHERE id = $1] *)
Definition claim_row (now : Z) (r : Job) : Job :=
  mkJob (id r) rendering (input_props r) (user_id r) (progress r)
        (output_url r) (error r) (created_at r) (Some now) (completed_at r).

Definition claim_update (jobId : string) (now : Z) : Db -> Db :=
  set_render_jobs (claim_row now) jobId.

(** [UPDATE render_jobs SET status = 'completed', output_url = $1,
     progress = 1, completed_at = NOW() WHERE id = $2] *)
Definition complete_row (url : string) (now : Z) (r : Job) : Job :=
  mkJob (id r) completed (input_props r) (user_id r) 1%Q
        (Some url) (error r) (created_at r) (started_at r) (Some now).

Definition complete_update (jobId url : string) (now : Z) : Db -> Db :=
  set_render_jobs (complete_row url now) jobId.

(** [UPDATE render_jobs SET status = 'failed', error = $1 WHERE id = $2] *)
Definition fail_row (message : string) (r : Job) : Job :=
  mkJob (id r) failed (input_props r) (user_id r) (progress r)
        (output_url r) (Some message) (created_at r) (started_at r)
        (completed_at r).

Definition fail_update (jobId message : string) (now : Z) : Db -> Db :=
  set_render_jobs (fail_row message) jobId.

(** [UPDATE render_jobs SET progress = $1 WHERE id = $2] *)
Definition progress_row (p : Q) (r : Job) : Job :=
  mkJob (id r) (status r) (input_props r) (user_id r) p
        (output_url r) (error r) (created_at r) (started_at r)
        (completed_at r).

Definition progress_update (jobId : string) (p : Q) (now : Z) : Db -> Db :=
  set_render_jobs (progress_row p) jobId.

(** [UPDATE users SET credits = GREATEST(credits - $1, 0), updated_at = NOW()
     WHERE id = $2] *)
Definition debit_row (amount now : Z) (u : User) : User :=
  mkUser (uid u) (Z.max (credits u - amount) 0) now.

Definition debit_update (userId amount : Z) (now : Z) (d : Db) : Db :=
  mkDb (render_jobs d)
       (map (fun u => if decide (uid u = userId) then debit_row amount now u else u)
            (users d)).

(** [SELECT credits FROM users WHERE id = $1 FOR UPDATE]: [userResult.rows]. *)
Definition select_user (userId : Z) (d : Db) : list User :=
  filter (fun u => uid u = userId) (users d).

(** ** The store: the client *)

Definition set_txn (t : option Db) : M unit :=
  fun w => (Ok tt, mkWorld (db w) t (faults w) (clock w) (trace w)).

(** [pool.connect()]: a client with no transaction open. *)
Definition pool_connect : M unit := round_trip;; set_txn None.

(** [client.release()]. A transaction still open on a released client never
    commits: its working copy is dropped. *)
Definition client_release : M unit := set_txn None.

(** What [BEGIN] does: the transaction starts from the committed state (a
    [BEGIN] inside a transaction only warns). *)
Definition open_txn : M unit :=
  fun w => match txn w with
           | Some _ => (Ok tt, w)
           | None => (Ok tt, mkWorld (db w) (Some (db w)) (faults w) (clock w) (trace w))
           end.

(** [client.query("BEGIN")] *)
Definition query_begin : M unit := round_trip;; open_txn.

(** What [COMMIT] does: the working copy becomes the committed state. *)
Definition commit_txn : M unit :=
  fun w => match txn w with
           | Some t => (Ok tt, mkWorld t None (faults w) (clock w) (trace w))
           | None => (Ok tt, w)
           end.

(** [client.query("COMMIT")] *)
Definition query_commit : M unit := round_trip;; commit_txn.

(** [client.query("ROLLBACK")] *)
Definition query_rollback : M unit := round_trip;; set_txn None.

(** [client.query('SET statement_timeout = 5000')] *)
Definition query_set_timeout : M unit := round_trip.

(** What a writing statement does: inside a transaction it changes the
    working copy, outside it commits at once. *)
Definition apply_stmt (stmt : Z -> Db -> Db) : M unit :=
  fun w => match txn w with
           | Some t => (Ok tt, mkWorld (db w) (Some (stmt (clock w) t)) (faults w)
                                       (clock w) (trace w))
           | None => (Ok tt, mkWorld (stmt (clock w) (db w)) None (faults w)
                                     (clock w) (trace w))
           end.

(** [client.query(stmt)] for a statement that writes; [stmt] gets [NOW()]. *)
Definition client_query (stmt : Z -> Db -> Db) : M unit :=
  round_trip;; apply_stmt stmt.

(** What a reading statement sees: the working copy of the open
    transaction, else the committed state. *)
Definition read_view {A} (read : Db -> A) : M A :=
  fun w => (Ok (read (default (db w) (txn w))), w).

(** [client.query(stmt)] for a statement that reads. *)
Definition client_select {A} (read : Db -> A) : M A :=
  round_trip;; read_view read.

(** ** Safe store operations *)

Definition getClient : M unit :=
  withRetry pool_connect "Database connection" DB_RETRY_ATTEMPTS.

Definition safeQuery (stmt : Z -> Db -> Db) : M unit :=
  withRetry (getClient;; finally (client_query stmt) client_release)
            "Database query" DB_RETRY_ATTEMPTS.

(** ** Job fetch *)

Definition getNextJob : M (option Job) :=
  getClient;;
  finally
    (try_catch
       (query_set_timeout;;
        query_begin;;
        rows ← client_select (select_next_queued no_locks);
        match rows with
        | [] => query_rollback;; ret None
        | job :: _ =>
            client_query (claim_update (id job));;
            query_commit;;
            ret (Some job)
        end)
       (fun err => catch_ignore query_rollback;; throw err))
    client_release.

(** [getNextJob] of [server/worker.ts]: no retry around [pool.connect], no
    statement timeout, and a [ROLLBACK] in the handler that may throw. *)
Definition getNextJob_v1 : M (option Job) :=
  pool_connect;;
  finally
    (try_catch
       (query_begin;;
        rows ← client_select (select_next_queued no_locks);
        match rows with
        | [] => query_rollback;; ret None
        | job :: _ =>
            client_query (claim_update (id job));;
            query_commit;;
            ret (Some job)
        end)
       (fun err => query_rollback;; throw err))
    client_release.

(** ** Credit deduction and terminal writes *)

Definition deductUserCredit (userId : Z) : M unit :=
  getClient;;
  finally
    (try_catch
       (query_begin;;
        rows ← client_select (select_user userId);
        match rows with
        | [] => throw ("User " +:+ pretty userId +:+ " not found")
        | u :: _ =>
            let currentCredits := credits u in
            (if currentCredits <? 1
             then emit (EvWarn ("User " +:+ pretty userId
                                +:+ " has insufficient credits ("
                                +:+ pretty currentCredits
                                +:+ "), but video was already rendered"))
             else ret tt);;
            client_query (debit_update userId 1);;
            query_commit;;
            emit (EvLog ("Deducted 1 credit from user " +:+ pretty userId
                         +:+ " (had " +:+ pretty currentCredits +:+ ")"))
        end)
       (fun err => catch_ignore query_rollback;; throw err))
    client_release.

Definition completeJob (jobId url : string) (userId creditsToDeduct : Z) : M unit :=
  getClient;;
  finally
    (try_catch
       (query_begin;;
        client_query (complete_update jobId url);;
        client_query (debit_update userId creditsToDeduct);;
        query_commit;;
        emit (EvLog ("Job " +:+ jobId +:+ " completed and "
                     +:+ pretty creditsToDeduct
                     +:+ " credits deducted from user " +:+ pretty userId)))
       (fun err => catch_ignore query_rollback;; throw err))
    client_release.

(** [errorMessage.slice(0, 1000)] *)
Definition truncate_error (message : string) : string :=
  String.substring 0 1000 message.

Definition failJob (jobId : string) (message : string) : M unit :=
  let truncated := truncate_error message in
  try_catch (safeQuery (fail_update jobId truncated))
            (fun err => emit (EvError ("CRITICAL: Failed to mark job " +:+ jobId
                                       +:+ " as failed: " +:+ err))).

(** ** Render with throttled progress writes *)

(** [Math.round(progress * 100) / 100], read over exact rationals where the
    code computes in doubles: at a rounding boundary the two can differ in
    the last hundredth. What is proved about the progress writes holds for
    whatever value the rounding gives. *)
Definition round2 (progress : Q) : Q :=
  (inject_Z (Qfloor (progress * 100 + (1 # 2))) / 100)%Q.

(** The two variables of the throttle: [lastProgressUpdate] and
    [lastProgressValue], both 0 when the render starts. *)
Record Throttle := mkThrottle {
  lastProgressUpdate : Z;
  lastProgressValue : Q
}.

Definition throttle_start : Throttle := mkThrottle 0 0.

(** [now - lastProgressUpdate > PROGRESS_UPDATE_INTERVAL_MS
     && progressRounded !== lastProgressValue] *)
Definition should_write (now : Z) (progressRounded : Q) (st : Throttle) : bool :=
  (PROGRESS_UPDATE_INTERVAL_MS <? now - lastProgressUpdate st)
  && negb (Qeq_bool progressRounded (lastProgressValue st)).

(** The [onProgress] callback of [renderJob], called at time [now] (that is
    [Date.now()]) with [progress]. The write is not awaited in the source;
    here it runs at once, behind its [.catch]. *)
Definition onProgress (jobId : string) (now : Z) (progress : Q) (st : Throttle)
    : M Throttle :=
  let progressRounded := round2 progress in
  if should_write now progressRounded st
  then
    try_catch (safeQuery (progress_update jobId progressRounded))
              (fun err => emit (EvError ("Failed to update progress for job "
                                         +:+ jobId +:+ ": " +:+ err)));;
    ret (mkThrottle now progressRounded)
  else ret st.

(** What the collaborators of one job do: whether [selectComposition]
    resolves, the progress callbacks [renderMedia] makes (time and fraction)
    and whether it resolves, whether the upload and the unlink go through. *)
Record JobEnv := mkJobEnv {
  composition : Result unit;
  progress_events : list (Z * Q);
  render_outcome : Result unit;
  upload : Result unit;
  unlink : Result unit
}.

Definition lift_result {A} (r : Result A) : M A := fun w => (r, w).

(** The callbacks of one [renderMedia] call, in order. *)
Fixpoint run_progress (jobId : string) (events : list (Z * Q)) (st : Throttle)
    : M Throttle :=
  match events with
  | [] => ret st
  | (now, progress) :: events' =>
      st' ← onProgress jobId now progress st;
      run_progress jobId events' st'
  end.

(** [renderMedia({.., onProgress})]: an exception of the callback would end
    the render. *)
Definition renderMedia (jobId : string) (env : JobEnv) : M unit :=
  run_progress jobId (progress_events env) throttle_start;;
  lift_result (render_outcome env).

Definition TEMP_DIR : string := "renders".

Definition renderJob (job : Job) (env : JobEnv) : M string :=
  lift_result (composition env);;
  let outputPath := TEMP_DIR +:+ "/" +:+ id job +:+ ".mp4" in
  renderMedia (id job) env;;
  ret outputPath.

(** ** Storage, cleanup *)

Definition uploadToStorage (jobId : string) (env : JobEnv) : M string :=
  lift_result (upload env);;
  ret ("renders/" +:+ jobId +:+ ".mp4").

Definition cleanupFile (filePath : string) (env : JobEnv) : M unit :=
  match unlink env with
  | Ok _ => emit (EvLog ("Cleaned up " +:+ filePath))
  | Err message =>
      emit (EvLog ("Could not clean up " +:+ filePath +:+ ": " +:+ message))
  end.

(** ** Process job *)

(** [Math.ceil(durationInFrames / fps / 60 * 2)], read over exact rationals
    where the code computes in doubles: at a rounding boundary the two can
    differ by one, and a frame rate of 0 gives 0 here where the code gets
    [Infinity] or [NaN]. What is proved about billing uses of the amount
    only that it is an integer and, for a positive frame rate and a duration
    that is not negative, that it is not negative. *)
Definition creditsToDeduct (info : VideoInfo) : Z :=
  let durationInMinutes := (durationInFrames info / fps info / 60)%Q in
  Qceiling (durationInMinutes * 2)%Q.

(** Runs [m] and hands its outcome over as a value. *)
Definition attempt {A} (m : M A) : M (Result A) :=
  fun w => match m w with (r, w') => (Ok r, w') end.

(** [processJob]. The variable [outputFile] is still empty when [renderJob]
    throws, and holds its result afterwards. Of the console lines, the one
    that formats the duration with [toFixed] is left out. *)
Definition processJob (job : Job) (env : JobEnv) : M unit :=
  emit (EvLog ("Starting render " +:+ id job));;
  rendered ← attempt (renderJob job env);
  let outputFile := match rendered with Ok p => p | Err _ => "" end in
  finally
    (try_catch
       (lift_result rendered;;
        emit (EvLog ("Uploading " +:+ id job));;
        url ← uploadToStorage (id job) env;
        match input_props job with
        | None => throw "Cannot destructure property 'durationInFrames'"
        | Some info =>
            completeJob (id job) url (user_id job) (creditsToDeduct info);;
            emit (EvLog ("Completed " +:+ id job))
        end)
       (fun err =>
          emit (EvError ("Failed " +:+ id job +:+ " " +:+ err));;
          failJob (id job) err))
    (if bool_decide (outputFile = "") then ret tt
     else cleanupFile outputFile env).

(** ** Observations used in the statements *)

Definition set_faults (fs : list (option string)) (w : World) : World :=
  mkWorld (db w) (txn w) fs (clock w) (trace w).

(** The waits recorded in a trace. *)
Definition sleeps_of (evs : list Event) : list Z :=
  omap (fun e => match e with EvSleep ms => Some ms | _ => None end) evs.

Definition warns_of (evs : list Event) : list string :=
  omap (fun e => match e with EvWarn m => Some m | _ => None end) evs.

(** Round trips made between two worlds, while the script lasts. *)
Definition round_trips (w w' : World) : nat :=
  (length (faults w) - length (faults w'))%nat.

(** [base_delay * 1, .., base_delay * k] *)
Definition backoff_waits (k : nat) : list Z :=
  map (fun attempt => DB_RETRY_DELAY_MS * Z.of_nat attempt) (seq 1 k).

(** The composite error of [withRetry]. *)
Definition retry_error (context : string) (maxAttempts : nat)
    (lastError : option string) : string :=
  context +:+ " failed after " +:+ pretty maxAttempts +:+ " attempts: "
  +:+ default "undefined" lastError.

(** What [withRetry] prints and waits for while attempts [attempt],
    [attempt + 1], .. fail with the messages [msgs]. *)
Fixpoint retry_events (context : string) (maxAttempts attempt : nat)
    (msgs : list string) : list Event :=
  match msgs with
  | [] => []
  | m :: ms =>
      EvWarn (context +:+ " failed (attempt " +:+ pretty attempt +:+ "/"
              +:+ pretty maxAttempts +:+ "): " +:+ m)
      :: (if (attempt <? maxAttempts)%nat
          then [EvSleep (DB_RETRY_DELAY_MS * Z.of_nat attempt)] else [])
      ++ retry_events context maxAttempts (S attempt) ms
  end.

(** The world after attempts [attempt], [attempt + 1], .. have failed with
    [msgs] and the script is down to [rest]. *)
Definition after_retries (context : string) (maxAttempts attempt : nat)
    (msgs : list string) (rest : list (option string)) (w : World) : World :=
  mkWorld (db w) (txn w) rest
          (clock w + foldr Z.add 0
             (sleeps_of (retry_events context maxAttempts attempt msgs)))
          (trace w ++ retry_events context maxAttempts attempt msgs).

(** The balance of a user: [SELECT credits FROM users WHERE id = userId]. *)
Definition balance (userId : Z) (d : Db) : option Z :=
  credits <$> head (select_user userId d).

(** No round trip is scripted to fail. *)
Definition no_faults (fs : list (option string)) : Prop :=
  forall msg, Some msg ∉ fs.

Definition fault_free (w : World) : Prop := no_faults (faults w).

(** The progress writes a sequence of callbacks issues: when, and which
    value. *)
Fixpoint issued_writes (events : list (Z * Q)) (st : Throttle) : list (Z * Q) :=
  match events with
  | [] => []
  | (now, progress) :: events' =>
      if should_write now (round2 progress) st
      then (now, round2 progress)
           :: issued_writes events' (mkThrottle now (round2 progress))
      else issued_writes events' st
  end.

(** The throttle after a sequence of callbacks: time and value of the last
    write issued, if any. *)
Definition throttle_after (events : list (Z * Q)) (st : Throttle) : Throttle :=
  match last (issued_writes events st) with
  | Some (at_time, value) => mkThrottle at_time value
  | None => st
  end.

(** The store after the writes [ws] of progress went through. *)
Definition apply_writes (jobId : string) (now : Z) (ws : list (Z * Q)) (d : Db)
    : Db :=
  foldl (fun d' write => progress_update jobId write.2 now d') d ws.

(** ** Concurrent callers of [getNextJob]

    Each caller runs [getNextJob] on a client of its own; the store executes
    one statement at a time, in any interleaving, and keeps a lock on every
    row a [SELECT .. FOR UPDATE] has returned until the transaction of the
    caller ends. A caller is at the statement it sends next. Uncommitted
    writes live in the transaction: the [UPDATE] reaches the table at
    [COMMIT]. A statement may fail, which takes the caller to the [catch]
    block and its [ROLLBACK]. *)
Inductive Pc :=
| AtConnect
| AtSetTimeout
| AtBegin
| AtSelect
| AtUpdate (job : Job)
| AtCommit (job : Job)
| AtRollback
| AtHandler (held : option Job) (err : string)
| Returned (result : option Job)
| Thrown (err : string).

Record CState := mkCState {
  cdb : Db;                    (* committed tables *)
  locks : gmap string nat;     (* row id -> the caller whose transaction holds it *)
  pcs : list Pc                (* where each caller is *)
}.

(** The row a caller's open transaction holds locked. *)
Definition held_job (pc : Pc) : option Job :=
  match pc with
  | AtUpdate job | AtCommit job | AtHandler (Some job) _ => Some job
  | _ => None
  end.

(** The job a caller has been given: returned, or selected and locked. *)
Definition taken_job (pc : Pc) : option Job :=
  match pc with
  | Returned (Some job) => Some job
  | _ => held_job pc
  end.

Definition is_claim (pc : Pc) : bool :=
  match pc with Returned (Some _) => true | _ => false end.

Definition is_done (pc : Pc) : bool :=
  match pc with Returned _ | Thrown _ => true | _ => false end.

(** Successful claims so far. *)
Definition claims (s : CState) : nat := length (filter (fun pc => is_claim pc = true) (pcs s)).

Definition all_done (s : CState) : Prop := Forall (fun pc => is_done pc = true) (pcs s).

Definition is_queued (r : Job) : Prop := status r = queued.

(** [M]: the queued rows of a table. *)
Definition queued_count (d : Db) : nat := length (filter is_queued (render_jobs d)).

Definition locked_by_other (s : CState) (c : nat) (rowId : string) : bool :=
  match locks s !! rowId with
  | Some c' => negb (c' =? c)%nat
  | None => false
  end.

Definition set_pc (c : nat) (pc : Pc) (s : CState) : CState :=
  mkCState (cdb s) (locks s) (<[c := pc]> (pcs s)).

(** The end of a transaction releases its row lock. *)
Definition unlock (held : option Job) (s : CState) : CState :=
  match held with
  | Some job => mkCState (cdb s) (delete (id job) (locks s)) (pcs s)
  | None => s
  end.

(** Caller [c] sends its next statement; [fault] tells whether it throws.
    Nothing happens for a caller that has finished or does not exist. *)
Definition cstep (now : Z) (c : nat) (fault : option string) (s : CState) : CState :=
  match pcs s !! c with
  | None => s
  | Some pc =>
      match pc, fault with
      | Returned _, _ | Thrown _, _ => s
      | AtHandler held err, _ => set_pc c (Thrown err) (unlock held s)
      | AtConnect, Some err => set_pc c (Thrown err) s
      | AtConnect, None => set_pc c AtSetTimeout s
      | AtSetTimeout, Some err => set_pc c (AtHandler None err) s
      | AtSetTimeout, None => set_pc c AtBegin s
      | AtBegin, Some err => set_pc c (AtHandler None err) s
      | AtBegin, None => set_pc c AtSelect s
      | AtSelect, Some err => set_pc c (AtHandler None err) s
      | AtSelect, None =>
          match select_next_queued (locked_by_other s c) (cdb s) with
          | [] => set_pc c AtRollback s
          | job :: _ =>
              set_pc c (AtUpdate job)
                     (mkCState (cdb s) (<[id job := c]> (locks s)) (pcs s))
          end
      | AtUpdate job, Some err => set_pc c (AtHandler (Some job) err) s
      | AtUpdate job, None => set_pc c (AtCommit job) s
      | AtCommit job, Some err => set_pc c (AtHandler (Some job) err) s
      | AtCommit job, None =>
          set_pc c (Returned (Some job))
                 (unlock (Some job)
                    (mkCState (claim_update (id job) now (cdb s)) (locks s) (pcs s)))
      | AtRollback, Some err => set_pc c (AtHandler None err) s
      | AtRollback, None => set_pc c (Returned None) s
      end
  end.

(** A schedule: who moves, and whether the statement fails. *)
Fixpoint crun (now : Z) (sched : list (nat * option string)) (s : CState) : CState :=
  match sched with
  | [] => s
  | (c, fault) :: sched' => crun now sched' (cstep now c fault s)
  end.

(** [N] callers about to call [getNextJob]. *)
Definition cinit (N : nat) (d : Db) : CState :=
  mkCState d ∅ (replicate N AtConnect).

Definition fault_free_schedule (sched : list (nat * option string)) : Prop :=
  Forall (fun ev => ev.2 = None) sched.

(** How often caller [c] moves in a schedule. *)
Definition turns (c : nat) (sched : list (nat * option string)) : nat :=
  length (filter (fun ev => ev.1 = c) sched).

(** Statements a caller may still send. *)
Definition remaining_steps (pc : Pc) : nat :=
  match pc with
  | AtConnect => 7
  | AtSetTimeout => 6
  | AtBegin => 5
  | AtSelect => 4
  | AtUpdate _ => 3
  | AtCommit _ => 2
  | AtRollback => 2
  | AtHandler _ _ => 1
  | Returned _ | Thrown _ => 0
  end.

(** What holds of every state [N] callers can reach from a table with [M]
    queued rows and unique ids. *)
Record cinv (M N : nat) (s : CState) : Prop := mk_cinv {
  inv_len : length (pcs s) = N;
  inv_nodup : NoDup (id <$> render_jobs (cdb s));
  inv_locks : forall i c,
    locks s !! i = Some c
    <-> exists pc j, pcs s !! c = Some pc /\ held_job pc = Some j /\ id j = i;
  inv_held : forall c pc j,
    pcs s !! c = Some pc -> held_job pc = Some j ->
    j ∈ render_jobs (cdb s) /\ status j = queued;
  inv_returned : forall c j,
    pcs s !! c = Some (Returned (Some j)) ->
    exists r, r ∈ render_jobs (cdb s) /\ id r = id j /\ status r <> queued;
  inv_distinct : forall c1 c2 j1 j2,
    c1 <> c2 ->
    pcs s !! c1 = Some (Returned (Some j1)) ->
    pcs s !! c2 = Some (Returned (Some j2)) ->
    id j1 <> id j2;
  inv_count : (queued_count (cdb s) + claims s = M)%nat
}.

Definition faulted (pc : Pc) : bool :=
  match pc with AtHandler _ _ | Thrown _ => true | _ => false end.

Definition found_none (pc : Pc) : bool :=
  match pc with AtRollback | Returned None => true | _ => false end.

(** What holds in addition while no statement has failed: once a caller has
    found no row, every queued row is locked by a caller about to claim it. *)
Definition cinv_ff (s : CState) : Prop :=
  (forall c pc, pcs s !! c = Some pc -> faulted pc = false)
  /\ ((exists c pc, pcs s !! c = Some pc /\ found_none pc = true) ->
      forall r, r ∈ render_jobs (cdb s) -> status r = queued ->
                is_Some (locks s !! id r)).

(** The jobs handed out are queued rows of the table the callers started
    from, and rows still queued are rows of that table. *)
Definition cinv_orig (d : Db) (s : CState) : Prop :=
  (forall r, r ∈ render_jobs (cdb s) -> status r = queued -> r ∈ render_jobs d)
  /\ (forall c pc j, pcs s !! c = Some pc -> taken_job pc = Some j ->
                     j ∈ render_jobs d /\ status j = queued).

(** The schedule in which the callers [0 .. N-1] take turns, one statement
    each, [rounds] times over, and no statement fails. *)
Definition round_robin (N rounds : nat) : list (nat * option string) :=
  concat (replicate rounds (map (fun c => (c, None)) (seq 0 N))).

(** ** Worker loop and shutdown

    The worker is one JavaScript process: [workerLoop], the jobs it has
    dispatched, the signal handlers and the timers run interleaved, each from
    one [await] to the next. The state has the two module variables, the
    place where [workerLoop] is suspended, one entry for every call of
    [shutdown] that is under way, the armed force-exit timers, and what the
    process has done that can be observed from outside. *)

Definition FORCE_EXIT_MS : Z := 30000.

Inductive LoopPc :=
| Booting          (* main: before workerLoop *)
| LoopSleeping     (* in one of the three [await sleep(..)] *)
| LoopClaiming     (* in [await getNextJob()] *)
| LoopExited.      (* the while loop has ended *)

Inductive ShutdownPc :=
| ShWaiting        (* gracefulShutdown: in [await sleep(1000)] *)
| ShClosingPool.   (* gracefulShutdown: in [await pool.end()] *)

Inductive ClaimOutcome := ClaimedJob | NoJob | ClaimError.

(** What happens to the process. *)
Inductive WEvent :=
| Boot (healthy : bool)          (* the health check of main settles *)
| Wake                           (* a sleep of workerLoop ends *)
| ClaimDone (outcome : ClaimOutcome)
| JobFinished                    (* the [finally] of a dispatched processJob *)
| Signal                         (* SIGINT, SIGTERM, or an uncaught exception
                                    that is no connection error *)
| UncaughtRecoverable            (* an uncaught connection error *)
| ShutdownWake (k : nat)         (* the sleep of the k-th shutdown ends *)
| PoolEndSettled (k : nat) (ok : bool)
| TimerFire (k : nat).           (* the k-th force-exit timer is due *)

(** What the process does. *)
Inductive WLog :=
| LogClaimAttempt                (* getNextJob() is called *)
| LogSetTimeout (at_time ms : Z) (* setTimeout(forceExit, ms) *)
| LogPoolEnd (active : nat)      (* pool.end() is called; the counter then *)
| LogPoolClosed                  (* 'Database pool closed' *)
| LogPoolError                   (* 'Error closing pool' *)
| LogExit (code : Z).            (* process.exit(code) *)

Global Instance WLog_eq_dec : EqDecision WLog.
Proof. solve_decision. Defined.

Record WState := mkWState {
  shuttingDown : bool;
  activeRenders : nat;
  loop : LoopPc;
  shutdowns : list ShutdownPc;
  timers : list Z;               (* deadlines *)
  pool_closed : bool;
  exited : option Z;
  wnow : Z;
  history : list WLog
}.

Definition winit : WState :=
  mkWState false 0 Booting [] [] false None 0 [].

Definition set_loop (pc : LoopPc) (s : WState) : WState :=
  mkWState (shuttingDown s) (activeRenders s) pc (shutdowns s) (timers s)
           (pool_closed s) (exited s) (wnow s) (history s).

Definition set_active (n : nat) (s : WState) : WState :=
  mkWState (shuttingDown s) n (loop s) (shutdowns s) (timers s)
           (pool_closed s) (exited s) (wnow s) (history s).

Definition set_shutdowns (l : list ShutdownPc) (s : WState) : WState :=
  mkWState (shuttingDown s) (activeRenders s) (loop s) l (timers s)
           (pool_closed s) (exited s) (wnow s) (history s).

Definition log (e : WLog) (s : WState) : WState :=
  mkWState (shuttingDown s) (activeRenders s) (loop s) (shutdowns s) (timers s)
           (pool_closed s) (exited s) (wnow s) (history s ++ [e]).

Definition advance (t : Z) (s : WState) : WState :=
  mkWState (shuttingDown s) (activeRenders s) (loop s) (shutdowns s) (timers s)
           (pool_closed s) (exited s) (Z.max (wnow s) t) (history s).

(** [process.exit(code)] *)
Definition process_exit (code : Z) (s : WState) : WState :=
  mkWState (shuttingDown s) (activeRenders s) (loop s) (shutdowns s) (timers s)
           (pool_closed s) (Some code) (wnow s) (history s ++ [LogExit code]).

(** [workerLoop] from the test of [while (!shuttingDown)] to its next
    [await]. *)
Definition loop_iterate (maxParallel : nat) (s : WState) : WState :=
  if shuttingDown s then set_loop LoopExited s
  else if (maxParallel <=? activeRenders s)%nat then set_loop LoopSleeping s
  else set_loop LoopClaiming (log LogClaimAttempt s).

(** [gracefulShutdown] of the k-th shutdown from the test of
    [while (activeRenders > 0)] to its next [await]. *)
Definition drain_iterate (k : nat) (s : WState) : WState :=
  if (0 <? activeRenders s)%nat
  then set_shutdowns (<[k := ShWaiting]> (shutdowns s)) s
  else set_shutdowns (<[k := ShClosingPool]> (shutdowns s))
                     (log (LogPoolEnd (activeRenders s)) s).

(** [shutdown(signal)] up to its first [await]. *)
Definition shutdown (s : WState) : WState :=
  let s1 := mkWState true (activeRenders s) (loop s)
                     (shutdowns s ++ [ShWaiting])
                     (timers s ++ [wnow s + FORCE_EXIT_MS])
                     (pool_closed s) (exited s) (wnow s)
                     (history s ++ [LogSetTimeout (wnow s) FORCE_EXIT_MS]) in
  drain_iterate (length (shutdowns s)) s1.

Definition wstep (maxParallel : nat) (ev : Z * WEvent) (s : WState) : WState :=
  match exited s with
  | Some _ => s
  | None =>
      let s := advance ev.1 s in
      match ev.2 with
      | Boot healthy =>
          match loop s with
          | Booting => if healthy then loop_iterate maxParallel s
                       else process_exit 1 s
          | _ => s
          end
      | Wake =>
          match loop s with
          | LoopSleeping => loop_iterate maxParallel s
          | _ => s
          end
      | ClaimDone outcome =>
          match loop s with
          | LoopClaiming =>
              match outcome with
              | ClaimedJob =>
                  loop_iterate maxParallel (set_active (S (activeRenders s)) s)
              | NoJob | ClaimError => set_loop LoopSleeping s
              end
          | _ => s
          end
      | JobFinished =>
          match activeRenders s with
          | O => s
          | S n => set_active n s
          end
      | Signal => shutdown s
      | UncaughtRecoverable => s
      | ShutdownWake k =>
          match shutdowns s !! k with
          | Some ShWaiting => drain_iterate k s
          | _ => s
          end
      | PoolEndSettled k ok =>
          match shutdowns s !! k with
          | Some ShClosingPool =>
              let s1 := mkWState (shuttingDown s) (activeRenders s) (loop s)
                                 (shutdowns s) (timers s)
                                 (pool_closed s || ok) (exited s) (wnow s)
                                 (history s ++ [if ok then LogPoolClosed
                                                else LogPoolError]) in
              process_exit 0 s1
          | _ => s
          end
      | TimerFire k =>
          match timers s !! k with
          | Some deadline =>
              if deadline <=? wnow s then process_exit 1 s else s
          | None => s
          end
      end
  end.

Definition wrun (maxParallel : nat) (evs : list (Z * WEvent)) (s : WState) : WState :=
  foldl (fun s ev => wstep maxParallel ev s) s evs.

Definition claim_attempts (s : WState) : nat :=
  length (filter (fun e => e = LogClaimAttempt) (history s)).

(** What holds of the worker before and after it exits: [pool.end()] is
    only ever called with the counter at zero, a shutdown that closes the pool
    has called it, a shutdown under way means the flag is set, and every
    force-exit deadline is [FORCE_EXIT_MS] after the signal that set it. *)
Record winv (s : WState) : Prop := mk_winv {
  winv_pool_end : forall a, LogPoolEnd a ∈ history s -> a = 0%nat;
  winv_closing : forall k,
    shutdowns s !! k = Some ShClosingPool -> LogPoolEnd 0 ∈ history s;
  winv_flag : shutdowns s <> [] -> shuttingDown s = true;
  winv_timers : forall k deadline,
    timers s !! k = Some deadline ->
    exists t0, LogSetTimeout t0 FORCE_EXIT_MS ∈ history s
               /\ deadline = t0 + FORCE_EXIT_MS /\ t0 <= wnow s
}.

(** What an exit code tells. *)
Record wexit (s : WState) : Prop := mk_wexit {
  wexit_clean :
    exited s = Some 0 ->
    exists h1 h2 e,
      history s = h1 ++ LogPoolEnd 0 :: h2 ++ [e; LogExit 0]
      /\ (e = LogPoolClosed /\ pool_closed s = true \/ e = LogPoolError)
      /\ shuttingDown s = true;
  wexit_forced :
    exited s = Some 1 ->
    loop s = Booting
    \/ exists t0, LogSetTimeout t0 FORCE_EXIT_MS ∈ history s
                  /\ t0 + FORCE_EXIT_MS <= wnow s;
  wexit_codes : forall code, exited s = Some code -> code = 0 \/ code = 1
}.

(** ** The in-memory render queue ([server/render-queue.ts]) and its cancel
       endpoint ([server/index.ts])

    The registry is the [Map] [jobs]; the promise chain [queue] is kept as the
    ids whose [processRender] is chained and has not been called ([pending]),
    the render that is under way ([running], with the [job.data] it
    captured and whether its cancel signal was raised), and the rejection of
    the chain, if any. The renderer is outside the repository: it reports
    progress, then resolves or rejects; what it does once its cancel signal
    is raised is its own affair, and either answer is possible here.
    [randomUUID()] never returns an id twice. *)
Module RenderQueue.

(** [JobData]; subtitle groups and style configurations are kept as text. *)
Record JobData := mkJobData {
  style : string;
  captionPadding : Z;
  customStyleConfigs : option (list (string * string));
  transcript : list string;
  videoUrl : string;
  videoInfo : Z * Z * Z * Z      (* width, height, durationInFrames, fps *)
}.

Inductive JobState :=
| Queued (data : JobData)
| InProgress (progress : Q) (data : JobData)
| Completed (url : string) (data : JobData)
| Failed (error : string) (data : JobData).

Definition data_of (job : JobState) : JobData :=
  match job with
  | Queued d | InProgress _ d | Completed _ d | Failed _ d => d
  end.

Record State := mkState {
  jobs : gmap string JobState;
  pending : list string;
  running : option (string * JobData);
  cancelled : bool;              (* [cancel()] of the render under way was called *)
  rejected : option string;
  created : list string;         (* every id createJob has made, in order *)
  started : list string          (* every id processRender was called with *)
}.

Definition init : State := mkState ∅ [] None false None [] [].

Inductive Event :=
| Create (jobId : string) (data : JobData)   (* POST /renders *)
| Next                                       (* the chain calls processRender *)
| Progress (p : Q)                           (* onProgress of the renderer *)
| Settle (outcome : option string)           (* the renderer resolves (None)
                                                or rejects (Some error) *)
| Cancel (jobId : string).                   (* DELETE /renders/:jobId *)


(** [queueRender] *)
Definition queueRender (jobId : string) (data : JobData) (s : State) : State :=
  mkState (<[jobId := Queued data]> (jobs s)) (pending s ++ [jobId])
          (running s) (cancelled s) (rejected s)
          (created s ++ [jobId]) (started s).

(** [createJob]: [jobId] is the fresh [randomUUID()]. *)
Definition createJob (jobId : string) (data : JobData) (s : State) : State :=
  if bool_decide (jobId ∈ created s) then s else queueRender jobId data s.

(** [processRender(jobId)] up to its first [await]; [rest] is what stays
    chained behind it. *)
Definition processRender (jobId : string) (rest : list string) (s : State) : State :=
  match jobs s !! jobId with
  | None =>
      mkState (jobs s) rest None (cancelled s)
              (Some ("Render job " +:+ jobId +:+ " not found"))
              (created s) (started s ++ [jobId])
  | Some job =>
      mkState (<[jobId := InProgress 0 (data_of job)]> (jobs s)) rest
              (Some (jobId, data_of job)) false (rejected s)
              (created s) (started s ++ [jobId])
  end.

Definition render_url (port : Z) (jobId : string) : string :=
  "http://localhost:" +:+ pretty port +:+ "/renders/" +:+ jobId +:+ ".mp4".

(** The rest of [processRender] when the renderer settles: after the
    [await]s of the [try] block the job is set to [completed], in the
    [catch] block to [failed]. Neither looks at the cancel signal. *)
Definition settle (port : Z) (outcome : option string) (s : State) : State :=
  match running s with
  | None => s
  | Some (jobId, data) =>
      let result :=
        match outcome with
        | None => Completed (render_url port jobId) data
        | Some err => Failed err data
        end in
      mkState (<[jobId := result]> (jobs s)) (pending s) None (cancelled s)
              (rejected s) (created s) (started s)
  end.


(** ... and what [job.cancel()] does. *)
Definition cancel (jobId : string) (s : State) : State :=
  match jobs s !! jobId with
  | Some (Queued _) =>
      mkState (delete jobId (jobs s)) (pending s) (running s) (cancelled s)
              (rejected s) (created s) (started s)
  | Some (InProgress _ _) =>
      match running s with
      | Some (j, _) =>
          if bool_decide (j = jobId)
          then mkState (jobs s) (pending s) (running s) true (rejected s)
                       (created s) (started s)
          else s
      | None => s
      end
  | _ => s
  end.

Definition step (port : Z) (ev : Event) (s : State) : State :=
  match ev with
  | Create jobId data => createJob jobId data s
  | Next =>
      match running s, rejected s, pending s with
      | None, None, jobId :: rest => processRender jobId rest s
      | _, _, _ => s
      end
  | Progress p =>
      match running s with
      | Some (jobId, data) =>
          mkState (<[jobId := InProgress p data]> (jobs s)) (pending s)
                  (running s) (cancelled s) (rejected s) (created s) (started s)
      | None => s
      end
  | Settle outcome => settle port outcome s
  | Cancel jobId => cancel jobId s
  end.

Definition run (port : Z) (evs : list Event) (s : State) : State :=
  foldl (fun s ev => step port ev s) s evs.

Definition is_queued (o : option JobState) : Prop :=
  match o with Some (Queued _) => True | _ => False end.

Definition is_in_progress (o : option JobState) : Prop :=
  match o with Some (InProgress _ _) => True | _ => False end.

Definition is_failed (o : option JobState) : Prop :=
  match o with Some (Failed _ _) => True | _ => False end.



(** What holds of every state the queue can reach. *)
Record inv (s : State) : Prop := mk_inv {
  inv_created : created s = started s ++ pending s;
  inv_nodup : NoDup (created s);
  inv_running : forall j d,
    running s = Some (j, d) ->
    j ∈ started s /\ exists p, jobs s !! j = Some (InProgress p d);
  inv_in_progress : forall j p d,
    jobs s !! j = Some (InProgress p d) -> running s = Some (j, d);
  inv_known : forall j, is_Some (jobs s !! j) -> j ∈ created s;
  inv_pending : forall j,
    j ∈ pending s -> jobs s !! j = None \/ is_queued (jobs s !! j);
  inv_queued : forall j, is_queued (jobs s !! j) -> j ∈ pending s;
  inv_rejected : forall e, rejected s = Some e -> running s = None
}.

End RenderQueue.


(** * Further code of the worker, of its earlier version and of the server *)

(** ** What a call costs *)

(** A call that takes the world from [w] to [w'] has made at most [trips]
    round trips and has waited at most [wait] ms. *)
Definition within (trips : nat) (wait : Z) (w w' : World) : Prop :=
  (length (faults w) <= length (faults w') + trips)%nat
  /\ clock w <= clock w' <= clock w + wait.

(** The waits of [withRetry] from attempt [attempt] on, when that attempt and
    the [remaining - 1] after it fail. *)
Definition backoff_total (maxAttempts attempt remaining : nat) : Z :=
  foldr Z.add 0
        (map (fun a => if (a <? maxAttempts)%nat
                       then DB_RETRY_DELAY_MS * Z.of_nat a else 0)
             (seq attempt remaining)).

(** ** One job from claim to end *)

(** The error that ends the [try] block of [processJob] when no round trip
    fails: that of the first collaborator that fails, in the order in which
    they are called, or the one of reading the [videoInfo] that is missing. *)
Definition first_failure (job : Job) (env : JobEnv) : option string :=
  match composition env with
  | Err e => Some e
  | Ok _ =>
      match render_outcome env with
      | Err e => Some e
      | Ok _ =>
          match upload env with
          | Err e => Some e
          | Ok _ =>
              match input_props job with
              | None => Some "Cannot destructure property 'durationInFrames'"
              | Some _ => None
              end
          end
      end
  end.

(** The progress writes [processJob] issues: those of the render, if the
    composition was found. *)
Definition job_writes (env : JobEnv) : list (Z * Q) :=
  match composition env with
  | Ok _ => issued_writes (progress_events env) throttle_start
  | Err _ => []
  end.

(** A row after the progress writes [ws]. *)
Definition with_progress (ws : list (Z * Q)) (r : Job) : Job :=
  foldl (fun r' write => progress_row write.2 r') r ws.


(** ** Cleanup attempts

    A call of [cleanupFile] shows on the console, as one of its two lines. *)
Definition is_cleanup (e : Event) : bool :=
  match e with
  | EvLog m => String.prefix "Cleaned up " m
               || String.prefix "Could not clean up " m
  | _ => false
  end.

Definition cleanups (evs : list Event) : list Event :=
  filter (fun e => is_cleanup e = true) evs.

(** From [w] to [w'] the console got lines, none of them of a cleanup. *)
Definition quiet (w w' : World) : Prop :=
  exists evs, trace w' = trace w ++ evs /\ cleanups evs = [].

(** A computation that never attempts a cleanup. *)
Definition Quiet {A} (m : M A) : Prop :=
  forall w r w', m w = (r, w') -> quiet w w'.

(** ** Consecutive claims *)


(** ** The worker loop: capacity and lifetime *)

(** What holds of the worker loop in every state: the counter is within the
    limit and below it while a claim is under way; the loop has ended only
    with the flag set; and before the loop has started nothing was claimed. *)
Record wcap (maxParallel : nat) (s : WState) : Prop := mk_wcap {
  wcap_active : (activeRenders s <= maxParallel)%nat;
  wcap_claiming : loop s = LoopClaiming -> (activeRenders s < maxParallel)%nat;
  wcap_exited : loop s = LoopExited -> shuttingDown s = true;
  wcap_booting :
    loop s = Booting -> claim_attempts s = 0%nat /\ activeRenders s = 0%nat
}.

(** ** One-shot queries on the pool, health check *)

(** [pool.query(stmt)] for a statement that writes: the pool takes a client,
    sends the statement and takes the client back. *)
Definition pool_query (stmt : Z -> Db -> Db) : M unit :=
  pool_connect;; finally (client_query stmt) client_release.

(** [pool.query(stmt)] for a statement that reads. *)
Definition pool_select {A} (read : Db -> A) : M A :=
  pool_connect;; finally (client_select read) client_release.

(** [healthCheck]: [SELECT 1] goes through, or not. *)
Definition healthCheck : M bool :=
  try_catch (pool_select (fun _ => 1);; ret true) (fun _ => ret false).

(** [main] up to the point where the health check has settled: what that
    means for the process. An exception of [main] ends it through
    [main().catch] like a failed check. *)
Definition boot (w : World) : WEvent :=
  match healthCheck w with
  | (Ok healthy, _) => Boot healthy
  | (Err _, _) => Boot false
  end.

(** ** Uncaught exceptions *)

(** [s.includes(needle)] *)
Fixpoint includes (needle s : string) : bool :=
  String.prefix needle s
  || match s with
     | EmptyString => false
     | String _ s' => includes needle s'
     end.

(** [isRecoverableConnectionError] of the [uncaughtException] handler *)
Definition isRecoverableConnectionError (message : string) : bool :=
  includes "Connection terminated unexpectedly" message
  || includes "terminating connection" message
  || includes "ECONNRESET" message
  || includes "EPIPE" message.

(** The [uncaughtException] handler: a recoverable error is logged and
    nothing else, any other starts [shutdown] as a signal does. *)
Definition uncaughtException (message : string) : WEvent :=
  if isRecoverableConnectionError message then UncaughtRecoverable else Signal.

(** The events that start no shutdown and end no start-up. *)
Definition benign (ev : Z * WEvent) : Prop :=
  ev.2 <> Signal /\ ev.2 <> Boot false.

(** ** Terminal writes of [server/worker.ts] *)

(** [completeJob] of [server/worker.ts]: one statement, no billing. *)
Definition completeJob_v1 (jobId url : string) : M unit :=
  pool_query (complete_update jobId url).

(** [failJob] of [server/worker.ts]; [text] is [String(error)]. *)
Definition failJob_v1 (jobId text : string) : M unit :=
  pool_query (fail_update jobId text).

(** ** Worker loop and shutdown of [server/worker.ts]

    The earlier worker as a transition system of the same kind as the one
    above. It has no force-exit timer, no handler for uncaught exceptions, no
    health check, no [try] around [getNextJob] and none around [pool.end()]:
    an exception there rejects a promise that nobody handles. The state
    counts these rejections; what the runtime does with them is outside
    the code. *)
Module WorkerV1.

Inductive LoopPc :=
| Booting          (* main: before workerLoop *)
| LoopSleeping     (* in one of the two [await sleep(..)] *)
| LoopClaiming     (* in [await getNextJob()] *)
| LoopExited       (* the while loop has ended *)
| LoopRejected.    (* [getNextJob] has thrown: workerLoop and main are rejected *)

Inductive ShutdownPc :=
| ShWaiting        (* in [await sleep(1000)] *)
| ShClosingPool    (* in [await pool.end()] *)
| ShRejected.      (* [pool.end()] has thrown *)

Inductive Event :=
| Boot                                  (* main calls workerLoop *)
| Wake                                  (* a sleep of workerLoop ends *)
| ClaimDone (outcome : ClaimOutcome)
| JobFinished                           (* the [finally] of a dispatched job *)
| Signal                                (* SIGINT or SIGTERM *)
| ShutdownWake (k : nat)                (* the sleep of the k-th shutdown ends *)
| PoolEndSettled (k : nat) (ok : bool).

Record State := mkState {
  shuttingDown : bool;
  activeRenders : nat;
  loop : LoopPc;
  shutdowns : list ShutdownPc;
  pool_closed : bool;
  exited : option Z;
  claim_attempts : nat;           (* calls of getNextJob *)
  pool_end_calls : list nat;      (* the counter at each call of pool.end() *)
  unhandled : nat                 (* rejections nobody handles *)
}.

Definition init : State := mkState false 0 Booting [] false None 0 [] 0.

(** [workerLoop] from the test of [while (!shuttingDown)] to its next
    [await]. *)
Definition loop_iterate (maxParallel : nat) (s : State) : State :=
  if shuttingDown s
  then mkState (shuttingDown s) (activeRenders s) LoopExited (shutdowns s)
               (pool_closed s) (exited s) (claim_attempts s) (pool_end_calls s)
               (unhandled s)
  else if (maxParallel <=? activeRenders s)%nat
  then mkState (shuttingDown s) (activeRenders s) LoopSleeping (shutdowns s)
               (pool_closed s) (exited s) (claim_attempts s) (pool_end_calls s)
               (unhandled s)
  else mkState (shuttingDown s) (activeRenders s) LoopClaiming (shutdowns s)
               (pool_closed s) (exited s) (S (claim_attempts s))
               (pool_end_calls s) (unhandled s).

(** The k-th [shutdown] from the test of [while (activeRenders > 0)] to its
    next [await]. *)
Definition drain_iterate (k : nat) (s : State) : State :=
  if (0 <? activeRenders s)%nat
  then mkState (shuttingDown s) (activeRenders s) (loop s)
               (<[k := ShWaiting]> (shutdowns s)) (pool_closed s) (exited s)
               (claim_attempts s) (pool_end_calls s) (unhandled s)
  else mkState (shuttingDown s) (activeRenders s) (loop s)
               (<[k := ShClosingPool]> (shutdowns s)) (pool_closed s) (exited s)
               (claim_attempts s) (pool_end_calls s ++ [activeRenders s])
               (unhandled s).

(** [shutdown()] up to its first [await]. *)
Definition shutdown (s : State) : State :=
  drain_iterate (length (shutdowns s))
    (mkState true (activeRenders s) (loop s) (shutdowns s ++ [ShWaiting])
             (pool_closed s) (exited s) (claim_attempts s) (pool_end_calls s)
             (unhandled s)).

Definition step (maxParallel : nat) (ev : Event) (s : State) : State :=
  match exited s with
  | Some _ => s
  | None =>
      match ev with
      | Boot =>
          match loop s with
          | Booting => loop_iterate maxParallel s
          | _ => s
          end
      | Wake =>
          match loop s with
          | LoopSleeping => loop_iterate maxParallel s
          | _ => s
          end
      | ClaimDone outcome =>
          match loop s with
          | LoopClaiming =>
              match outcome with
              | ClaimedJob =>
                  loop_iterate maxParallel
                    (mkState (shuttingDown s) (S (activeRenders s)) (loop s)
                             (shutdowns s) (pool_closed s) (exited s)
                             (claim_attempts s) (pool_end_calls s) (unhandled s))
              | NoJob =>
                  mkState (shuttingDown s) (activeRenders s) LoopSleeping
                          (shutdowns s) (pool_closed s) (exited s)
                          (claim_attempts s) (pool_end_calls s) (unhandled s)
              | ClaimError =>
                  mkState (shuttingDown s) (activeRenders s) LoopRejected
                          (shutdowns s) (pool_closed s) (exited s)
                          (claim_attempts s) (pool_end_calls s)
                          (S (unhandled s))
              end
          | _ => s
          end
      | JobFinished =>
          match activeRenders s with
          | O => s
          | S n =>
              mkState (shuttingDown s) n (loop s) (shutdowns s) (pool_closed s)
                      (exited s) (claim_attempts s) (pool_end_calls s)
                      (unhandled s)
          end
      | Signal => shutdown s
      | ShutdownWake k =>
          match shutdowns s !! k with
          | Some ShWaiting => drain_iterate k s
          | _ => s
          end
      | PoolEndSettled k ok =>
          match shutdowns s !! k with
          | Some ShClosingPool =>
              if ok
              then mkState (shuttingDown s) (activeRenders s) (loop s)
                           (shutdowns s) true (Some 0) (claim_attempts s)
                           (pool_end_calls s) (unhandled s)
              else mkState (shuttingDown s) (activeRenders s) (loop s)
                           (<[k := ShRejected]> (shutdowns s)) (pool_closed s)
                           (exited s) (claim_attempts s) (pool_end_calls s)
                           (S (unhandled s))
          | _ => s
          end
      end
  end.

Definition run (maxParallel : nat) (evs : list Event) (s : State) : State :=
  foldl (fun s ev => step maxParallel ev s) s evs.

(** What holds of the earlier worker in every state. *)
Record inv (s : State) : Prop := mk_inv {
  inv_exit : forall code, exited s = Some code -> code = 0 /\ pool_closed s = true;
  inv_closed : pool_closed s = true -> pool_end_calls s <> [];
  inv_calls : forall a, a ∈ pool_end_calls s -> a = 0%nat;
  inv_closing : ShClosingPool ∈ shutdowns s -> pool_end_calls s <> [];
  inv_flag : shutdowns s <> [] -> shuttingDown s = true
}.

(** A render is under way and no shutdown has got past its wait. *)
Definition held_up (s : State) : Prop :=
  (0 < activeRenders s)%nat /\ exited s = None /\ ShClosingPool ∉ shutdowns s.

End WorkerV1.

(** ** The endpoint that creates a job ([server/index.ts])

    The handler of [POST /renders] up to its call of [queue.createJob]: the
    body as [express.json()] has parsed it, the defaults of the
    destructuring, the checks in their order. *)
Module Server.

#[local] Unset Elimination Schemes.
Inductive JSON :=
| JNull
| JBool (b : bool)
| JNum (x : Q)
| JStr (s : string)
| JArr (items : list JSON)
| JObj (fields : list (string * JSON)).
#[local] Set Elimination Schemes.

(** [typeof v]; the value [None] is [undefined]. *)
Inductive TypeOf := TUndefined | TObject | TBoolean | TNumber | TString.

Global Instance TypeOf_eq_dec : EqDecision TypeOf.
Proof. solve_decision. Defined.

Definition typeof (v : option JSON) : TypeOf :=
  match v with
  | None => TUndefined
  | Some JNull | Some (JArr _) | Some (JObj _) => TObject
  | Some (JBool _) => TBoolean
  | Some (JNum _) => TNumber
  | Some (JStr _) => TString
  end.

(** What counts as true in [!v] and [v || w]. *)
Definition truthy (v : JSON) : bool :=
  match v with
  | JNull => false
  | JBool b => b
  | JNum x => negb (Qeq_bool x 0)
  | JStr s => negb (bool_decide (s = ""))
  | JArr _ | JObj _ => true
  end.

(** [Array.isArray(v)] *)
Definition isArray (v : JSON) : bool :=
  match v with JArr _ => true | _ => false end.

(** The binding of [key] in the fields of a parsed object. *)
Fixpoint assoc (key : string) (fields : list (string * JSON)) : option JSON :=
  match fields with
  | [] => None
  | (k, v) :: fields' => if bool_decide (k = key) then Some v else assoc key fields'
  end.

(** [v.key] for one of the keys the handler reads, on a value that is not
    [null]: the binding for an object, [undefined] for an array or a
    primitive. *)
Definition get (key : string) (v : JSON) : option JSON :=
  match v with
  | JObj fields => assoc key fields
  | _ => None
  end.

(** The data [createJob] is called with. *)
Record RenderRequest := mkRenderRequest {
  style : JSON;
  captionPadding : JSON;
  customStyleConfigs : JSON;
  transcript : JSON;
  videoUrl : JSON;
  videoInfo : JSON
}.

Inductive Reply :=
| Created (data : RenderRequest)        (* createJob(data); 200 with the job id *)
| BadRequest (message : string).        (* 400 *)

Definition defaultVideoInfo : JSON :=
  JObj [("width", JNum 0); ("height", JNum 0); ("durationInFrames", JNum 0);
        ("fps", JNum 30)].

Definition post_renders (body : option JSON) : Reply :=
  let body := match body with
              | Some v => if truthy v then v else JObj []
              | None => JObj []
              end in
  let style := default (JStr "basic") (get "style" body) in
  let captionPadding := default (JNum 540) (get "captionPadding" body) in
  let customStyleConfigs := default (JObj []) (get "customStyleConfigs" body) in
  let transcript := default (JArr []) (get "transcript" body) in
  let videoUrl := default (JStr "") (get "videoUrl" body) in
  let videoInfo := default defaultVideoInfo (get "videoInfo" body) in
  if negb (bool_decide (typeof (Some style) = TString))
  then BadRequest "style must be a string"
  else if negb (bool_decide (typeof (Some captionPadding) = TNumber))
  then BadRequest "captionPadding must be a number"
  else if negb (isArray transcript)
  then BadRequest "transcript must be an array"
  else if negb (bool_decide (typeof (Some videoUrl) = TString))
  then BadRequest "videoUrl must be a string"
  else if negb (truthy videoInfo)
          || negb (bool_decide (typeof (Some videoInfo) = TObject))
  then BadRequest "videoInfo must be an object"
  else if negb (bool_decide (typeof (get "width" videoInfo) = TNumber))
          || negb (bool_decide (typeof (get "height" videoInfo) = TNumber))
          || negb (bool_decide (typeof (get "durationInFrames" videoInfo) = TNumber))
          || negb (bool_decide (typeof (get "fps" videoInfo) = TNumber))
  then BadRequest ("videoInfo must contain width, height, durationInFrames, "
                   +:+ "and fps as numbers")
  else Created (mkRenderRequest style captionPadding customStyleConfigs
                                transcript videoUrl videoInfo).

(** The six fields the handler reads, with their defaults. *)
Definition request_defaults : list (string * JSON) :=
  [("style", JStr "basic"); ("captionPadding", JNum 540);
   ("customStyleConfigs", JObj []); ("transcript", JArr []);
   ("videoUrl", JStr ""); ("videoInfo", defaultVideoInfo)].

End Server.

(** ** The life of a registry entry ([server/render-queue.ts])

    What [GET /renders/:jobId] shows of a job over time. *)

(** How far a job has got: queued, in progress, done. *)
Definition stage (job : RenderQueue.JobState) : nat :=
  match job with
  | RenderQueue.Queued _ => 0
  | RenderQueue.InProgress _ _ => 1
  | RenderQueue.Completed _ _ | RenderQueue.Failed _ _ => 2
  end.

(** An entry [later] that comes from [earlier]: the data are the same, the
    job has not gone back, and a job that was done is as it was. *)
Definition follows (earlier later : RenderQueue.JobState) : Prop :=
  RenderQueue.data_of later = RenderQueue.data_of earlier
  /\ (stage earlier <= stage later)%nat
  /\ (stage earlier = 2%nat -> later = earlier).

(** What the event [ev] may have done to the entry of job [j], in a queue
    that had made the ids [known]. *)
Definition entry_step (port : Z) (j : string) (ev : RenderQueue.Event)
    (known : list string) (before after : option RenderQueue.JobState) : Prop :=
  match before, after with
  | Some st, Some st' =>
      follows st st'
      /\ forall url d, st' = RenderQueue.Completed url d ->
                       st' = st \/ url = RenderQueue.render_url port j
  | Some st, None => ev = RenderQueue.Cancel j /\ stage st = 0%nat
  | None, Some st' =>
      exists d, ev = RenderQueue.Create j d /\ st' = RenderQueue.Queued d
                /\ j ∉ known
  | None, None => True
  end.
(** * Proofs *)

(** ** Monad plumbing *)

Ltac inv_pair H := injection H as ? ?; subst.

Lemma bind_run {A B} (m : M A) (k : A -> M B) (w : World) :
  (m ≫= k) w = match m w with
               | (Ok a, w') => k a w'
               | (Err e, w') => (Err e, w')
               end.
Proof. reflexivity. Qed.

Lemma scripted_fault {T} (v : T) msg rest d t c tr :
  scripted v (mkWorld d t (Some msg :: rest) c tr)
  = (Err msg, mkWorld d t rest c tr).
Proof. reflexivity. Qed.

Lemma scripted_ok {T} (v : T) rest d t c tr :
  scripted v (mkWorld d t (None :: rest) c tr) = (Ok v, mkWorld d t rest c tr).
Proof. reflexivity. Qed.

Lemma scripted_end {T} (v : T) d t c tr :
  scripted v (mkWorld d t [] c tr) = (Ok v, mkWorld d t [] c tr).
Proof. reflexivity. Qed.

Lemma emit_run e d t f c tr :
  emit e (mkWorld d t f c tr) = (Ok tt, mkWorld d t f c (tr ++ [e])).
Proof. reflexivity. Qed.

Lemma sleep_run ms d t f c tr :
  sleep ms (mkWorld d t f c tr)
  = (Ok tt, mkWorld d t f (c + ms) (tr ++ [EvSleep ms])).
Proof. reflexivity. Qed.

Lemma ret_run {A} (a : A) w : ret a w = (Ok a, w).
Proof. reflexivity. Qed.

(** ** Retry wrapper *)

Section Retry.
Context {T : Type} (v : T) (context : string) (maxAttempts : nat).

Lemma sleeps_of_app evs1 evs2 :
  sleeps_of (evs1 ++ evs2) = sleeps_of evs1 ++ sleeps_of evs2.
Proof. unfold sleeps_of. apply omap_app. Qed.

Lemma sleeps_of_warn x evs : sleeps_of (EvWarn x :: evs) = sleeps_of evs.
Proof. reflexivity. Qed.

Lemma sleeps_of_sleep ms evs :
  sleeps_of (EvSleep ms :: evs) = ms :: sleeps_of evs.
Proof. reflexivity. Qed.

Lemma warns_of_app evs1 evs2 :
  warns_of (evs1 ++ evs2) = warns_of evs1 ++ warns_of evs2.
Proof. unfold warns_of. apply omap_app. Qed.

(** The waits between failing attempts [attempt .. attempt + n - 1], the
    last of which is not after [maxAttempts]. *)
Lemma sleeps_of_retry_events msgs attempt :
  (attempt + length msgs <= S maxAttempts)%nat ->
  sleeps_of (retry_events context maxAttempts attempt msgs)
  = map (fun a => DB_RETRY_DELAY_MS * Z.of_nat a)
        (seq attempt (Nat.min (length msgs) (maxAttempts - attempt))).
Proof.
  revert attempt. induction msgs as [|m ms IH]; intros attempt Hle.
  - reflexivity.
  - cbn [retry_events length]. cbn [length] in Hle.
    change (EvWarn ?x :: ?l) with ([EvWarn x] ++ l).
    rewrite !sleeps_of_app. cbn [sleeps_of omap app].
    destruct (Nat.ltb_spec attempt maxAttempts) as [Hlt|Hge].
    + rewrite IH by lia. cbn [sleeps_of omap app].
      replace (Nat.min (S (length ms)) (maxAttempts - attempt))
        with (S (Nat.min (length ms) (maxAttempts - S attempt))) by lia.
      reflexivity.
    + rewrite IH by lia.
      replace (Nat.min (length ms) (maxAttempts - S attempt)) with O by lia.
      replace (Nat.min (S (length ms)) (maxAttempts - attempt)) with O by lia.
      reflexivity.
Qed.

Lemma warns_of_retry_events msgs attempt :
  length (warns_of (retry_events context maxAttempts attempt msgs))
  = length msgs.
Proof.
  revert attempt. induction msgs as [|m ms IH]; intros attempt.
  - reflexivity.
  - cbn [retry_events].
    change (EvWarn ?x :: ?l) with ([EvWarn x] ++ l).
    rewrite !warns_of_app, !length_app, IH.
    destruct (attempt <? maxAttempts)%nat; reflexivity.
Qed.

(** All remaining attempts fail. *)
Lemma withRetry_loop_exhaust msgs attempt lastError rest d t c tr :
  withRetry_loop (scripted v) context maxAttempts (length msgs) attempt
                 lastError (mkWorld d t ((Some <$> msgs) ++ rest) c tr)
  = (Err (retry_error context maxAttempts
            (match last msgs with Some m => Some m | None => lastError end)),
     after_retries context maxAttempts attempt msgs rest
                   (mkWorld d t rest c tr)).
Proof.
  revert attempt lastError c tr.
  induction msgs as [|m ms IH]; intros attempt lastError c tr.
  - cbn. unfold throw, after_retries. cbn.
    rewrite app_nil_r, Z.add_0_r. reflexivity.
  - cbn [length withRetry_loop fmap list_fmap app].
    unfold try_catch at 1. rewrite scripted_fault.
    rewrite bind_run, emit_run, bind_run.
    rewrite last_cons.
    replace (match match last ms with Some y => Some y | None => Some m end with
             | Some m0 => Some m0 | None => lastError end)
      with (match last ms with Some m0 => Some m0 | None => Some m end)
      by (destruct (last ms); reflexivity).
    unfold after_retries. cbn [db txn faults clock trace retry_events].
    destruct (attempt <? maxAttempts)%nat.
    + rewrite sleep_run, IH.
      unfold after_retries. cbn [db txn faults clock trace].
      rewrite sleeps_of_warn. cbn [app]. rewrite sleeps_of_sleep. cbn [foldr].
      f_equal. f_equal; [lia|]. rewrite <- !app_assoc. reflexivity.
    + rewrite ret_run, IH.
      unfold after_retries. cbn [db txn faults clock trace].
      rewrite sleeps_of_warn. cbn [app].
      f_equal. f_equal. rewrite <- !app_assoc. reflexivity.
Qed.

(** The first [length msgs] attempts fail, the next one succeeds. *)
Lemma withRetry_loop_success msgs remaining attempt lastError rest d t c tr :
  (length msgs < remaining)%nat ->
  withRetry_loop (scripted v) context maxAttempts remaining attempt
                 lastError (mkWorld d t ((Some <$> msgs) ++ None :: rest) c tr)
  = (Ok v,
     after_retries context maxAttempts attempt msgs rest
                   (mkWorld d t rest c tr)).
Proof.
  revert remaining attempt lastError c tr.
  induction msgs as [|m ms IH]; intros remaining attempt lastError c tr Hlt.
  - destruct remaining as [|remaining]; [cbn in Hlt; lia|].
    cbn. unfold after_retries. cbn.
    rewrite app_nil_r, Z.add_0_r. reflexivity.
  - destruct remaining as [|remaining]; [cbn in Hlt; lia|].
    cbn [length] in Hlt.
    cbn [length withRetry_loop fmap list_fmap app].
    unfold try_catch at 1. rewrite scripted_fault.
    rewrite bind_run, emit_run, bind_run.
    unfold after_retries. cbn [db txn faults clock trace retry_events].
    destruct (attempt <? maxAttempts)%nat.
    + rewrite sleep_run, IH by lia.
      unfold after_retries. cbn [db txn faults clock trace].
      rewrite sleeps_of_warn. cbn [app]. rewrite sleeps_of_sleep. cbn [foldr].
      f_equal. f_equal; [lia|]. rewrite <- !app_assoc. reflexivity.
    + rewrite ret_run, IH by lia.
      unfold after_retries. cbn [db txn faults clock trace].
      rewrite sleeps_of_warn. cbn [app].
      f_equal. f_equal. rewrite <- !app_assoc. reflexivity.
Qed.

(** Whatever the script, no more than [remaining] attempts are made. *)
Lemma withRetry_loop_bound remaining attempt lastError w :
  (length (faults w)
   <= length (faults (withRetry_loop (scripted v) context maxAttempts remaining
                        attempt lastError w).2) + remaining)%nat.
Proof.
  revert attempt lastError w.
  induction remaining as [|remaining IH]; intros attempt lastError w.
  - cbn. lia.
  - destruct w as [d t fs c tr].
    cbn [withRetry_loop]. unfold try_catch at 1.
    destruct fs as [|[msg|] fs].
    + rewrite scripted_end. cbn. lia.
    + rewrite scripted_fault.
      rewrite bind_run, emit_run, bind_run.
      destruct (attempt <? maxAttempts)%nat.
      * rewrite sleep_run.
        match goal with
        | |- context [withRetry_loop ?o ?x ?n remaining ?a ?l ?w0] =>
            specialize (IH a l w0)
        end.
        cbn [faults length] in IH |- *. lia.
      * rewrite ret_run.
        match goal with
        | |- context [withRetry_loop ?o ?x ?n remaining ?a ?l ?w0] =>
            specialize (IH a l w0)
        end.
        cbn [faults length] in IH |- *. lia.
    + rewrite scripted_ok. cbn. lia.
Qed.
End Retry.

(** Any operation: a value [withRetry] returns is the value of a run of the
    operation, and nothing happens after that run. *)
Lemma withRetry_loop_returns {T} (operation : M T) context maxAttempts
    remaining attempt lastError w a w' :
  withRetry_loop operation context maxAttempts remaining attempt lastError w
  = (Ok a, w') ->
  exists w0, operation w0 = (Ok a, w').
Proof.
  revert attempt lastError w.
  induction remaining as [|remaining IH]; intros attempt lastError w H.
  - discriminate H.
  - cbn [withRetry_loop] in H. unfold try_catch in H.
    destruct (operation w) as [[a0|e] w1] eqn:E.
    + inv_pair H. eauto.
    + rewrite bind_run in H. unfold emit at 1 in H. rewrite bind_run in H.
      destruct (attempt <? maxAttempts)%nat.
      * unfold sleep at 1 in H. exact (IH _ _ _ H).
      * rewrite ret_run in H. exact (IH _ _ _ H).
Qed.

(** Any operation that fails whenever it is run: the composite error. *)
Lemma withRetry_loop_throws {T} (operation : M T) context maxAttempts
    remaining attempt lastError w :
  (forall w0, exists e w1, operation w0 = (Err e, w1)) ->
  (0 < remaining)%nat \/ (exists e, lastError = Some e) ->
  exists e w',
    withRetry_loop operation context maxAttempts remaining attempt lastError w
    = (Err (context +:+ " failed after " +:+ pretty maxAttempts +:+ " attempts: "
            +:+ e), w').
Proof.
  intros Hfail. revert attempt lastError w.
  induction remaining as [|remaining IH]; intros attempt lastError w Hpos.
  - destruct Hpos as [Hpos|[e ->]]; [lia|]. exists e, w. reflexivity.
  - cbn [withRetry_loop]. unfold try_catch.
    destruct (Hfail w) as (e & w1 & ->).
    rewrite bind_run. unfold emit at 1. rewrite bind_run.
    destruct (attempt <? maxAttempts)%nat.
    + unfold sleep at 1. apply IH. right. eauto.
    + rewrite ret_run. apply IH. right. eauto.
Qed.

(** C6. The retry wrapper. For an operation whose next [N] runs fail with the
    messages [msgs], [withRetry] with [maxAttempts = N] runs it exactly [N]
    times, waits [1000 * 1, .., 1000 * (N - 1)] ms between consecutive
    attempts, and throws one error built from the context, the attempt count
    and the last message. When the run after [k < N] failures succeeds, its
    value is returned at once: [k + 1] runs, waits [1000 * 1, .., 1000 * k].
    Whatever the script, the operation is run at most [N] times. For any
    operation at all: a returned value is that of a run of the operation,
    after which nothing more happens, and an operation that always fails
    gets the composite error. The default count is 3, with waits of 1000 and
    2000 ms. *)
Theorem withRetry_attempts_backoff_error :
  (forall (T : Type) (v : T) (context : string) (msgs : list string)
          (rest : list (option string)) (w : World),
      let N := length msgs in
      let w0 := set_faults ((Some <$> msgs) ++ rest) w in
      let out := withRetry (scripted v) context N w0 in
      out.1 = Err (context +:+ " failed after " +:+ pretty N +:+ " attempts: "
                   +:+ default "undefined" (last msgs))
      /\ faults out.2 = rest
      /\ round_trips w0 out.2 = N
      /\ db out.2 = db w
      /\ exists evs, trace out.2 = trace w ++ evs
                     /\ sleeps_of evs = backoff_waits (N - 1)
                     /\ length (warns_of evs) = N)
  /\ (forall (T : Type) (v : T) (context : string) (N : nat)
             (msgs : list string) (rest : list (option string)) (w : World),
         (length msgs < N)%nat ->
         let w0 := set_faults ((Some <$> msgs) ++ None :: rest) w in
         let out := withRetry (scripted v) context N w0 in
         out.1 = Ok v
         /\ faults out.2 = rest
         /\ round_trips w0 out.2 = S (length msgs)
         /\ exists evs, trace out.2 = trace w ++ evs
                        /\ sleeps_of evs = backoff_waits (length msgs))
  /\ (forall (T : Type) (v : T) (context : string) (N : nat) (w : World),
         (round_trips w (withRetry (scripted v) context N w).2 <= N)%nat)
  /\ (forall (T : Type) (operation : M T) (context : string) (N : nat)
             (w w' : World) (a : T),
         withRetry operation context N w = (Ok a, w') ->
         exists w0, operation w0 = (Ok a, w'))
  /\ (forall (T : Type) (operation : M T) (context : string) (N : nat) (w : World),
         (0 < N)%nat ->
         (forall w0, exists e w1, operation w0 = (Err e, w1)) ->
         exists e w',
           withRetry operation context N w
           = (Err (context +:+ " failed after " +:+ pretty N +:+ " attempts: "
                   +:+ e), w'))
  /\ DB_RETRY_ATTEMPTS = 3%nat
  /\ backoff_waits (DB_RETRY_ATTEMPTS - 1) = [1000; 2000].
Proof.
  repeat lazymatch goal with |- _ /\ _ => split end.
  - intros T v context msgs rest [d t f c tr] N w0 out.
    subst out w0 N. unfold withRetry, set_faults.
    cbn [db txn faults clock trace].
    rewrite withRetry_loop_exhaust.
    unfold after_retries, round_trips. cbn [fst snd db txn faults clock trace].
    repeat split.
    + unfold retry_error. destruct (last msgs); reflexivity.
    + rewrite length_app, length_fmap. lia.
    + eexists. split; [reflexivity|]. split.
      * rewrite sleeps_of_retry_events by lia. unfold backoff_waits.
        do 2 f_equal. lia.
      * apply warns_of_retry_events.
  - intros T v context N msgs rest [d t f c tr] Hlt w0 out.
    subst out w0. unfold withRetry, set_faults.
    cbn [db txn faults clock trace].
    rewrite withRetry_loop_success by exact Hlt.
    unfold after_retries, round_trips. cbn [fst snd db txn faults clock trace].
    repeat split.
    + rewrite length_app, length_fmap. cbn [length]. lia.
    + eexists. split; [reflexivity|].
      rewrite sleeps_of_retry_events by lia. unfold backoff_waits.
      do 2 f_equal. lia.
  - intros T v context N w. unfold round_trips, withRetry.
    pose proof (withRetry_loop_bound v context N N 1%nat None w). lia.
  - intros T operation context N w w' a H.
    exact (withRetry_loop_returns _ _ _ _ _ _ _ _ _ H).
  - intros T operation context N w HN Hfail.
    apply withRetry_loop_throws; auto.
  - reflexivity.
  - reflexivity.
Qed.

(** Two failures, then success at the third of three attempts. *)
Lemma withRetry_attempts_backoff_error_witness :
  (2 < 3)%nat
  /\ (withRetry (scripted 7) "Database query" 3
        (mkWorld (mkDb [] []) None [Some "ECONNRESET"; Some "timeout"; None] 0 [])).1
     = Ok 7.
Proof.
  split; [lia|].
  apply (proj1 (proj2 withRetry_attempts_backoff_error) Z 7 "Database query"
           3%nat ["ECONNRESET"; "timeout"] [] (mkWorld (mkDb [] []) None [] 0 [])).
  cbn. lia.
Defined.

(** ** The store under an arbitrary fault script *)

Lemma round_trip_inv w r w' :
  round_trip w = (r, w') ->
  db w' = db w /\ txn w' = txn w /\ clock w' = clock w /\ trace w' = trace w
  /\ faults w' = tail (faults w).
Proof.
  unfold round_trip. destruct (head_fault (faults w)); intros H; inv_pair H; auto.
Qed.

Lemma withRetry_loop_inv {T} (operation : M T) (I : World -> Prop)
    (Q : T -> World -> Prop) :
  (forall w r w', I w -> operation w = (r, w') ->
                  match r with Ok a => Q a w' | Err _ => I w' end) ->
  (forall w e, I w -> I (emit e w).2) ->
  (forall w ms, 0 <= ms -> I w -> I (sleep ms w).2) ->
  forall context maxAttempts remaining attempt lastError w r w',
    I w ->
    withRetry_loop operation context maxAttempts remaining attempt lastError w
    = (r, w') ->
    match r with Ok a => Q a w' | Err _ => I w' end.
Proof.
  intros Hop Hemit Hsleep context maxAttempts.
  induction remaining as [|remaining IH]; intros attempt lastError w r w' HI H.
  - cbn in H. unfold throw in H. inv_pair H. exact HI.
  - cbn [withRetry_loop] in H. unfold try_catch in H.
    destruct (operation w) as [[a|e] w1] eqn:E.
    + inv_pair H. exact (Hop _ _ _ HI E).
    + pose proof (Hop _ _ _ HI E) as HI1. cbn in HI1.
      rewrite bind_run in H.
      pose proof (Hemit w1 (EvWarn (context +:+ " failed (attempt "
        +:+ pretty attempt +:+ "/" +:+ pretty maxAttempts +:+ "): " +:+ e)) HI1)
        as HI2.
      destruct (emit _ w1) as [[[]|e2] w2] eqn:E2; [|discriminate E2].
      cbn [snd] in HI2. rewrite bind_run in H.
      destruct (attempt <? maxAttempts)%nat.
      * pose proof (Hsleep w2 (DB_RETRY_DELAY_MS * Z.of_nat attempt)
                      ltac:(unfold DB_RETRY_DELAY_MS; lia) HI2) as HI3.
        destruct (sleep _ w2) as [[[]|e3] w3] eqn:E3; [|discriminate E3].
        exact (IH _ _ _ _ _ HI3 H).
      * rewrite ret_run in H. exact (IH _ _ _ _ _ HI2 H).
Qed.

(** [getClient] leaves the store alone; on success the client has no
    transaction open. *)
Lemma getClient_inv w r w' :
  getClient w = (r, w') ->
  db w' = db w /\ clock w <= clock w'
  /\ match r with Ok _ => txn w' = None | Err _ => txn w' = txn w end.
Proof.
  intros H. unfold getClient, withRetry in H.
  pose proof (withRetry_loop_inv pool_connect
                (fun x => db x = db w /\ clock w <= clock x /\ txn x = txn w)
                (fun _ x => db x = db w /\ clock w <= clock x /\ txn x = None))
    as L.
  specialize (L ltac:(
    intros x r0 x' (Hd & Hc & Ht) Hx; unfold pool_connect in Hx;
    rewrite bind_run in Hx;
    destruct (round_trip x) as [[[]|e] x1] eqn:E;
    apply round_trip_inv in E as (?&?&?&?&?);
    [unfold set_txn in Hx; inv_pair Hx; cbn; repeat split; congruence
    |inv_pair Hx; repeat split; congruence])).
  specialize (L ltac:(intros x e (?&?&?); cbn; auto)).
  specialize (L ltac:(intros x e ? (?&?&?); cbn; repeat split; auto; lia)).
  specialize (L _ _ _ _ _ _ _ _ (conj eq_refl (conj (Z.le_refl _) eq_refl)) H).
  destruct r; tauto.
Qed.

(** Symbolic execution on an explicit world: unfolds the client's primitives
    and splits on the outcome of each round trip. *)
Ltac unfold_client :=
  unfold pool_connect, client_release, query_begin, query_commit,
    query_rollback, query_set_timeout, client_query, client_select,
    catch_ignore, try_catch, finally, open_txn, commit_txn, apply_stmt,
    read_view, set_txn, round_trip, emit, throw, ret, mbind, M_bind, bind in *.

Ltac split_faults :=
  repeat (cbn -[tail drop] in *;
          match goal with
          | |- context [head_fault ?f] => destruct (head_fault f)
          | H : context [head_fault ?f] |- _ => destruct (head_fault f)
          end).

(** The [try { .. } catch { ROLLBACK; throw } finally { release }] frame of
    the transactional functions: result and committed state are those of the
    body, and the client ends without open transaction. *)
Lemma rollback_release_inv {A} (body : M A) w r w' :
  finally (try_catch body (fun err => catch_ignore query_rollback;; throw err))
          client_release w = (r, w') ->
  exists w1, body w = (r, w1) /\ db w' = db w1 /\ txn w' = None
             /\ clock w' = clock w1.
Proof.
  unfold finally at 1. unfold try_catch at 1.
  destruct (body w) as [[a|e] w1] eqn:E; intros H.
  - exists w1. unfold client_release, set_txn in H. inv_pair H. auto.
  - exists w1. destruct w1 as [d t f c tr].
    unfold_client. split_faults; inv_pair H; auto.
Qed.

(** The body of [completeJob]: both writes are committed, or the committed
    state is as before. *)
Lemma completeJob_body_inv (s1 s2 : Z -> Db -> Db) (e : Event) d f c tr r w' :
  (query_begin;; client_query s1;; client_query s2;; query_commit;; emit e)
    (mkWorld d None f c tr) = (r, w') ->
  clock w' = c
  /\ match r with
     | Ok _ => db w' = s2 c (s1 c d)
     | Err _ => db w' = d
     end.
Proof.
  intros H. unfold_client. split_faults; inv_pair H; auto.
Qed.

Lemma completeJob_inv jobId url userId amount w r w' :
  completeJob jobId url userId amount w = (r, w') ->
  match r with
  | Ok _ => exists now, clock w <= now
                        /\ db w' = debit_update userId amount now
                                     (complete_update jobId url now (db w))
  | Err _ => db w' = db w
  end.
Proof.
  unfold completeJob. rewrite bind_run.
  destruct (getClient w) as [[[]|e] w1] eqn:E;
    apply getClient_inv in E as (Hd & Hc & Ht); intros H.
  - apply rollback_release_inv in H as (w2 & Hb & Hd2 & Ht2 & Hc2).
    destruct w1 as [d1 t1 f1 c1 tr1]. cbn in Hd, Hc, Ht. subst d1 t1.
    apply completeJob_body_inv in Hb as [Hc1 Hr].
    destruct r.
    + exists c1. split; [exact Hc|congruence].
    + congruence.
  - inv_pair H. exact Hd.
Qed.

(** ** The store when no round trip fails *)

Lemma no_faults_head fs : no_faults fs -> head_fault fs = None.
Proof.
  intros H. destruct fs as [|[msg|] fs]; try reflexivity.
  exfalso. apply (H msg). left.
Qed.

Lemma no_faults_nil : no_faults [].
Proof. intros msg H. inversion H. Qed.

Lemma tail_drop {A} (l : list A) n : tail (drop n l) = drop (S n) l.
Proof.
  revert l. induction n as [|n IH]; intros l.
  - destruct l as [|x [|y l]]; reflexivity.
  - destruct l as [|x l]; [reflexivity|]. cbn [drop]. apply IH.
Qed.

Lemma no_faults_drop fs n : no_faults fs -> no_faults (drop n fs).
Proof.
  intros H msg Hin. apply (H msg). exact (subseteq_drop n fs _ Hin).
Qed.

(** Symbolic execution when the script holds no fault. *)
Ltac skip_faults Hff :=
  repeat (cbn -[tail drop] in *;
          match goal with
          | |- context [head_fault (drop ?n ?f)] =>
              rewrite (no_faults_head (drop n f)) by (apply no_faults_drop; exact Hff)
          | |- context [head_fault ?f] =>
              rewrite (no_faults_head f) by exact Hff;
              change (tail f) with (tail (drop 0 f))
          | |- context [tail (drop ?n ?f)] => rewrite (tail_drop f n)
          end).

Lemma getClient_ff d t f c tr :
  no_faults f ->
  getClient (mkWorld d t f c tr) = (Ok tt, mkWorld d None (drop 1 f) c tr).
Proof.
  intros Hff. unfold getClient, withRetry, DB_RETRY_ATTEMPTS.
  cbn [withRetry_loop]. unfold_client. skip_faults Hff. reflexivity.
Qed.

Lemma completeJob_ff jobId url userId amount d t f c tr :
  no_faults f ->
  completeJob jobId url userId amount (mkWorld d t f c tr)
  = (Ok tt,
     mkWorld (debit_update userId amount c (complete_update jobId url c d))
             None (drop 5 f) c
             (tr ++ [EvLog ("Job " +:+ jobId +:+ " completed and "
                            +:+ pretty amount
                            +:+ " credits deducted from user "
                            +:+ pretty userId)])).
Proof.
  intros Hff. unfold completeJob. rewrite bind_run, getClient_ff by exact Hff.
  generalize (EvLog ("Job " +:+ jobId +:+ " completed and " +:+ pretty amount
                     +:+ " credits deducted from user " +:+ pretty userId)).
  intros e. unfold_client. skip_faults Hff. reflexivity.
Qed.

Lemma deductUserCredit_ff userId u us d t f c tr :
  no_faults f ->
  select_user userId d = u :: us ->
  exists tr',
    deductUserCredit userId (mkWorld d t f c tr)
    = (Ok tt, mkWorld (debit_update userId 1 c d) None (drop 5 f) c tr').
Proof.
  intros Hff Hsel. unfold deductUserCredit.
  rewrite bind_run, getClient_ff by exact Hff.
  generalize (EvWarn ("User " +:+ pretty userId +:+ " has insufficient credits ("
                      +:+ pretty (credits u)
                      +:+ "), but video was already rendered")).
  generalize (EvLog ("Deducted 1 credit from user " +:+ pretty userId
                     +:+ " (had " +:+ pretty (credits u) +:+ ")")).
  intros e1 e2. unfold_client. skip_faults Hff. rewrite Hsel.
  destruct (credits u <? 1); skip_faults Hff; eexists; reflexivity.
Qed.

(** ** Balances *)

Lemma select_user_debit userId amount now d :
  select_user userId (debit_update userId amount now d)
  = debit_row amount now <$> select_user userId d.
Proof.
  unfold select_user, debit_update. cbn [users].
  induction (users d) as [|u us IH]; [reflexivity|].
  cbn [map]. rewrite !filter_cons. destruct (decide (uid u = userId)) as [Heq|Hne].
  - cbn [uid debit_row]. rewrite decide_True by exact Heq.
    rewrite fmap_cons. f_equal. exact IH.
  - rewrite decide_False by exact Hne. exact IH.
Qed.

Lemma balance_debit userId amount now d :
  balance userId (debit_update userId amount now d)
  = (fun c => Z.max (c - amount) 0) <$> balance userId d.
Proof.
  unfold balance. rewrite select_user_debit.
  destruct (select_user userId d); reflexivity.
Qed.

Lemma balance_set_render_jobs userId g jobId d :
  balance userId (set_render_jobs g jobId d) = balance userId d.
Proof. reflexivity. Qed.

(** C3. [completeJob] is all or nothing. Whatever round trips fail, either it
    returns and the committed store holds both writes (the job row with
    status [completed], the output reference, progress 1 and
    [completed_at = now]; the user's balance debited), or it throws and the
    committed store is exactly as before. In particular a failure of the
    second write, after the first went through, leaves job row and balance
    untouched; and with no failure both writes are committed. *)
Theorem completeJob_all_or_nothing :
  forall (jobId url : string) (userId amount : Z) (w : World),
    (let out := completeJob jobId url userId amount w in
     (out.1 = Ok tt
      /\ exists now, clock w <= now
           /\ db out.2 = debit_update userId amount now
                           (complete_update jobId url now (db w)))
     \/ (exists e, out.1 = Err e /\ db out.2 = db w))
    /\ (forall (e : string) (rest : list (option string)),
          let out := completeJob jobId url userId amount
                       (set_faults (None :: None :: None :: Some e :: rest) w) in
          out.1 = Err e /\ db out.2 = db w)
    /\ (fault_free w ->
        let out := completeJob jobId url userId amount w in
        out.1 = Ok tt
        /\ db out.2 = debit_update userId amount (clock w)
                        (complete_update jobId url (clock w) (db w)))
    /\ (forall (now : Z) (r : Job),
          let r' := complete_row url now r in
          status r' = completed /\ output_url r' = Some url
          /\ progress r' = 1%Q /\ completed_at r' = Some now
          /\ id r' = id r /\ user_id r' = user_id r
          /\ created_at r' = created_at r /\ started_at r' = started_at r).
Proof.
  intros jobId url userId amount w. split; [|split; [|split]].
  - cbn zeta.
    destruct (completeJob jobId url userId amount w) as [r w'] eqn:E.
    pose proof (completeJob_inv _ _ _ _ _ _ _ E) as H. cbn [fst snd].
    destruct r as [[]|e].
    + left. split; [reflexivity|exact H].
    + right. exists e. split; [reflexivity|exact H].
  - intros e rest. cbn zeta.
    destruct (completeJob jobId url userId amount _) as [r w'] eqn:E.
    pose proof (completeJob_inv _ _ _ _ _ _ _ E) as H. cbn [fst snd].
    assert (r = Err e) as ->.
    { destruct w as [d t f c tr]. unfold set_faults in E.
      cbn [db txn faults clock trace] in E.
      unfold completeJob, getClient, withRetry, DB_RETRY_ATTEMPTS in E.
      cbn [withRetry_loop] in E.
      generalize dependent (EvLog ("Job " +:+ jobId +:+ " completed and "
        +:+ pretty amount +:+ " credits deducted from user " +:+ pretty userId)).
      intros ev E. unfold_client. cbn in E.
      destruct (head_fault rest); inv_pair E; reflexivity. }
    split; [reflexivity|exact H].
  - intros Hff. destruct w as [d t f c tr]. cbn zeta.
    rewrite completeJob_ff by exact Hff. split; reflexivity.
  - intros now r. cbn. repeat split.
Qed.

(** No fault: job "j1" is completed and user 7 pays 2 of 10 credits. *)
Lemma completeJob_all_or_nothing_witness :
  fault_free (mkWorld (mkDb [mkJob "j1" rendering None 7 0 None None 1 (Some 2) None]
                            [mkUser 7 10 0]) None [] 50 [])
  /\ db (completeJob "j1" "renders/j1.mp4" 7 2
           (mkWorld (mkDb [mkJob "j1" rendering None 7 0 None None 1 (Some 2) None]
                          [mkUser 7 10 0]) None [] 50 [])).2
     = mkDb [mkJob "j1" completed None 7 1 (Some "renders/j1.mp4") None 1
                   (Some 2) (Some 50)]
            [mkUser 7 8 50].
Proof.
  split; [exact no_faults_nil|].
  exact (proj2 (proj1 (proj2 (proj2
    (completeJob_all_or_nothing "j1" "renders/j1.mp4" 7 2
       (mkWorld (mkDb [mkJob "j1" rendering None 7 0 None None 1 (Some 2) None]
                      [mkUser 7 10 0]) None [] 50 [])))) no_faults_nil)).
Defined.

(** C4. The balance never goes below zero. From a balance [c], a
    [completeJob] that debits [d] and meets no failure returns normally and
    leaves [max (c - d) 0], whatever [c] and [d] are: an insufficient balance
    does not block completion. Under any failures the balance is [c] or
    [max (c - d) 0]. A balance of 0 stays 0 under a positive debit.
    [deductUserCredit] leaves [max (c - 1) 0]. *)
Theorem debit_floors_at_zero :
  forall (jobId url : string) (userId d c : Z) (w : World),
    balance userId (db w) = Some c ->
    (fault_free w ->
     (completeJob jobId url userId d w).1 = Ok tt
     /\ balance userId (db (completeJob jobId url userId d w).2)
        = Some (Z.max (c - d) 0))
    /\ (balance userId (db (completeJob jobId url userId d w).2) = Some c
        \/ balance userId (db (completeJob jobId url userId d w).2)
           = Some (Z.max (c - d) 0))
    /\ 0 <= Z.max (c - d) 0
    /\ (c = 0 -> 0 < d -> Z.max (c - d) 0 = 0)
    /\ (fault_free w ->
        (deductUserCredit userId w).1 = Ok tt
        /\ balance userId (db (deductUserCredit userId w).2)
           = Some (Z.max (c - 1) 0)).
Proof.
  intros jobId url userId d c w Hbal. split; [|split; [|split; [|split]]].
  - intros Hff. destruct w as [db0 t f c0 tr].
    rewrite completeJob_ff by exact Hff. cbn [fst snd db].
    split; [reflexivity|].
    rewrite balance_debit. unfold complete_update.
    rewrite balance_set_render_jobs. cbn [db] in Hbal. rewrite Hbal. reflexivity.
  - destruct (completeJob jobId url userId d w) as [r w'] eqn:E.
    pose proof (completeJob_inv _ _ _ _ _ _ _ E) as H. cbn [fst snd].
    destruct r as [[]|e].
    + right. destruct H as (now & _ & ->).
      rewrite balance_debit. unfold complete_update.
      rewrite balance_set_render_jobs, Hbal. reflexivity.
    + left. rewrite H. exact Hbal.
  - lia.
  - lia.
  - intros Hff. destruct w as [db0 t f c0 tr]. cbn [db] in Hbal.
    unfold balance in Hbal.
    destruct (select_user userId db0) as [|u us] eqn:Hsel; [discriminate|].
    destruct (deductUserCredit_ff userId u us db0 t f c0 tr Hff Hsel) as [tr' ->].
    cbn [fst snd db]. split; [reflexivity|].
    rewrite balance_debit. unfold balance. rewrite Hsel.
    cbn in Hbal |- *. congruence.
Qed.

(** A user with no credits is debited 3: the job completes, the balance
    stays 0. *)
Lemma debit_floors_at_zero_witness :
  balance 7 (mkDb [mkJob "j1" rendering None 7 0 None None 1 (Some 2) None]
                  [mkUser 7 0 0]) = Some 0
  /\ balance 7 (db (completeJob "j1" "renders/j1.mp4" 7 3
                      (mkWorld (mkDb [mkJob "j1" rendering None 7 0 None None 1
                                            (Some 2) None]
                                     [mkUser 7 0 0]) None [] 50 [])).2)
     = Some 0.
Proof.
  split; [reflexivity|].
  exact (proj2 (proj1
    (debit_floors_at_zero "j1" "renders/j1.mp4" 7 3 0
       (mkWorld (mkDb [mkJob "j1" rendering None 7 0 None None 1 (Some 2) None]
                      [mkUser 7 0 0]) None [] 50 [])
       eq_refl) no_faults_nil)).
Defined.

(** ** Selecting the next queued job *)

Global Instance created_before_trans : Transitive created_before.
Proof. intros a b c. unfold created_before. lia. Qed.

Global Instance created_before_total : Total created_before.
Proof. intros a b. unfold created_before. lia. Qed.

Lemma select_next_queued_nil locked d :
  select_next_queued locked d = []
  <-> forall j, j ∈ render_jobs d -> claimable locked j = false.
Proof.
  unfold select_next_queued.
  set (l := filter (fun r => claimable locked r = true) (render_jobs d)).
  pose proof (merge_sort_Permutation created_before l) as Hperm.
  split.
  - intros Hnil j Hj.
    destruct (claimable locked j) eqn:Hc; [|reflexivity]. exfalso.
    assert (j ∈ l) as Hjl by (apply list_elem_of_filter; auto).
    rewrite <- Hperm in Hjl.
    destruct (merge_sort created_before l); [inversion Hjl|discriminate].
  - intros Hall.
    assert (l = []) as ->.
    { apply elem_of_nil_inv. intros x Hx.
      apply list_elem_of_filter in Hx as [Hc Hx].
      rewrite (Hall x Hx) in Hc. discriminate. }
    reflexivity.
Qed.

Lemma select_next_queued_cons locked d j rest :
  select_next_queued locked d = j :: rest ->
  rest = [] /\ j ∈ render_jobs d /\ claimable locked j = true
  /\ forall j', j' ∈ render_jobs d -> claimable locked j' = true ->
                created_at j <= created_at j'.
Proof.
  unfold select_next_queued.
  set (l := filter (fun r => claimable locked r = true) (render_jobs d)).
  pose proof (merge_sort_Permutation created_before l) as Hperm.
  pose proof (StronglySorted_merge_sort created_before l) as Hsorted.
  destruct (merge_sort created_before l) as [|x xs] eqn:Hms; [discriminate|].
  cbn [take]. rewrite take_0. intros H. injection H as -> <-.
  assert (j ∈ l) as Hjl by (rewrite <- Hperm; left).
  apply list_elem_of_filter in Hjl as [Hc Hj].
  repeat split; auto.
  intros j' Hj' Hc'.
  assert (j' ∈ l) as Hj'l by (apply list_elem_of_filter; auto).
  rewrite <- Hperm in Hj'l.
  apply elem_of_cons in Hj'l as [->|Hin]; [lia|].
  apply StronglySorted_inv in Hsorted as [_ Hall].
  rewrite Forall_forall in Hall. exact (Hall j' Hin).
Qed.




Lemma getNextJob_ff d t f c tr :
  no_faults f ->
  getNextJob (mkWorld d t f c tr)
  = match select_next_queued no_locks d with
    | [] => (Ok None, mkWorld d None (drop 5 f) c tr)
    | j :: _ => (Ok (Some j), mkWorld (claim_update (id j) c d) None (drop 6 f) c tr)
    end.
Proof.
  intros Hff. unfold getNextJob. rewrite bind_run, getClient_ff by exact Hff.
  unfold_client. skip_faults Hff.
  destruct (select_next_queued no_locks d) as [|j rest]; skip_faults Hff;
    reflexivity.
Qed.







(** ** Single statements through [safeQuery] *)

(** One statement on a fresh client, released afterwards. *)
Lemma query_release_inv (stmt : Z -> Db -> Db) d f c tr r w' :
  finally (client_query stmt) client_release (mkWorld d None f c tr) = (r, w') ->
  clock w' = c
  /\ match r with
     | Ok _ => db w' = stmt c d
     | Err _ => db w' = d
     end.
Proof.
  intros H. unfold_client. split_faults; inv_pair H; auto.
Qed.

(** [safeQuery] applies its statement once, or not at all. *)
Lemma safeQuery_inv (stmt : Z -> Db -> Db) w r w' :
  safeQuery stmt w = (r, w') ->
  match r with
  | Ok _ => exists now, clock w <= now /\ db w' = stmt now (db w)
  | Err _ => db w' = db w
  end.
Proof.
  intros H. unfold safeQuery, withRetry in H.
  pose proof (withRetry_loop_inv
                (getClient;; finally (client_query stmt) client_release)
                (fun x => db x = db w /\ clock w <= clock x)
                (fun _ x => exists now, clock w <= now /\ db x = stmt now (db w)))
    as L.
  assert (forall x r0 x',
             db x = db w /\ clock w <= clock x ->
             (getClient;; finally (client_query stmt) client_release) x = (r0, x') ->
             match r0 with
             | Ok _ => exists now, clock w <= now /\ db x' = stmt now (db w)
             | Err _ => db x' = db w /\ clock w <= clock x'
             end) as Hop.
  { intros x r0 x' [Hd Hc] Hx. rewrite bind_run in Hx.
    destruct (getClient x) as [[[]|e] x1] eqn:E;
      apply getClient_inv in E as (Hd1 & Hc1 & Ht1).
    - destruct x1 as [d1 t1 f1 c1 tr1]. cbn in Hd1, Hc1, Ht1. subst t1.
      apply query_release_inv in Hx as [Hc2 Hr].
      destruct r0.
      + exists c1. split; [lia|congruence].
      + split; [congruence|lia].
    - inv_pair Hx. split; [congruence|lia]. }
  specialize (L Hop).
  specialize (L ltac:(intros x e [? ?]; cbn; auto)).
  specialize (L ltac:(intros x e ? [? ?]; cbn; split; auto; lia)).
  specialize (L _ _ _ _ _ _ _ _ (conj eq_refl (Z.le_refl _)) H).
  destruct r; tauto.
Qed.

(** [failJob] never throws; it marks the rows of the job [failed], or, when
    the write cannot be made, changes nothing. *)
Lemma failJob_inv jobId message w r w' :
  failJob jobId message w = (r, w') ->
  r = Ok tt
  /\ (db w' = db w
      \/ exists now, db w' = fail_update jobId (truncate_error message) now (db w)).
Proof.
  unfold failJob. cbn zeta. unfold try_catch.
  destruct (safeQuery _ w) as [[[]|e] w1] eqn:E; intros H;
    apply safeQuery_inv in E.
  - inv_pair H. split; [reflexivity|]. right.
    destruct E as (now & _ & Hdb). eauto.
  - unfold emit in H. inv_pair H. cbn. auto.
Qed.

(** ** Render *)

Lemma onProgress_inv jobId now progress st w r w' :
  onProgress jobId now progress st w = (r, w') ->
  (exists st', r = Ok st') /\ users (db w') = users (db w).
Proof.
  unfold onProgress. cbn zeta.
  destruct (should_write now (round2 progress) st).
  - rewrite bind_run. unfold try_catch.
    destruct (safeQuery _ w) as [[[]|e] w1] eqn:E; intros H;
      apply safeQuery_inv in E.
    + inv_pair H. split; [eauto|]. destruct E as (t & _ & ->). reflexivity.
    + unfold emit in H. cbn in H. inv_pair H. cbn. split; [eauto|congruence].
  - intros H. inv_pair H. eauto.
Qed.

Lemma run_progress_inv jobId events st w r w' :
  run_progress jobId events st w = (r, w') ->
  (exists st', r = Ok st') /\ users (db w') = users (db w).
Proof.
  revert st w. induction events as [|[now progress] events IH]; intros st w H.
  - inv_pair H. eauto.
  - cbn [run_progress] in H. rewrite bind_run in H.
    destruct (onProgress jobId now progress st w) as [r1 w1] eqn:E.
    apply onProgress_inv in E as [[st1 ->] Hu].
    apply IH in H as [Hr Hu']. split; [exact Hr|congruence].
Qed.

(** The outcome of [renderJob] is that of the collaborators: no failure of a
    progress write reaches it. *)
Lemma renderJob_inv job env w r w' :
  renderJob job env w = (r, w') ->
  users (db w') = users (db w)
  /\ r = match composition env with
         | Err e => Err e
         | Ok _ => match render_outcome env with
                   | Err e => Err e
                   | Ok _ => Ok (TEMP_DIR +:+ "/" +:+ id job +:+ ".mp4")
                   end
         end.
Proof.
  unfold renderJob, renderMedia, lift_result. cbn zeta. intros H.
  rewrite bind_run in H.
  destruct (composition env) as [[]|e]; [|inv_pair H; auto].
  rewrite !bind_run in H.
  destruct (run_progress (id job) (progress_events env) throttle_start w)
    as [r1 w1] eqn:E.
  apply run_progress_inv in E as [[st1 ->] Hu].
  destruct (render_outcome env) as [[]|e]; inv_pair H; auto.
Qed.

(** ** Process job *)

Lemma failure_handler_inv ev jobId err w r w' :
  (emit ev;; failJob jobId err) w = (r, w') ->
  r = Ok tt /\ users (db w') = users (db w).
Proof.
  rewrite bind_run. unfold emit at 1. intros H.
  apply failJob_inv in H as [-> [Hdb|[now Hdb]]]; split; auto;
    rewrite Hdb; reflexivity.
Qed.

Lemma cleanup_inv (outputFile : string) env w r w' :
  (if bool_decide (outputFile = "") then ret tt else cleanupFile outputFile env) w
  = (r, w') ->
  r = Ok tt /\ db w' = db w.
Proof.
  unfold cleanupFile. destruct (bool_decide (outputFile = "")).
  - intros H. inv_pair H. auto.
  - destruct (unlink env) as [[]|m]; unfold emit; intros H; inv_pair H; auto.
Qed.

(** [processJob] never throws. Either the users table is as before, or every
    collaborator succeeded and [completeJob] committed its two writes. *)
Lemma processJob_inv job env w r w' :
  processJob job env w = (r, w') ->
  r = Ok tt
  /\ (users (db w') = users (db w)
      \/ (composition env = Ok tt /\ render_outcome env = Ok tt
          /\ upload env = Ok tt
          /\ exists info d1 url now,
               input_props job = Some info
               /\ users d1 = users (db w)
               /\ db w' = debit_update (user_id job) (creditsToDeduct info) now
                            (complete_update (id job) url now d1))).
Proof.
  unfold processJob. rewrite bind_run. unfold emit at 1.
  set (w0 := mkWorld (db w) _ _ _ _).
  change (users (db w)) with (users (db w0)). clearbody w0.
  rewrite bind_run. unfold attempt.
  destruct (renderJob job env w0) as [r1 w1] eqn:E1.
  apply renderJob_inv in E1 as [Hu1 Hr1]. cbn zeta.
  unfold finally.
  set (cleanup := if bool_decide _ then _ else _).
  match goal with
  | |- context [try_catch ?b ?h w1] =>
      destruct (try_catch b h w1) as [r2 w2] eqn:E2
  end.
  destruct (cleanup w2) as [r3 w3] eqn:E3. intros H. subst cleanup.
  apply cleanup_inv in E3 as [-> Hd3]. inv_pair H.
  rewrite Hd3. clear Hd3.
  unfold try_catch in E2.
  rewrite bind_run in E2. unfold lift_result at 1 in E2.
  destruct (composition env) as [[]|ec];
    [|apply failure_handler_inv in E2 as [-> Hu]; split; [reflexivity|];
      left; congruence].
  destruct (render_outcome env) as [[]|er];
    [|apply failure_handler_inv in E2 as [-> Hu]; split; [reflexivity|];
      left; congruence].
  rewrite bind_run in E2. unfold emit at 1 in E2.
  set (w1' := mkWorld (db w1) _ _ _ _) in E2.
  assert (users (db w1') = users (db w0)) as Hu1' by exact Hu1.
  clearbody w1'. clear Hu1.
  unfold uploadToStorage, lift_result in E2. rewrite !bind_run in E2.
  destruct (upload env) as [[]|eu];
    [|apply failure_handler_inv in E2 as [-> Hu]; split; [reflexivity|];
      left; congruence].
  rewrite ret_run in E2.
  destruct (input_props job) as [info|] eqn:Hinfo.
  - rewrite bind_run in E2.
    destruct (completeJob _ _ _ _ w1') as [[[]|ecj] w4] eqn:E4;
      apply completeJob_inv in E4.
    + unfold emit in E2. inv_pair E2. cbn [db]. split; [reflexivity|]. right.
      destruct E4 as (now & _ & Hdb).
      repeat split.
      exists info, (db w1'), ("renders/" +:+ id job +:+ ".mp4"), now. auto.
    + apply failure_handler_inv in E2 as [-> Hu]. split; [reflexivity|].
      left. congruence.
  - unfold throw in E2.
    apply failure_handler_inv in E2 as [-> Hu]. split; [reflexivity|].
    left. congruence.
Qed.

Lemma complete_update_status jobId url now amount userId d r :
  r ∈ render_jobs (debit_update userId amount now (complete_update jobId url now d)) ->
  id r = jobId -> status r = completed.
Proof.
  cbn [debit_update complete_update set_render_jobs render_jobs].
  intros Hr Hid. apply list_elem_of_fmap in Hr as (r0 & -> & _).
  destruct (decide (id r0 = jobId)) as [_|Hne]; [reflexivity|].
  destruct (Hne Hid).
Qed.

(** C5. A failed job costs nothing. [processJob] never throws. If afterwards
    a row of the job has status [failed], and likewise whenever the render,
    the upload or the reading of the job's duration failed, the users table is
    what it was before the job: no balance has changed. The failure path
    writes through [failJob] only, which leaves the store alone or sets
    status and error of the job's rows and nothing else. *)
Theorem failed_job_is_not_charged :
  forall (job : Job) (env : JobEnv) (w : World),
    let out := processJob job env w in
    out.1 = Ok tt
    /\ ((exists r, r ∈ render_jobs (db out.2) /\ id r = id job
                   /\ status r = failed) ->
        users (db out.2) = users (db w)
        /\ forall userId, balance userId (db out.2) = balance userId (db w))
    /\ ((exists e, composition env = Err e \/ render_outcome env = Err e
                   \/ upload env = Err e)
        \/ input_props job = None ->
        users (db out.2) = users (db w))
    /\ (forall (message : string) (w0 : World),
          let out0 := failJob (id job) message w0 in
          out0.1 = Ok tt
          /\ users (db out0.2) = users (db w0)
          /\ (render_jobs (db out0.2) = render_jobs (db w0)
              \/ render_jobs (db out0.2)
                 = map (fun r => if decide (id r = id job)
                                 then fail_row (truncate_error message) r else r)
                       (render_jobs (db w0))))
    /\ (forall (message : string) (r : Job),
          let r' := fail_row message r in
          status r' = failed /\ error r' = Some message
          /\ id r' = id r /\ input_props r' = input_props r
          /\ user_id r' = user_id r /\ progress r' = progress r
          /\ output_url r' = output_url r /\ created_at r' = created_at r
          /\ started_at r' = started_at r /\ completed_at r' = completed_at r).
Proof.
  intros job env w out. subst out.
  destruct (processJob job env w) as [r w'] eqn:E. cbn [fst snd].
  apply processJob_inv in E as [-> Hcases].
  split; [reflexivity|]. split; [|split; [|split]].
  - intros (r & Hr & Hid & Hst).
    assert (users (db w') = users (db w)) as Hu.
    { destruct Hcases as [Hu|(_ & _ & _ & info & d1 & url & now & _ & _ & Hdb)];
        [exact Hu|].
      rewrite Hdb in Hr.
      pose proof (complete_update_status _ _ _ _ _ _ _ Hr Hid) as Hc.
      congruence. }
    split; [exact Hu|].
    intros userId. unfold balance, select_user. rewrite Hu. reflexivity.
  - intros Hfail.
    destruct Hcases as [Hu|(Hc & Hro & Hup & info & d1 & url & now & Hi & _)];
      [exact Hu|].
    destruct Hfail as [[e [H|[H|H]]]|H]; congruence.
  - intros message w0.
    destruct (failJob (id job) message w0) as [r0 w0'] eqn:E0. cbn [fst snd].
    apply failJob_inv in E0 as [-> [Hdb|[now Hdb]]]; rewrite Hdb; auto.
  - intros message r0. cbn. repeat split.
Qed.

(** The upload fails after a successful render: the job ends [failed], the
    balance of 3 is untouched. *)
Lemma failed_job_is_not_charged_witness :
  let job := mkJob "a" rendering (Some (mkVideoInfo 1800 30)) 1 0 None None 20
                   (Some 21) None in
  let env := mkJobEnv (Ok tt) [(1000000, (1 # 2)%Q)] (Ok tt) (Err "upload refused")
                      (Ok tt) in
  let w := mkWorld (mkDb [job] [mkUser 1 3 0]) None [] 100 [] in
  ((exists e, composition env = Err e \/ render_outcome env = Err e
              \/ upload env = Err e)
   \/ input_props job = None)
  /\ users (db (processJob job env w).2) = [mkUser 1 3 0].
Proof.
  intros job env w.
  assert ((exists e, composition env = Err e \/ render_outcome env = Err e
                     \/ upload env = Err e)
          \/ input_props job = None) as H.
  { left. exists "upload refused". right. right. reflexivity. }
  split; [exact H|].
  exact (proj1 (proj2 (proj2 (failed_job_is_not_charged job env w))) H).
Defined.

(** ** Progress throttle *)

Lemma safeQuery_ff (stmt : Z -> Db -> Db) d t f c tr :
  no_faults f ->
  safeQuery stmt (mkWorld d t f c tr)
  = (Ok tt, mkWorld (stmt c d) None (drop 2 f) c tr).
Proof.
  intros Hff. unfold safeQuery, withRetry, DB_RETRY_ATTEMPTS.
  cbn [withRetry_loop]. unfold try_catch at 1.
  rewrite bind_run, getClient_ff by exact Hff.
  unfold_client. skip_faults Hff. reflexivity.
Qed.

Lemma should_write_iff now value st :
  should_write now value st = true
  <-> PROGRESS_UPDATE_INTERVAL_MS < now - lastProgressUpdate st
      /\ ~ (value == lastProgressValue st)%Q.
Proof.
  unfold should_write. rewrite andb_true_iff, Z.ltb_lt, negb_true_iff.
  rewrite <- Qeq_bool_iff. split; intros [H1 H2]; split; auto.
  - rewrite H2. discriminate.
  - destruct (Qeq_bool value (lastProgressValue st)); [destruct H2|]; reflexivity.
Qed.

(** Consecutive issued writes, and the first one against the start values. *)
Lemma issued_writes_spaced events st :
  match issued_writes events st with
  | [] => True
  | (t1, v1) :: _ =>
      PROGRESS_UPDATE_INTERVAL_MS < t1 - lastProgressUpdate st
      /\ ~ (v1 == lastProgressValue st)%Q
  end
  /\ forall i t1 v1 t2 v2,
       issued_writes events st !! i = Some (t1, v1) ->
       issued_writes events st !! S i = Some (t2, v2) ->
       PROGRESS_UPDATE_INTERVAL_MS < t2 - t1 /\ ~ (v2 == v1)%Q.
Proof.
  revert st. induction events as [|[now progress] events IH]; intros st.
  - cbn. split; [exact I|]. intros i t1 v1 t2 v2 H. discriminate H.
  - cbn [issued_writes].
    destruct (should_write now (round2 progress) st) eqn:Hsw.
    + apply should_write_iff in Hsw. split; [exact Hsw|].
      destruct (IH (mkThrottle now (round2 progress))) as [Hhead Hrest].
      intros [|i] t1 v1 t2 v2 H1 H2.
      * cbn in H1. injection H1 as <- <-. cbn in H2.
        destruct (issued_writes events _) as [|[t v] ws]; [discriminate|].
        cbn in H2. injection H2 as <- <-. exact Hhead.
      * cbn in H1, H2. exact (Hrest i t1 v1 t2 v2 H1 H2).
    + exact (IH st).
Qed.

Lemma throttle_after_cons now progress events st :
  throttle_after ((now, progress) :: events) st
  = throttle_after events
      (if should_write now (round2 progress) st
       then mkThrottle now (round2 progress) else st).
Proof.
  unfold throttle_after. cbn [issued_writes].
  destruct (should_write now (round2 progress) st); [|reflexivity].
  rewrite last_cons.
  destruct (last (issued_writes events _)) as [[t v]|]; reflexivity.
Qed.

(** With no failing round trip the callbacks leave exactly the issued writes
    in the store, and the throttle holds the last of them. *)
Lemma run_progress_ff jobId events st d t f c tr :
  no_faults f ->
  exists t' n,
    run_progress jobId events st (mkWorld d t f c tr)
    = (Ok (throttle_after events st),
       mkWorld (apply_writes jobId c (issued_writes events st) d) t'
               (drop n f) c tr).
Proof.
  intros Hff. revert st d t f Hff.
  induction events as [|[now progress] events IH]; intros st d t f Hff.
  - exists t, 0%nat. cbn. rewrite drop_0. reflexivity.
  - cbn [run_progress]. rewrite bind_run, throttle_after_cons.
    unfold onProgress. cbn zeta. cbn [issued_writes].
    destruct (should_write now (round2 progress) st).
    + rewrite bind_run. unfold try_catch.
      rewrite safeQuery_ff by exact Hff. rewrite ret_run.
      destruct (IH (mkThrottle now (round2 progress))
                   (progress_update jobId (round2 progress) c d) None
                   (drop 2 f) (no_faults_drop _ _ Hff)) as (t' & n & ->).
      exists t', (2 + n)%nat. rewrite drop_drop. reflexivity.
    + rewrite ret_run. exact (IH st d t f Hff).
Qed.

(** C7. Progress writes are throttled and harmless. A callback issues a write
    exactly when more than [PROGRESS_UPDATE_INTERVAL_MS] (5000 ms, so at least
    that long) has passed since the last issued write and the progress
    rounded to two decimals differs from the value last written; otherwise it
    does nothing at all. So any two consecutive issued writes are more than
    5000 ms apart and carry different values, and with no failing round trip
    the store receives exactly these writes. The callback never throws: a
    write that fails is logged, and the outcome of [renderJob] is that of the
    renderer whatever happens to the writes. *)
Theorem progress_writes_throttled :
  (forall (jobId : string) (now : Z) (progress : Q) (st : Throttle) (w : World),
      let value := round2 progress in
      let out := onProgress jobId now progress st w in
      (exists st', out.1 = Ok st')
      /\ (should_write now value st = true
          <-> PROGRESS_UPDATE_INTERVAL_MS < now - lastProgressUpdate st
              /\ ~ (value == lastProgressValue st)%Q)
      /\ (should_write now value st = false -> out = (Ok st, w))
      /\ (should_write now value st = true ->
          out.1 = Ok (mkThrottle now value)
          /\ match safeQuery (progress_update jobId value) w with
             | (Ok _, w1) => out.2 = w1
             | (Err e, w1) =>
                 out.2 = (emit (EvError ("Failed to update progress for job "
                                         +:+ jobId +:+ ": " +:+ e)) w1).2
             end))
  /\ (forall (events : list (Z * Q)) (i : nat) (t1 t2 : Z) (v1 v2 : Q),
         issued_writes events throttle_start !! i = Some (t1, v1) ->
         issued_writes events throttle_start !! S i = Some (t2, v2) ->
         PROGRESS_UPDATE_INTERVAL_MS < t2 - t1 /\ ~ (v2 == v1)%Q)
  /\ (forall (jobId : string) (events : list (Z * Q)) (w : World),
         fault_free w ->
         let out := run_progress jobId events throttle_start w in
         out.1 = Ok (throttle_after events throttle_start)
         /\ db out.2 = apply_writes jobId (clock w)
                         (issued_writes events throttle_start) (db w))
  /\ (forall (job : Job) (env : JobEnv) (w : World),
         (renderJob job env w).1
         = match composition env with
           | Err e => Err e
           | Ok _ => match render_outcome env with
                     | Err e => Err e
                     | Ok _ => Ok (TEMP_DIR +:+ "/" +:+ id job +:+ ".mp4")
                     end
           end)
  /\ PROGRESS_UPDATE_INTERVAL_MS = 5000.
Proof.
  split; [|split; [|split; [|split]]].
  - intros jobId now progress st w value out. subst out value.
    split; [|split; [|split]].
    + destruct (onProgress jobId now progress st w) as [r w'] eqn:E.
      apply onProgress_inv in E as [H _]. exact H.
    + apply should_write_iff.
    + intros Hsw. unfold onProgress. cbn zeta. rewrite Hsw. reflexivity.
    + intros Hsw. unfold onProgress. cbn zeta. rewrite Hsw.
      rewrite bind_run. unfold try_catch.
      destruct (safeQuery _ w) as [[[]|e] w1]; cbn; auto.
  - intros events i t1 t2 v1 v2 H1 H2.
    exact (proj2 (issued_writes_spaced events throttle_start) i t1 v1 t2 v2 H1 H2).
  - intros jobId events [d t f c tr] Hff. cbn zeta.
    destruct (run_progress_ff jobId events throttle_start d t f c tr Hff)
      as (t' & n & ->).
    split; reflexivity.
  - intros job env w.
    destruct (renderJob job env w) as [r w'] eqn:E.
    apply renderJob_inv in E as [_ ->]. reflexivity.
  - reflexivity.
Qed.

(** Four callbacks: the second comes too early and the fourth rounds to the
    value already written, so two writes are issued. *)
Lemma progress_writes_throttled_witness :
  fault_free (mkWorld (mkDb [] []) None [] 0 [])
  /\ issued_writes [(1000000, (1 # 10)%Q); (1000001, (2 # 10)%Q);
                    (1006000, (1 # 2)%Q); (1012000, (501 # 1000)%Q)]
                   throttle_start !! 0%nat = Some (1000000, (10 # 100)%Q)
  /\ issued_writes [(1000000, (1 # 10)%Q); (1000001, (2 # 10)%Q);
                    (1006000, (1 # 2)%Q); (1012000, (501 # 1000)%Q)]
                   throttle_start !! 1%nat = Some (1006000, (50 # 100)%Q)
  /\ PROGRESS_UPDATE_INTERVAL_MS < 1006000 - 1000000
  /\ (run_progress "a" [(1000000, (1 # 10)%Q); (1000001, (2 # 10)%Q);
                        (1006000, (1 # 2)%Q); (1012000, (501 # 1000)%Q)]
                   throttle_start (mkWorld (mkDb [] []) None [] 0 [])).1
     = Ok (mkThrottle 1006000 (50 # 100)%Q).
Proof.
  assert (fault_free (mkWorld (mkDb [] []) None [] 0 [])) as Hff
    by exact no_faults_nil.
  assert (issued_writes [(1000000, (1 # 10)%Q); (1000001, (2 # 10)%Q);
                         (1006000, (1 # 2)%Q); (1012000, (501 # 1000)%Q)]
                        throttle_start !! 0%nat = Some (1000000, (10 # 100)%Q))
    as H0 by reflexivity.
  assert (issued_writes [(1000000, (1 # 10)%Q); (1000001, (2 # 10)%Q);
                         (1006000, (1 # 2)%Q); (1012000, (501 # 1000)%Q)]
                        throttle_start !! 1%nat = Some (1006000, (50 # 100)%Q))
    as H1 by reflexivity.
  split; [exact Hff|]. split; [exact H0|]. split; [exact H1|].
  split.
  - exact (proj1 (proj1 (proj2 progress_writes_throttled) _ _ _ _ _ _ H0 H1)).
  - exact (proj1 (proj1 (proj2 (proj2 progress_writes_throttled)) "a" _ _ Hff)).
Defined.

(** ** Concurrent claims *)

Lemma filter_insert_count {A} (P : A -> bool) (l : list A) (i : nat) (x y : A) :
  l !! i = Some x ->
  (length (filter (fun a => P a = true) (<[i := y]> l)) + (if P x then 1 else 0)
   = length (filter (fun a => P a = true) l) + (if P y then 1 else 0))%nat.
Proof.
  revert i. induction l as [|a l IH]; intros i Hi; [discriminate Hi|].
  destruct i as [|i].
  - cbn in Hi. injection Hi as ->. cbn [insert list_insert].
    rewrite !filter_cons.
    destruct (P x) eqn:Hx, (P y) eqn:Hy;
      repeat case_decide; try congruence; cbn [length]; lia.
  - cbn in Hi. specialize (IH i Hi).
    change (<[S i := y]> (a :: l)) with (a :: <[i := y]> l).
    rewrite !filter_cons.
    destruct (decide (P a = true)), (P x), (P y); cbn [length] in *; lia.
Qed.

Lemma claims_set_pc c pc pc' s :
  pcs s !! c = Some pc ->
  (claims (set_pc c pc' s) + (if is_claim pc then 1 else 0)
   = claims s + (if is_claim pc' then 1 else 0))%nat.
Proof. intros H. unfold claims, set_pc. cbn [pcs]. apply filter_insert_count, H. Qed.

Lemma queued_count_claim (rows : list Job) (us : list User) (j : Job) (now : Z) :
  NoDup (id <$> rows) -> j ∈ rows -> status j = queued ->
  (queued_count (claim_update (id j) now (mkDb rows us)) + 1
   = queued_count (mkDb rows us))%nat.
Proof.
  unfold queued_count, claim_update, set_render_jobs. cbn [render_jobs users].
  induction rows as [|r rows IH]; intros Hnd Hj Hq; [inversion Hj|].
  rewrite fmap_cons in Hnd. apply NoDup_cons in Hnd as [Hr Hnd].
  cbn [map].
  apply elem_of_cons in Hj as [<-|Hj].
  - destruct (decide (id j = id j)) as [_|Hne]; [|congruence].
    rewrite !filter_cons.
    destruct (decide (is_queued (claim_row now j))) as [Hc|_]; [discriminate Hc|].
    destruct (decide (is_queued j)) as [_|Hn]; [|destruct (Hn Hq)].
    cbn [length].
    assert (map (fun r => if decide (id r = id j) then claim_row now r else r) rows
            = rows) as ->; [|lia].
    rewrite <- (map_id rows) at 2. apply map_ext_in. intros r Hr'.
    rewrite decide_False; [reflexivity|]. intros Heq. apply Hr. rewrite <- Heq.
    apply list_elem_of_fmap_2. apply list_elem_of_In. exact Hr'.
  - specialize (IH Hnd Hj Hq).
    assert (id r <> id j) as Hne.
    { intros Heq. apply Hr. rewrite Heq. apply list_elem_of_fmap_2. exact Hj. }
    destruct (decide (id r = id j)) as [Heq|_]; [destruct (Hne Heq)|].
    rewrite !filter_cons.
    destruct (decide (is_queued r)); cbn [length]; lia.
Qed.

Lemma claim_update_ids jobId now d :
  id <$> render_jobs (claim_update jobId now d) = id <$> render_jobs d.
Proof.
  unfold claim_update, set_render_jobs. cbn [render_jobs].
  induction (render_jobs d) as [|r rows IH]; [reflexivity|].
  cbn [map]. rewrite !fmap_cons, IH.
  destruct (decide (id r = jobId)); reflexivity.
Qed.

(** A row with another id survives a claim as it is. *)
Lemma claim_update_other jobId now d r :
  r ∈ render_jobs d -> id r <> jobId -> r ∈ render_jobs (claim_update jobId now d).
Proof.
  intros Hr Hne. unfold claim_update, set_render_jobs. cbn [render_jobs].
  apply list_elem_of_In, in_map_iff. exists r.
  rewrite decide_False by exact Hne. split; [reflexivity|].
  apply list_elem_of_In. exact Hr.
Qed.

(** Every row after a claim comes from a row before it. *)
Lemma claim_update_inv jobId now d r' :
  r' ∈ render_jobs (claim_update jobId now d) ->
  exists r, r ∈ render_jobs d /\ id r' = id r
            /\ (r' = r /\ id r <> jobId
                \/ r' = claim_row now r /\ id r = jobId).
Proof.
  unfold claim_update, set_render_jobs. cbn [render_jobs].
  intros H. apply list_elem_of_In, in_map_iff in H as (r & Hr' & Hr).
  exists r. apply list_elem_of_In in Hr. split; [exact Hr|].
  destruct (decide (id r = jobId)) as [Heq|Hne]; subst r'; cbn; auto.
Qed.

Lemma unique_row (rows : list Job) (r1 r2 : Job) :
  NoDup (id <$> rows) -> r1 ∈ rows -> r2 ∈ rows -> id r1 = id r2 -> r1 = r2.
Proof.
  induction rows as [|x rows IH]; intros Hnd H1 H2 Heq; [inversion H1|].
  rewrite fmap_cons in Hnd. apply NoDup_cons in Hnd as [Hx Hnd].
  apply elem_of_cons in H1 as [->|H1]; apply elem_of_cons in H2 as [->|H2].
  - reflexivity.
  - exfalso. apply Hx. rewrite Heq. apply list_elem_of_fmap_2. exact H2.
  - exfalso. apply Hx. rewrite <- Heq. apply list_elem_of_fmap_2. exact H1.
  - exact (IH Hnd H1 H2 Heq).
Qed.

Lemma lookup_set_pc_eq c pc pc' s :
  pcs s !! c = Some pc -> pcs (set_pc c pc' s) !! c = Some pc'.
Proof.
  intros H. unfold set_pc. cbn [pcs]. apply list_lookup_insert_eq.
  apply lookup_lt_Some in H. exact H.
Qed.

Lemma lookup_set_pc_ne c c0 pc' s :
  c0 <> c -> pcs (set_pc c pc' s) !! c0 = pcs s !! c0.
Proof.
  intros H. unfold set_pc. cbn [pcs]. apply list_lookup_insert_ne. congruence.
Qed.

Lemma lookup_set_pc c pc pc' s c0 pc0 :
  pcs s !! c = Some pc ->
  pcs (set_pc c pc' s) !! c0 = Some pc0 ->
  (c0 = c /\ pc0 = pc') \/ (c0 <> c /\ pcs s !! c0 = Some pc0).
Proof.
  intros H H0. destruct (decide (c0 = c)) as [->|Hne].
  - left. rewrite (lookup_set_pc_eq _ _ _ _ H) in H0. split; congruence.
  - right. rewrite lookup_set_pc_ne in H0 by exact Hne. auto.
Qed.

(** Moves that neither take nor release a row, and return no job. *)
Lemma cinv_neutral M N c pc pc' s :
  pcs s !! c = Some pc ->
  held_job pc' = held_job pc -> is_claim pc = false -> is_claim pc' = false ->
  cinv M N s -> cinv M N (set_pc c pc' s).
Proof.
  intros Hc Hheld Hcl Hcl' [Hlen Hnd Hlocks Hhold Hret Hdist Hcount].
  split.
  - unfold set_pc. cbn [pcs]. rewrite length_insert. exact Hlen.
  - exact Hnd.
  - intros i c0. cbn [set_pc locks]. rewrite Hlocks. split.
    + intros (pc0 & j & Hpc0 & Hj & Hi).
      destruct (decide (c0 = c)) as [->|Hne].
      * exists pc', j. rewrite (lookup_set_pc_eq _ _ _ _ Hc).
        split; [reflexivity|]. split; [|exact Hi]. congruence.
      * exists pc0, j. rewrite lookup_set_pc_ne by exact Hne. auto.
    + intros (pc0 & j & Hpc0 & Hj & Hi).
      apply (lookup_set_pc _ _ _ _ _ _ Hc) in Hpc0 as [[-> ->]|[Hne Hpc0]].
      * exists pc, j. split; [exact Hc|]. split; [congruence|exact Hi].
      * exists pc0, j. auto.
  - intros c0 pc0 j Hpc0 Hj. cbn [set_pc cdb].
    apply (lookup_set_pc _ _ _ _ _ _ Hc) in Hpc0 as [[-> ->]|[Hne Hpc0]].
    + apply (Hhold c pc j Hc). congruence.
    + exact (Hhold c0 pc0 j Hpc0 Hj).
  - intros c0 j Hpc0. cbn [set_pc cdb].
    apply (lookup_set_pc _ _ _ _ _ _ Hc) in Hpc0 as [[-> <-]|[Hne Hpc0]].
    + discriminate Hcl'.
    + exact (Hret c0 j Hpc0).
  - intros c1 c2 j1 j2 Hne H1 H2.
    apply (lookup_set_pc _ _ _ _ _ _ Hc) in H1 as [[-> <-]|[Hne1 H1]];
      [discriminate Hcl'|].
    apply (lookup_set_pc _ _ _ _ _ _ Hc) in H2 as [[-> <-]|[Hne2 H2]];
      [discriminate Hcl'|].
    exact (Hdist c1 c2 j1 j2 Hne H1 H2).
  - pose proof (claims_set_pc c pc pc' s Hc) as H.
    rewrite Hcl, Hcl' in H. cbn [set_pc cdb] in *.
    change (cdb (set_pc c pc' s)) with (cdb s). lia.
Qed.

(** A caller that holds no row has no lock. *)
Lemma no_lock_without_row M N s c pc i :
  cinv M N s -> pcs s !! c = Some pc -> held_job pc = None ->
  locks s !! i <> Some c.
Proof.
  intros Hinv Hc Hheld Hl.
  apply (inv_locks _ _ _ Hinv) in Hl as (pc0 & j & Hpc0 & Hj & _). congruence.
Qed.

(** The [SELECT] returns a row: the caller locks it. *)
Lemma cinv_select M N c j rest s :
  pcs s !! c = Some AtSelect ->
  select_next_queued (locked_by_other s c) (cdb s) = j :: rest ->
  cinv M N s ->
  cinv M N (set_pc c (AtUpdate j)
              (mkCState (cdb s) (<[id j := c]> (locks s)) (pcs s))).
Proof.
  intros Hc Hsel Hinv.
  apply select_next_queued_cons in Hsel as (_ & Hj & Hcl & _).
  unfold claimable in Hcl. apply andb_true_iff in Hcl as [Hq Hfree].
  apply bool_decide_eq_true in Hq. apply negb_true_iff in Hfree.
  assert (locks s !! id j = None) as Hnone.
  { unfold locked_by_other in Hfree.
    destruct (locks s !! id j) as [c'|] eqn:Hl; [|reflexivity].
    apply negb_false_iff, Nat.eqb_eq in Hfree. subst c'.
    destruct (no_lock_without_row _ _ _ _ _ _ Hinv Hc eq_refl Hl). }
  destruct Hinv as [Hlen Hnd Hlocks Hhold Hret Hdist Hcount].
  set (s1 := mkCState (cdb s) (<[id j := c]> (locks s)) (pcs s)).
  assert (pcs s1 !! c = Some AtSelect) as Hc1 by exact Hc.
  split.
  - unfold set_pc. cbn [pcs]. rewrite length_insert. exact Hlen.
  - exact Hnd.
  - intros i c0. cbn [set_pc locks s1]. split.
    + intros Hl. destruct (decide (i = id j)) as [->|Hne].
      * rewrite lookup_insert_eq in Hl. injection Hl as <-.
        exists (AtUpdate j), j. rewrite (lookup_set_pc_eq _ _ _ _ Hc1). auto.
      * rewrite lookup_insert_ne in Hl by congruence.
        apply Hlocks in Hl as (pc0 & j0 & Hpc0 & Hj0 & Hi).
        exists pc0, j0. rewrite lookup_set_pc_ne; [auto|].
        intros ->. rewrite Hc in Hpc0. injection Hpc0 as <-. discriminate Hj0.
    + intros (pc0 & j0 & Hpc0 & Hj0 & Hi).
      apply (lookup_set_pc _ _ _ _ _ _ Hc1) in Hpc0 as [[-> ->]|[Hne Hpc0]].
      * cbn in Hj0. injection Hj0 as <-. subst i. apply lookup_insert_eq.
      * assert (locks s !! i = Some c0) as Hl by (apply Hlocks; eauto).
        rewrite lookup_insert_ne; [exact Hl|]. intros Heq. congruence.
  - intros c0 pc0 j0 Hpc0 Hj0. cbn [set_pc cdb s1].
    apply (lookup_set_pc _ _ _ _ _ _ Hc1) in Hpc0 as [[-> ->]|[Hne Hpc0]].
    + cbn in Hj0. injection Hj0 as <-. auto.
    + exact (Hhold c0 pc0 j0 Hpc0 Hj0).
  - intros c0 j0 Hpc0. cbn [set_pc cdb s1].
    apply (lookup_set_pc _ _ _ _ _ _ Hc1) in Hpc0 as [[-> Heq]|[Hne Hpc0]];
      [discriminate Heq|].
    exact (Hret c0 j0 Hpc0).
  - intros c1 c2 j1 j2 Hne H1 H2.
    apply (lookup_set_pc _ _ _ _ _ _ Hc1) in H1 as [[-> Heq]|[Hne1 H1]];
      [discriminate Heq|].
    apply (lookup_set_pc _ _ _ _ _ _ Hc1) in H2 as [[-> Heq]|[Hne2 H2]];
      [discriminate Heq|].
    exact (Hdist c1 c2 j1 j2 Hne H1 H2).
  - pose proof (claims_set_pc c AtSelect (AtUpdate j) s1 Hc1) as H.
    cbn [is_claim] in H. change (claims s1) with (claims s) in H.
    change (cdb (set_pc c (AtUpdate j) s1)) with (cdb s). lia.
Qed.

(** The transaction of a caller that holds row [j] ends without commit. *)
Lemma cinv_release M N c pc pc' j s :
  pcs s !! c = Some pc -> held_job pc = Some j ->
  held_job pc' = None -> is_claim pc = false -> is_claim pc' = false ->
  cinv M N s ->
  cinv M N (set_pc c pc' (unlock (Some j) s)).
Proof.
  intros Hc Hheld Hheld' Hcl Hcl' Hinv.
  assert (locks s !! id j = Some c) as Hlj
    by (apply (inv_locks _ _ _ Hinv); eauto).
  destruct Hinv as [Hlen Hnd Hlocks Hhold Hret Hdist Hcount].
  set (s1 := unlock (Some j) s).
  assert (pcs s1 !! c = Some pc) as Hc1 by exact Hc.
  split.
  - unfold set_pc. cbn [pcs]. rewrite length_insert. exact Hlen.
  - exact Hnd.
  - intros i c0. cbn [set_pc locks s1 unlock]. split.
    + intros Hl. apply lookup_delete_Some in Hl as [Hne Hl].
      apply Hlocks in Hl as (pc0 & j0 & Hpc0 & Hj0 & Hi).
      exists pc0, j0. rewrite lookup_set_pc_ne; [auto|].
      intros ->. rewrite Hc in Hpc0. injection Hpc0 as <-. congruence.
    + intros (pc0 & j0 & Hpc0 & Hj0 & Hi).
      apply (lookup_set_pc _ _ _ _ _ _ Hc1) in Hpc0 as [[-> ->]|[Hne Hpc0]];
        [congruence|].
      assert (locks s !! i = Some c0) as Hl by (apply Hlocks; eauto).
      apply lookup_delete_Some. split; [|exact Hl]. intros Heq. congruence.
  - intros c0 pc0 j0 Hpc0 Hj0. cbn [set_pc cdb s1 unlock].
    apply (lookup_set_pc _ _ _ _ _ _ Hc1) in Hpc0 as [[-> ->]|[Hne Hpc0]];
      [congruence|].
    exact (Hhold c0 pc0 j0 Hpc0 Hj0).
  - intros c0 j0 Hpc0. cbn [set_pc cdb s1 unlock].
    apply (lookup_set_pc _ _ _ _ _ _ Hc1) in Hpc0 as [[-> <-]|[Hne Hpc0]];
      [discriminate Hcl'|].
    exact (Hret c0 j0 Hpc0).
  - intros c1 c2 j1 j2 Hne H1 H2.
    apply (lookup_set_pc _ _ _ _ _ _ Hc1) in H1 as [[-> <-]|[Hne1 H1]];
      [discriminate Hcl'|].
    apply (lookup_set_pc _ _ _ _ _ _ Hc1) in H2 as [[-> <-]|[Hne2 H2]];
      [discriminate Hcl'|].
    exact (Hdist c1 c2 j1 j2 Hne H1 H2).
  - pose proof (claims_set_pc c pc pc' s1 Hc1) as H.
    rewrite Hcl, Hcl' in H. change (claims s1) with (claims s) in H.
    change (cdb (set_pc c pc' s1)) with (cdb s). lia.
Qed.

Lemma claim_update_hit j now d :
  j ∈ render_jobs d -> claim_row now j ∈ render_jobs (claim_update (id j) now d).
Proof.
  intros Hj. unfold claim_update, set_render_jobs. cbn [render_jobs].
  apply list_elem_of_In, in_map_iff. exists j.
  rewrite decide_True by reflexivity. split; [reflexivity|].
  apply list_elem_of_In. exact Hj.
Qed.

(** The [COMMIT] of a caller that holds row [j]. *)
Lemma cinv_commit M N now c j s :
  pcs s !! c = Some (AtCommit j) ->
  cinv M N s ->
  cinv M N (set_pc c (Returned (Some j))
              (unlock (Some j)
                 (mkCState (claim_update (id j) now (cdb s)) (locks s) (pcs s)))).
Proof.
  intros Hc Hinv.
  assert (locks s !! id j = Some c) as Hlj
    by (apply (inv_locks _ _ _ Hinv); exists (AtCommit j), j; auto).
  destruct (inv_held _ _ _ Hinv c (AtCommit j) j Hc eq_refl) as [Hj Hq].
  destruct Hinv as [Hlen Hnd Hlocks Hhold Hret Hdist Hcount].
  set (s1 := unlock (Some j)
               (mkCState (claim_update (id j) now (cdb s)) (locks s) (pcs s))).
  assert (pcs s1 !! c = Some (AtCommit j)) as Hc1 by exact Hc.
  assert (forall c0 pc0 j0, c0 <> c -> pcs s !! c0 = Some pc0 ->
                            held_job pc0 = Some j0 -> id j0 <> id j) as Hother.
  { intros c0 pc0 j0 Hne Hpc0 Hj0 Heq.
    assert (locks s !! id j = Some c0) as Hl
      by (apply Hlocks; exists pc0, j0; auto).
    congruence. }
  assert (forall c0 j0, pcs s !! c0 = Some (Returned (Some j0)) -> id j0 <> id j)
    as Hdone.
  { intros c0 j0 Hpc0 Heq.
    destruct (Hret c0 j0 Hpc0) as (r & Hr & Hid & Hst).
    assert (r = j) as -> by (apply (unique_row _ _ _ Hnd Hr Hj); congruence).
    exact (Hst Hq). }
  split.
  - unfold set_pc. cbn [pcs]. rewrite length_insert. exact Hlen.
  - cbn [set_pc cdb s1 unlock]. rewrite claim_update_ids. exact Hnd.
  - intros i c0. cbn [set_pc locks s1 unlock]. split.
    + intros Hl. apply lookup_delete_Some in Hl as [Hne Hl].
      apply Hlocks in Hl as (pc0 & j0 & Hpc0 & Hj0 & Hi).
      exists pc0, j0. rewrite lookup_set_pc_ne; [auto|].
      intros ->. rewrite Hc in Hpc0. injection Hpc0 as <-.
      cbn in Hj0. congruence.
    + intros (pc0 & j0 & Hpc0 & Hj0 & Hi).
      apply (lookup_set_pc _ _ _ _ _ _ Hc1) in Hpc0 as [[-> ->]|[Hne Hpc0]];
        [discriminate Hj0|].
      assert (locks s !! i = Some c0) as Hl by (apply Hlocks; eauto).
      apply lookup_delete_Some. split; [|exact Hl]. intros Heq. congruence.
  - intros c0 pc0 j0 Hpc0 Hj0. cbn [set_pc cdb s1 unlock].
    apply (lookup_set_pc _ _ _ _ _ _ Hc1) in Hpc0 as [[-> ->]|[Hne Hpc0]];
      [discriminate Hj0|].
    destruct (Hhold c0 pc0 j0 Hpc0 Hj0) as [Hin Hst]. split; [|exact Hst].
    apply claim_update_other; [exact Hin|].
    exact (Hother c0 pc0 j0 Hne Hpc0 Hj0).
  - intros c0 j0 Hpc0. cbn [set_pc cdb s1 unlock].
    apply (lookup_set_pc _ _ _ _ _ _ Hc1) in Hpc0 as [[-> Heq]|[Hne Hpc0]].
    + injection Heq as ->. exists (claim_row now j).
      split; [apply claim_update_hit; exact Hj|]. split; [reflexivity|].
      discriminate.
    + destruct (Hret c0 j0 Hpc0) as (r & Hr & Hid & Hst).
      exists r. split; [|auto].
      apply claim_update_other; [exact Hr|].
      rewrite Hid. exact (Hdone c0 j0 Hpc0).
  - intros c1 c2 j1 j2 Hne H1 H2.
    apply (lookup_set_pc _ _ _ _ _ _ Hc1) in H1 as [[-> Heq1]|[Hne1 H1]];
      apply (lookup_set_pc _ _ _ _ _ _ Hc1) in H2 as [[-> Heq2]|[Hne2 H2]].
    + congruence.
    + injection Heq1 as ->. intros Heq. exact (Hdone c2 j2 H2 (eq_sym Heq)).
    + injection Heq2 as ->. exact (Hdone c1 j1 H1).
    + exact (Hdist c1 c2 j1 j2 Hne H1 H2).
  - pose proof (claims_set_pc c (AtCommit j) (Returned (Some j)) s1 Hc1) as H.
    cbn [is_claim] in H. change (claims s1) with (claims s) in H.
    change (cdb (set_pc c (Returned (Some j)) s1))
      with (claim_update (id j) now (cdb s)).
    destruct (cdb s) as [rows us] eqn:Hdb. cbn [render_jobs] in *.
    pose proof (queued_count_claim rows us j now Hnd Hj Hq). lia.
Qed.

(** Every statement of every caller keeps the invariant, failing or not. *)
Lemma cinv_step M N now c fault s :
  cinv M N s -> cinv M N (cstep now c fault s).
Proof.
  intros Hinv. unfold cstep.
  destruct (pcs s !! c) as [pc|] eqn:Hc; [|exact Hinv].
  destruct pc as [| | | |j|j| |held e|r|e].
  - destruct fault; eapply cinv_neutral; eauto.
  - destruct fault; eapply cinv_neutral; eauto.
  - destruct fault; eapply cinv_neutral; eauto.
  - destruct fault; [eapply cinv_neutral; eauto|].
    destruct (select_next_queued _ _) as [|j rest] eqn:Hsel.
    + eapply cinv_neutral; eauto.
    + eapply cinv_select; eauto.
  - destruct fault; eapply cinv_neutral; eauto.
  - destruct fault; [eapply cinv_neutral; eauto|].
    apply cinv_commit; assumption.
  - destruct fault; eapply cinv_neutral; eauto.
  - destruct held as [j|].
    + assert (cinv M N (set_pc c (Thrown e) (unlock (Some j) s))) as H
        by (eapply cinv_release; eauto).
      destruct fault; exact H.
    + assert (cinv M N (set_pc c (Thrown e) (unlock None s))) as H
        by (eapply cinv_neutral; eauto).
      destruct fault; exact H.
  - destruct fault; exact Hinv.
  - destruct fault; exact Hinv.
Qed.

Lemma cinv_run M N now sched s :
  cinv M N s -> cinv M N (crun now sched s).
Proof.
  revert s. induction sched as [|[c fault] sched IH]; intros s Hinv.
  - exact Hinv.
  - cbn [crun]. apply IH, cinv_step, Hinv.
Qed.

Lemma cinv_init N d :
  NoDup (id <$> render_jobs d) -> cinv (queued_count d) N (cinit N d).
Proof.
  intros Hnd. split; cbn [cinit pcs cdb locks].
  - apply length_replicate.
  - exact Hnd.
  - intros i c. split.
    + intros H. rewrite lookup_empty in H. discriminate H.
    + intros (pc & j & Hpc & Hj & _).
      apply lookup_replicate in Hpc as [-> _]. discriminate Hj.
  - intros c pc j Hpc Hj. apply lookup_replicate in Hpc as [-> _]. discriminate Hj.
  - intros c j Hpc. apply lookup_replicate in Hpc as [Heq _]. discriminate Heq.
  - intros c1 c2 j1 j2 _ H1. apply lookup_replicate in H1 as [Heq _].
    discriminate Heq.
  - unfold claims, cinit. cbn [pcs cdb].
    assert (filter (fun pc => is_claim pc = true) (replicate N AtConnect) = [])
      as ->; [|cbn; lia].
    induction N as [|N IH]; [reflexivity|].
    cbn [replicate]. rewrite filter_cons, IH.
    rewrite decide_False by discriminate. reflexivity.
Qed.

(** *** While no statement fails *)

Lemma cinv_ff_neutral c pc pc' s :
  pcs s !! c = Some pc -> faulted pc' = false ->
  (found_none pc' = true -> found_none pc = true) ->
  cinv_ff s -> cinv_ff (set_pc c pc' s).
Proof.
  intros Hc Hf Hfn [Hnf Hall]. split.
  - intros c0 pc0 Hpc0.
    apply (lookup_set_pc _ _ _ _ _ _ Hc) in Hpc0 as [[-> ->]|[Hne Hpc0]];
      [exact Hf|exact (Hnf c0 pc0 Hpc0)].
  - intros (c0 & pc0 & Hpc0 & Hnone). cbn [set_pc cdb locks]. apply Hall.
    apply (lookup_set_pc _ _ _ _ _ _ Hc) in Hpc0 as [[-> ->]|[Hne Hpc0]]; eauto.
Qed.

Lemma cinv_ff_step M N now c s :
  cinv M N s -> cinv_ff s -> cinv_ff (cstep now c None s).
Proof.
  intros Hinv Hff. unfold cstep.
  destruct (pcs s !! c) as [pc|] eqn:Hc; [|exact Hff].
  pose proof (proj1 Hff c pc Hc) as Hnf.
  destruct pc as [| | | |j|j| |held e|r|e]; try discriminate Hnf;
    try (eapply cinv_ff_neutral; eauto; cbn; congruence); try exact Hff.
  - (* SELECT *)
    destruct (select_next_queued _ _) as [|j rest] eqn:Hsel.
    + destruct Hff as [Hnf' Hall]. split.
      * intros c0 pc0 Hpc0.
        apply (lookup_set_pc _ _ _ _ _ _ Hc) in Hpc0 as [[-> ->]|[Hne Hpc0]];
          [reflexivity|exact (Hnf' c0 pc0 Hpc0)].
      * intros _ r Hr Hq. cbn [set_pc cdb locks].
        pose proof (proj1 (select_next_queued_nil _ _) Hsel r Hr) as Hcl.
        unfold claimable in Hcl. rewrite bool_decide_eq_true_2 in Hcl by exact Hq.
        cbn in Hcl. apply negb_false_iff in Hcl. unfold locked_by_other in Hcl.
        destruct (locks s !! id r); [eauto|discriminate Hcl].
    + destruct Hff as [Hnf' Hall].
      set (s1 := mkCState (cdb s) (<[id j := c]> (locks s)) (pcs s)).
      assert (pcs s1 !! c = Some AtSelect) as Hc1 by exact Hc.
      split.
      * intros c0 pc0 Hpc0.
        apply (lookup_set_pc _ _ _ _ _ _ Hc1) in Hpc0 as [[-> ->]|[Hne Hpc0]];
          [reflexivity|exact (Hnf' c0 pc0 Hpc0)].
      * intros (c0 & pc0 & Hpc0 & Hnone) r Hr Hq. cbn [set_pc cdb locks s1] in *.
        apply (lookup_set_pc _ _ _ _ _ _ Hc1) in Hpc0 as [[-> ->]|[Hne Hpc0]];
          [discriminate Hnone|].
        destruct (decide (id r = id j)) as [->|Hne'].
        -- rewrite lookup_insert_eq. eauto.
        -- rewrite lookup_insert_ne by congruence. apply Hall; eauto.
  - (* COMMIT *)
    destruct Hff as [Hnf' Hall].
    set (s1 := unlock (Some j)
                 (mkCState (claim_update (id j) now (cdb s)) (locks s) (pcs s))).
    assert (pcs s1 !! c = Some (AtCommit j)) as Hc1 by exact Hc.
    split.
    + intros c0 pc0 Hpc0.
      apply (lookup_set_pc _ _ _ _ _ _ Hc1) in Hpc0 as [[-> ->]|[Hne Hpc0]];
        [reflexivity|exact (Hnf' c0 pc0 Hpc0)].
    + intros (c0 & pc0 & Hpc0 & Hnone) r' Hr' Hq.
      cbn [set_pc cdb locks s1 unlock] in *.
      apply (lookup_set_pc _ _ _ _ _ _ Hc1) in Hpc0 as [[-> ->]|[Hne Hpc0]];
        [discriminate Hnone|].
      apply claim_update_inv in Hr' as (r & Hr & Hid & [[-> Hne']|[-> _]]);
        [|discriminate Hq].
      rewrite lookup_delete_ne by congruence. apply Hall; eauto.
Qed.

Lemma cinv_ff_run M N now sched s :
  fault_free_schedule sched ->
  cinv M N s -> cinv_ff s -> cinv M N (crun now sched s) /\ cinv_ff (crun now sched s).
Proof.
  revert s. induction sched as [|[c fault] sched IH]; intros s Hs Hinv Hff.
  - auto.
  - apply Forall_cons in Hs as [Hf Hs]. cbn in Hf. subst fault.
    cbn [crun]. apply IH; [exact Hs|apply cinv_step, Hinv|].
    eapply cinv_ff_step; eauto.
Qed.

Lemma cinv_ff_init N d : cinv_ff (cinit N d).
Proof.
  split.
  - intros c pc Hpc. apply lookup_replicate in Hpc as [-> _]. reflexivity.
  - intros (c & pc & Hpc & Hnone). apply lookup_replicate in Hpc as [-> _].
    discriminate Hnone.
Qed.

(** *** Every caller finishes *)

Lemma cstep_other now c fault s c0 :
  c0 <> c -> pcs (cstep now c fault s) !! c0 = pcs s !! c0.
Proof.
  intros Hne. unfold cstep.
  destruct (pcs s !! c) as [pc|] eqn:Hc; [|reflexivity].
  destruct pc as [| | | |j|j| |held e|r|e], fault;
    try destruct (select_next_queued _ _);
    try destruct held;
    try reflexivity; rewrite lookup_set_pc_ne by exact Hne; reflexivity.
Qed.

Lemma cstep_progress now c fault s pc :
  pcs s !! c = Some pc ->
  exists pc', pcs (cstep now c fault s) !! c = Some pc'
              /\ (remaining_steps pc' < remaining_steps pc
                  \/ remaining_steps pc = 0 /\ pc' = pc)%nat.
Proof.
  intros Hc. unfold cstep. rewrite Hc.
  destruct pc as [| | | |j|j| |held e|r|e], fault;
    try destruct (select_next_queued _ _) eqn:Hsel;
    try destruct held;
    try (eexists; split; [exact Hc|right; split; reflexivity]);
    (eexists; split;
     [eapply lookup_set_pc_eq; exact Hc|left; cbn; lia]).
Qed.

Lemma crun_remaining now sched s c pc :
  pcs s !! c = Some pc ->
  exists pc', pcs (crun now sched s) !! c = Some pc'
              /\ (remaining_steps pc' <= remaining_steps pc - turns c sched)%nat.
Proof.
  revert s pc. induction sched as [|[c0 fault] sched IH]; intros s pc Hc.
  - exists pc. split; [exact Hc|cbn; lia].
  - cbn [crun]. unfold turns. rewrite filter_cons. cbn [fst].
    destruct (decide (c0 = c)) as [->|Hne].
    + destruct (cstep_progress now c fault s pc Hc) as (pc1 & Hpc1 & Hlt).
      destruct (IH _ _ Hpc1) as (pc' & Hpc' & Hle).
      exists pc'. split; [exact Hpc'|]. unfold turns in Hle. cbn [length].
      destruct Hlt as [Hlt|[Hz ->]]; lia.
    + assert (pcs (cstep now c0 fault s) !! c = Some pc) as Hpc1
        by (rewrite cstep_other by congruence; exact Hc).
      destruct (IH _ _ Hpc1) as (pc' & Hpc' & Hle).
      exists pc'. split; [exact Hpc'|exact Hle].
Qed.

Lemma remaining_done pc : remaining_steps pc = 0%nat -> is_done pc = true.
Proof. destruct pc; cbn; intros H; try discriminate H; reflexivity. Qed.

(** A schedule that gives every caller seven turns runs all of them to the
    end. *)
Lemma crun_all_done N now sched d :
  (forall c, (c < N)%nat -> (7 <= turns c sched)%nat) ->
  all_done (crun now sched (cinit N d)).
Proof.
  intros Hturns. unfold all_done. apply Forall_lookup. intros c pc Hpc.
  assert (c < N)%nat as Hlt.
  { apply lookup_lt_Some in Hpc.
    pose proof (cinv_run (queued_count d) N now sched (cinit N d)) as H.
    assert (length (pcs (cinit N d)) = N) as Hlen by apply length_replicate.
    clear H.
    assert (forall sched s, length (pcs (crun now sched s)) = length (pcs s)) as Hl.
    { clear. induction sched as [|[c f] sched IH]; intros s; [reflexivity|].
      cbn [crun]. rewrite IH. unfold cstep.
      destruct (pcs s !! c) as [pc|]; [|reflexivity].
      destruct pc, f; try destruct (select_next_queued _ _);
        try destruct held; cbn [set_pc pcs unlock];
        rewrite ?length_insert; reflexivity. }
    rewrite Hl, Hlen in Hpc. exact Hpc. }
  assert (pcs (cinit N d) !! c = Some AtConnect) as Hc
    by (apply lookup_replicate; auto).
  destruct (crun_remaining now sched _ c _ Hc) as (pc' & Hpc' & Hle).
  rewrite Hpc in Hpc'. injection Hpc' as <-.
  apply remaining_done. specialize (Hturns c Hlt). cbn in Hle. lia.
Qed.

(** *** The claims *)

Lemma taken_job_cases pc j :
  taken_job pc = Some j -> pc = Returned (Some j) \/ held_job pc = Some j.
Proof.
  destruct pc as [| | | |j0|j0| |[j0|] e|[j0|]|e]; cbn; intros H;
    try discriminate H; injection H as ->; auto.
Qed.

Lemma taken_distinct M N s c1 c2 pc1 pc2 j1 j2 :
  cinv M N s -> c1 <> c2 ->
  pcs s !! c1 = Some pc1 -> pcs s !! c2 = Some pc2 ->
  taken_job pc1 = Some j1 -> taken_job pc2 = Some j2 ->
  id j1 <> id j2.
Proof.
  intros Hinv Hne H1 H2 Ht1 Ht2 Heq.
  assert (forall c c' pc j j', pcs s !! c = Some pc -> held_job pc = Some j ->
            pcs s !! c' = Some (Returned (Some j')) -> id j = id j' -> False)
    as Hmixed.
  { intros c c' pc j j' Hc Hh Hc' Hid.
    destruct (inv_held _ _ _ Hinv c pc j Hc Hh) as [Hj Hq].
    destruct (inv_returned _ _ _ Hinv c' j' Hc') as (r & Hr & Hidr & Hst).
    assert (r = j) as ->
      by (apply (unique_row _ _ _ (inv_nodup _ _ _ Hinv) Hr Hj); congruence).
    exact (Hst Hq). }
  apply taken_job_cases in Ht1 as [->|Hh1]; apply taken_job_cases in Ht2 as [->|Hh2].
  - exact (inv_distinct _ _ _ Hinv c1 c2 j1 j2 Hne H1 H2 Heq).
  - exact (Hmixed c2 c1 pc2 j2 j1 H2 Hh2 H1 (eq_sym Heq)).
  - exact (Hmixed c1 c2 pc1 j1 j2 H1 Hh1 H2 Heq).
  - assert (locks s !! id j1 = Some c1) as L1
      by (apply (inv_locks _ _ _ Hinv); eauto).
    assert (locks s !! id j1 = Some c2) as L2
      by (apply (inv_locks _ _ _ Hinv); exists pc2, j2; auto).
    congruence.
Qed.

Lemma cinv_orig_step M N d now c fault s :
  cinv M N s -> cinv_orig d s -> cinv_orig d (cstep now c fault s).
Proof.
  intros Hinv [Hrows Htaken]. unfold cstep.
  destruct (pcs s !! c) as [pc|] eqn:Hc; [|split; assumption].
  assert (forall pc' s1,
             cdb s1 = cdb s -> pcs s1 = pcs s ->
             (forall j, taken_job pc' = Some j -> taken_job pc = Some j) ->
             cinv_orig d (set_pc c pc' s1)) as Hsame.
  { intros pc' s1 Hdb Hpcs Hsub. split.
    - cbn [set_pc cdb]. rewrite Hdb. exact Hrows.
    - intros c0 pc0 j Hpc0 Hj.
      assert (pcs s1 !! c = Some pc) as Hc1 by (rewrite Hpcs; exact Hc).
      apply (lookup_set_pc _ _ _ _ _ _ Hc1) in Hpc0 as [[-> ->]|[Hne Hpc0]].
      + exact (Htaken c pc j Hc (Hsub j Hj)).
      + rewrite Hpcs in Hpc0. exact (Htaken c0 pc0 j Hpc0 Hj). }
  destruct pc as [| | | |j|j| |held e|r|e].
  - destruct fault; apply Hsame; auto; cbn; congruence.
  - destruct fault; apply Hsame; auto; cbn; congruence.
  - destruct fault; apply Hsame; auto; cbn; congruence.
  - destruct fault; [apply Hsame; auto; cbn; congruence|].
    destruct (select_next_queued _ _) as [|j rest] eqn:Hsel;
      [apply Hsame; auto; cbn; congruence|].
    apply select_next_queued_cons in Hsel as (_ & Hj & Hcl & _).
    unfold claimable in Hcl. apply andb_true_iff in Hcl as [Hq _].
    apply bool_decide_eq_true in Hq.
    split; [exact Hrows|].
    intros c0 pc0 j0 Hpc0 Hj0.
    set (s1 := mkCState (cdb s) (<[id j := c]> (locks s)) (pcs s)) in *.
    assert (pcs s1 !! c = Some AtSelect) as Hc1 by exact Hc.
    apply (lookup_set_pc _ _ _ _ _ _ Hc1) in Hpc0 as [[-> ->]|[Hne Hpc0]].
    + cbn in Hj0. injection Hj0 as <-. auto.
    + exact (Htaken c0 pc0 j0 Hpc0 Hj0).
  - destruct fault; apply Hsame; auto; cbn; congruence.
  - destruct fault; [apply Hsame; auto; cbn; congruence|].
    split.
    + intros r' Hr' Hq. cbn [set_pc cdb unlock] in Hr'.
      apply claim_update_inv in Hr' as (r & Hr & Hid & [[-> Hne']|[-> _]]);
        [auto|discriminate Hq].
    + intros c0 pc0 j0 Hpc0 Hj0.
      set (s1 := unlock (Some j) _) in *.
      assert (pcs s1 !! c = Some (AtCommit j)) as Hc1 by exact Hc.
      apply (lookup_set_pc _ _ _ _ _ _ Hc1) in Hpc0 as [[-> ->]|[Hne Hpc0]].
      * cbn in Hj0. injection Hj0 as <-. exact (Htaken c _ j Hc eq_refl).
      * exact (Htaken c0 pc0 j0 Hpc0 Hj0).
  - destruct fault; apply Hsame; auto; cbn; congruence.
  - assert (cinv_orig d (set_pc c (Thrown e) (unlock held s))) as H.
    { apply Hsame; [destruct held; reflexivity|destruct held; reflexivity|].
      cbn. congruence. }
    destruct fault; exact H.
  - destruct fault; split; assumption.
  - destruct fault; split; assumption.
Qed.

Lemma cinv_orig_run M N d now sched s :
  cinv M N s -> cinv_orig d s -> cinv_orig d (crun now sched s).
Proof.
  revert s. induction sched as [|[c fault] sched IH]; intros s Hinv Ho.
  - exact Ho.
  - cbn [crun]. apply IH; [apply cinv_step, Hinv|].
    eapply cinv_orig_step; eauto.
Qed.

Lemma cinv_orig_init N d : cinv_orig d (cinit N d).
Proof.
  split; [auto|].
  intros c pc j Hpc Hj. apply lookup_replicate in Hpc as [-> _]. discriminate Hj.
Qed.

Lemma queued_count_zero d :
  (forall r, r ∈ render_jobs d -> status r <> queued) -> queued_count d = 0%nat.
Proof.
  intros H. unfold queued_count.
  assert (filter is_queued (render_jobs d) = []) as ->; [|reflexivity].
  apply elem_of_nil_inv. intros r Hr.
  apply list_elem_of_filter in Hr as [Hq Hr]. exact (H r Hr Hq).
Qed.

Lemma claims_le_callers s : (claims s <= length (pcs s))%nat.
Proof. unfold claims. apply length_filter. Qed.

Lemma claims_all (l : list Pc) :
  Forall (fun pc => is_claim pc = true) l ->
  length (filter (fun pc => is_claim pc = true) l) = length l.
Proof.
  induction 1 as [|pc l Hpc _ IH]; [reflexivity|].
  rewrite filter_cons, decide_True by exact Hpc. cbn [length]. lia.
Qed.

(** When all callers are done and none has failed, the claims are
    [min N M]. *)
Lemma final_claims M N s :
  cinv M N s -> cinv_ff s -> all_done s -> claims s = Nat.min N M.
Proof.
  intros Hinv [Hnf Hall] Hdone.
  pose proof (inv_count _ _ _ Hinv) as Hcount.
  pose proof (claims_le_callers s) as Hle. rewrite (inv_len _ _ _ Hinv) in Hle.
  destruct (decide (Exists (fun pc => found_none pc = true) (pcs s))) as [Hex|Hno].
  - apply Exists_exists in Hex as (pc & Hin & Hnone).
    apply list_elem_of_lookup in Hin as [c Hc].
    assert (queued_count (cdb s) = 0%nat) as Hz.
    { apply queued_count_zero. intros r Hr Hq.
      destruct (Hall ltac:(eauto) r Hr Hq) as [c' Hl].
      apply (inv_locks _ _ _ Hinv) in Hl as (pc' & j & Hpc' & Hj & _).
      unfold all_done in Hdone. rewrite Forall_lookup in Hdone.
      specialize (Hdone c' pc' Hpc').
      destruct pc'; try discriminate Hdone; discriminate Hj. }
    lia.
  - assert (Forall (fun pc => is_claim pc = true) (pcs s)) as Hclaims.
    { apply Forall_lookup. intros c pc Hc.
      unfold all_done in Hdone. rewrite Forall_lookup in Hdone.
      specialize (Hdone c pc Hc). specialize (Hnf c pc Hc).
      destruct pc as [| | | |j|j| |held e|[j|]|e];
        try discriminate Hdone; try discriminate Hnf; [reflexivity|].
      exfalso. apply Hno. apply Exists_exists. exists (Returned None).
      split; [|reflexivity]. apply list_elem_of_lookup. eauto. }
    apply claims_all in Hclaims. unfold claims in *.
    rewrite (inv_len _ _ _ Hinv) in Hclaims. lia.
Qed.

(** C1. Atomic claim. [N] callers run [getNextJob] against a table with
    unique ids and [M] queued rows, their statements interleaved in any order
    and failing or not. At every moment no two callers have been given the
    same row, be it returned or selected and still locked, and every row given
    out was a queued row of the table; so there are never more than
    [min N M] claims. When no statement fails and all callers have returned,
    the claims are exactly [min N M]; and every schedule that gives each
    caller seven turns gets all of them to return. *)
Theorem concurrent_claims_are_exclusive :
  forall (N : nat) (d : Db) (now : Z) (sched : list (nat * option string)),
    NoDup (id <$> render_jobs d) ->
    let s := crun now sched (cinit N d) in
    let M := queued_count d in
    (forall c1 c2 pc1 pc2 j1 j2,
        c1 <> c2 ->
        pcs s !! c1 = Some pc1 -> pcs s !! c2 = Some pc2 ->
        taken_job pc1 = Some j1 -> taken_job pc2 = Some j2 ->
        id j1 <> id j2)
    /\ (forall c pc j,
          pcs s !! c = Some pc -> taken_job pc = Some j ->
          j ∈ render_jobs d /\ status j = queued)
    /\ (claims s <= Nat.min N M)%nat
    /\ (fault_free_schedule sched -> all_done s -> claims s = Nat.min N M)
    /\ ((forall c, (c < N)%nat -> (7 <= turns c sched)%nat) ->
        all_done s
        /\ (fault_free_schedule sched -> claims s = Nat.min N M)).
Proof.
  intros N d now sched Hnd s M. subst s M.
  pose proof (cinv_run _ _ now sched _ (cinv_init N d Hnd)) as Hinv.
  pose proof (cinv_orig_run _ _ d now sched _ (cinv_init N d Hnd)
                (cinv_orig_init N d)) as [_ Horig].
  split; [|split; [|split; [|split]]].
  - intros c1 c2 pc1 pc2 j1 j2. apply (taken_distinct _ _ _ _ _ _ _ _ _ Hinv).
  - exact Horig.
  - pose proof (inv_count _ _ _ Hinv) as Hcount.
    pose proof (claims_le_callers (crun now sched (cinit N d))) as Hle.
    rewrite (inv_len _ _ _ Hinv) in Hle. lia.
  - intros Hff Hdone.
    destruct (cinv_ff_run _ _ now sched _ Hff (cinv_init N d Hnd)
                (cinv_ff_init N d)) as [_ Hff'].
    exact (final_claims _ _ _ Hinv Hff' Hdone).
  - intros Hturns.
    pose proof (crun_all_done N now sched d Hturns) as Hdone.
    split; [exact Hdone|]. intros Hff.
    destruct (cinv_ff_run _ _ now sched _ Hff (cinv_init N d Hnd)
                (cinv_ff_init N d)) as [_ Hff'].
    exact (final_claims _ _ _ Hinv Hff' Hdone).
Qed.

(** Three callers, statement by statement in turn, on a table with two queued
    rows: two claims. *)
Lemma concurrent_claims_are_exclusive_witness :
  NoDup (id <$> render_jobs
           (mkDb [mkJob "a" queued None 1 0 None None 20 None None;
                  mkJob "b" queued None 1 0 None None 10 None None;
                  mkJob "c" rendering None 1 0 None None 5 (Some 6) None] []))
  /\ fault_free_schedule (round_robin 3 7)
  /\ (forall c, (c < 3)%nat -> (7 <= turns c (round_robin 3 7))%nat)
  /\ claims (crun 100 (round_robin 3 7)
               (cinit 3 (mkDb [mkJob "a" queued None 1 0 None None 20 None None;
                               mkJob "b" queued None 1 0 None None 10 None None;
                               mkJob "c" rendering None 1 0 None None 5 (Some 6)
                                     None] [])))
     = 2%nat.
Proof.
  assert (NoDup (id <$> render_jobs
            (mkDb [mkJob "a" queued None 1 0 None None 20 None None;
                   mkJob "b" queued None 1 0 None None 10 None None;
                   mkJob "c" rendering None 1 0 None None 5 (Some 6) None] [])))
    as Hnd.
  { apply (bool_decide_unpack _). vm_compute. exact I. }
  assert (fault_free_schedule (round_robin 3 7)) as Hff.
  { apply (bool_decide_unpack _). vm_compute. exact I. }
  assert (forall c, (c < 3)%nat -> (7 <= turns c (round_robin 3 7))%nat) as Hturns.
  { intros [|[|[|c]]] Hc; [vm_compute; lia ..|lia]. }
  split; [exact Hnd|]. split; [exact Hff|]. split; [exact Hturns|].
  exact (proj2 (proj2 (proj2 (proj2 (proj2
    (concurrent_claims_are_exclusive 3 _ 100 (round_robin 3 7) Hnd)))) Hturns) Hff).
Defined.

(** A caller that runs alone and meets no failure does what the sequential
    [getNextJob] does. *)
Lemma single_caller_agrees d now :
  let out := getNextJob (mkWorld d None [] now []) in
  let s := crun now (replicate 6 (0%nat, None)) (cinit 1 d) in
  (exists r, out.1 = Ok r /\ pcs s = [Returned r]) /\ cdb s = db out.2.
Proof.
  cbn zeta. rewrite getNextJob_ff by exact no_faults_nil.
  assert (forall s0, locks s0 = ∅ ->
            select_next_queued (locked_by_other s0 0) d
            = select_next_queued no_locks d) as Hsel.
  { intros s0 Hl. unfold select_next_queued.
    rewrite (list_filter_iff _ (fun r => claimable no_locks r = true));
      [reflexivity|].
    intros r. unfold claimable, locked_by_other, no_locks.
    rewrite Hl, lookup_empty. reflexivity. }
  unfold cinit. cbn [replicate crun cstep pcs lookup list_lookup set_pc cdb locks
                      insert list_insert].
  rewrite Hsel by reflexivity.
  destruct (select_next_queued no_locks d) as [|j rest];
    cbn [crun cstep pcs lookup list_lookup set_pc cdb locks insert list_insert
         unlock fst snd db]; eauto.
Qed.

(** ** Worker loop and shutdown *)

Lemma claim_attempts_app h e s :
  history s = h ++ [e] -> e <> LogClaimAttempt ->
  claim_attempts s = length (filter (fun x => x = LogClaimAttempt) h).
Proof.
  intros Hh Hne. unfold claim_attempts. rewrite Hh.
  rewrite filter_app, length_app, filter_cons, filter_nil.
  rewrite decide_False by exact Hne. cbn. lia.
Qed.

Lemma drain_iterate_flag k s :
  shuttingDown (drain_iterate k s) = shuttingDown s
  /\ claim_attempts (drain_iterate k s) = claim_attempts s.
Proof.
  unfold drain_iterate. destruct (0 <? activeRenders s)%nat; cbn.
  - auto.
  - split; [reflexivity|].
    unfold claim_attempts. cbn [history set_shutdowns log].
    rewrite filter_app, length_app, filter_cons, filter_nil.
    rewrite decide_False by discriminate. cbn. lia.
Qed.

(** Once the flag is set it stays set, and [getNextJob] is not called
    again. *)
Lemma wstep_after_flag mp ev s :
  shuttingDown s = true ->
  shuttingDown (wstep mp ev s) = true
  /\ claim_attempts (wstep mp ev s) = claim_attempts s.
Proof.
  intros Hflag. unfold wstep. destruct (exited s); [auto|].
  destruct ev as [t ev]. cbn [fst snd].
  assert (shuttingDown (advance t s) = true) as Hflag' by exact Hflag.
  assert (claim_attempts (advance t s) = claim_attempts s) as Hca by reflexivity.
  set (s0 := advance t s) in *. clearbody s0.
  assert (forall x, shuttingDown x = true ->
             shuttingDown (loop_iterate mp x) = true
             /\ claim_attempts (loop_iterate mp x) = claim_attempts x) as Hloop.
  { intros x Hx. unfold loop_iterate. rewrite Hx. auto. }
  assert (forall k x, shuttingDown x = true ->
             shuttingDown (drain_iterate k x) = true
             /\ claim_attempts (drain_iterate k x) = claim_attempts x) as Hdrain.
  { intros k x Hx. destruct (drain_iterate_flag k x) as [-> ->]. auto. }
  assert (forall x code, shuttingDown x = true ->
             shuttingDown (process_exit code x) = true
             /\ claim_attempts (process_exit code x) = claim_attempts x) as Hexit.
  { intros x code Hx. split; [exact Hx|].
    apply (claim_attempts_app (history x) (LogExit code));
      [reflexivity|discriminate]. }
  rewrite <- Hca.
  destruct ev as [healthy| |outcome| | | |k|k ok|k].
  - destruct (loop s0), healthy; auto.
  - destruct (loop s0); auto.
  - destruct (loop s0), outcome; auto.
    exact (Hloop (set_active _ s0) Hflag').
  - destruct (activeRenders s0); auto.
  - unfold shutdown. cbn zeta.
    match goal with
    | |- context [drain_iterate ?k ?x] =>
        destruct (Hdrain k x eq_refl) as [-> ->]
    end.
    split; [reflexivity|].
    apply (claim_attempts_app (history s0) (LogSetTimeout (wnow s0) FORCE_EXIT_MS));
      [reflexivity|discriminate].
  - auto.
  - destruct (shutdowns s0 !! k) as [[|]|]; auto.
  - destruct (shutdowns s0 !! k) as [[|]|]; auto.
    match goal with
    | |- context [process_exit 0 ?x] =>
        destruct (Hexit x 0 Hflag') as [-> ->]
    end.
    split; [reflexivity|].
    unfold claim_attempts. cbn [history].
    rewrite filter_app, length_app, filter_cons, filter_nil.
    rewrite decide_False by (destruct ok; discriminate). cbn. lia.
  - destruct (timers s0 !! k) as [deadline|]; auto.
    destruct (deadline <=? wnow s0); auto.
Qed.

Lemma wrun_after_flag mp evs s :
  shuttingDown s = true ->
  shuttingDown (wrun mp evs s) = true
  /\ claim_attempts (wrun mp evs s) = claim_attempts s.
Proof.
  revert s. induction evs as [|ev evs IH]; intros s Hflag; [auto|].
  cbn [wrun foldl]. destruct (wstep_after_flag mp ev s Hflag) as [Hf Hc].
  destruct (IH _ Hf) as [Hf' Hc']. split; [exact Hf'|].
  unfold wrun in Hc'. rewrite Hc'. exact Hc.
Qed.

Lemma signal_sets_flag mp t s :
  exited s = None -> shuttingDown (wstep mp (t, Signal) s) = true.
Proof.
  intros He. unfold wstep. rewrite He. cbn [fst snd]. unfold shutdown. cbn zeta.
  match goal with
  | |- context [drain_iterate ?k ?x] => destruct (drain_iterate_flag k x) as [-> _]
  end.
  reflexivity.
Qed.

Lemma winv_advance t s : winv s -> winv (advance t s).
Proof.
  intros [H1 H2 H3 H4]. split; cbn [advance history shutdowns shuttingDown timers wnow];
    auto.
  intros k deadline Hk. destruct (H4 k deadline Hk) as (t0 & Hin & Hd & Hle).
  exists t0. repeat split; auto. lia.
Qed.

Lemma winv_set_loop pc s : winv s -> winv (set_loop pc s).
Proof. intros [H1 H2 H3 H4]. split; auto. Qed.

Lemma winv_set_active n s : winv s -> winv (set_active n s).
Proof. intros [H1 H2 H3 H4]. split; auto. Qed.

Lemma winv_log e s :
  (forall a, e = LogPoolEnd a -> a = 0%nat) -> winv s -> winv (log e s).
Proof.
  intros He [H1 H2 H3 H4].
  split; cbn [log history shutdowns shuttingDown timers wnow].
  - intros a Ha. apply elem_of_app in Ha as [Ha|Ha]; [auto|].
    apply list_elem_of_singleton in Ha. auto.
  - intros k Hk. apply elem_of_app. left. eauto.
  - exact H3.
  - intros k deadline Hk. destruct (H4 k deadline Hk) as (t0 & Hin & Hd & Hle).
    exists t0. repeat split; auto. apply elem_of_app. auto.
Qed.

Lemma winv_loop_iterate mp s : winv s -> winv (loop_iterate mp s).
Proof.
  intros H. unfold loop_iterate.
  destruct (shuttingDown s); [apply winv_set_loop, H|].
  destruct (mp <=? activeRenders s)%nat; apply winv_set_loop; [exact H|].
  apply winv_log; [discriminate|exact H].
Qed.

Lemma winv_drain_iterate k s :
  shuttingDown s = true -> winv s -> winv (drain_iterate k s).
Proof.
  intros Hflag [H1 H2 H3 H4]. unfold drain_iterate.
  destruct (Nat.ltb_spec 0 (activeRenders s)) as [Hpos|Hzero].
  - split; cbn [set_shutdowns history shutdowns shuttingDown timers wnow]; auto.
    intros k0 Hk0. destruct (decide (k = k0)) as [->|Hne].
    + destruct (decide (k0 < length (shutdowns s))%nat) as [Hlt|Hge].
      * rewrite list_lookup_insert_eq in Hk0 by exact Hlt. discriminate Hk0.
      * rewrite list_insert_ge in Hk0 by lia. eauto.
    + rewrite list_lookup_insert_ne in Hk0 by exact Hne. eauto.
  - assert (activeRenders s = 0%nat) as Hz by lia.
    split; cbn [set_shutdowns log history shutdowns shuttingDown timers wnow]; auto.
    + intros a Ha. apply elem_of_app in Ha as [Ha|Ha]; [auto|].
      apply list_elem_of_singleton in Ha. congruence.
    + intros k0 _. apply elem_of_app. right. rewrite Hz. left.
    + intros k0 deadline Hk. destruct (H4 k0 deadline Hk) as (t0 & Hin & Hd & Hle).
      exists t0. repeat split; auto. apply elem_of_app. auto.
Qed.

Lemma winv_shutdown s : winv s -> winv (shutdown s).
Proof.
  intros [H1 H2 H3 H4]. unfold shutdown. cbn zeta.
  apply winv_drain_iterate; [reflexivity|].
  split; cbn [history shutdowns shuttingDown timers wnow].
  - intros a Ha. apply elem_of_app in Ha as [Ha|Ha]; [auto|].
    apply list_elem_of_singleton in Ha. discriminate Ha.
  - intros k Hk. apply elem_of_app. left.
    apply lookup_app_Some in Hk as [Hk|[_ Hk]]; [eauto|].
    destruct (k - length (shutdowns s))%nat; discriminate Hk.
  - reflexivity.
  - intros k deadline Hk.
    apply lookup_app_Some in Hk as [Hk|[_ Hk]].
    + destruct (H4 k deadline Hk) as (t0 & Hin & Hd & Hle).
      exists t0. repeat split; auto. apply elem_of_app. auto.
    + destruct (k - length (timers s))%nat; [|discriminate Hk].
      cbn in Hk. injection Hk as <-.
      exists (wnow s). split; [|split; [reflexivity|lia]].
      apply elem_of_app. right. left.
Qed.

Lemma winv_process_exit code s : winv s -> winv (process_exit code s).
Proof.
  intros [H1 H2 H3 H4].
  split; cbn [process_exit history shutdowns shuttingDown timers wnow].
  - intros a Ha. apply elem_of_app in Ha as [Ha|Ha]; [auto|].
    apply list_elem_of_singleton in Ha. discriminate Ha.
  - intros k Hk. apply elem_of_app. left. eauto.
  - exact H3.
  - intros k deadline Hk. destruct (H4 k deadline Hk) as (t0 & Hin & Hd & Hle).
    exists t0. repeat split; auto. apply elem_of_app. auto.
Qed.

Lemma winv_step mp ev s : winv s -> winv (wstep mp ev s).
Proof.
  intros Hinv. unfold wstep. destruct (exited s); [exact Hinv|].
  destruct ev as [t ev]. cbn [fst snd].
  pose proof (winv_advance t s Hinv) as Hinv0.
  set (s0 := advance t s) in *. clearbody s0.
  destruct ev as [healthy| |outcome| | | |k|k ok|k].
  - destruct (loop s0), healthy;
      auto using winv_loop_iterate, winv_process_exit.
  - destruct (loop s0); auto using winv_loop_iterate.
  - destruct (loop s0), outcome;
      auto using winv_loop_iterate, winv_set_active, winv_set_loop.
  - destruct (activeRenders s0); auto using winv_set_active.
  - apply winv_shutdown, Hinv0.
  - exact Hinv0.
  - destruct (shutdowns s0 !! k) as [[|]|] eqn:Hk; auto.
    apply winv_drain_iterate; [|exact Hinv0].
    apply (winv_flag _ Hinv0). intros Hnil. rewrite Hnil in Hk. discriminate Hk.
  - destruct (shutdowns s0 !! k) as [[|]|] eqn:Hk; auto.
    apply winv_process_exit.
    destruct Hinv0 as [H1 H2 H3 H4].
    split; cbn [history shutdowns shuttingDown timers wnow]; auto.
    + intros a Ha. apply elem_of_app in Ha as [Ha|Ha]; [auto|].
      apply list_elem_of_singleton in Ha. destruct ok; discriminate Ha.
    + intros k0 Hk0. apply elem_of_app. left. eauto.
    + intros k0 deadline Hk0.
      destruct (H4 k0 deadline Hk0) as (t0 & Hin & Hd & Hle).
      exists t0. repeat split; auto. apply elem_of_app. auto.
  - destruct (timers s0 !! k) as [deadline|]; auto.
    destruct (deadline <=? wnow s0); auto using winv_process_exit.
Qed.

Lemma winv_init : winv winit.
Proof.
  split; cbn.
  - intros a H. inversion H.
  - intros k H. destruct k; discriminate H.
  - congruence.
  - intros k deadline H. destruct k; discriminate H.
Qed.

Lemma wexit_none s : exited s = None -> wexit s.
Proof. intros H. split; rewrite H; intros; discriminate. Qed.

Lemma exited_loop_iterate mp s : exited (loop_iterate mp s) = exited s.
Proof.
  unfold loop_iterate. destruct (shuttingDown s); [reflexivity|].
  destruct (mp <=? activeRenders s)%nat; reflexivity.
Qed.

Lemma exited_drain_iterate k s : exited (drain_iterate k s) = exited s.
Proof. unfold drain_iterate. destruct (0 <? activeRenders s)%nat; reflexivity. Qed.

Lemma wexit_step mp ev s : winv s -> wexit s -> wexit (wstep mp ev s).
Proof.
  intros Hinv Hex. unfold wstep. destruct (exited s) eqn:He; [exact Hex|].
  destruct ev as [t ev]. cbn [fst snd].
  pose proof (winv_advance t s Hinv) as Hinv0.
  assert (exited (advance t s) = None) as He0 by exact He.
  set (s0 := advance t s) in *. clearbody s0.
  destruct ev as [healthy| |outcome| | | |k|k ok|k].
  - destruct (loop s0) eqn:Hl, healthy; try (apply wexit_none; exact He0).
    + apply wexit_none. rewrite exited_loop_iterate. exact He0.
    + split; cbn [process_exit exited loop]; intros; try discriminate; auto.
      injection H as <-. auto.
  - destruct (loop s0); apply wexit_none; rewrite ?exited_loop_iterate; exact He0.
  - destruct (loop s0), outcome; apply wexit_none;
      rewrite ?exited_loop_iterate; exact He0.
  - destruct (activeRenders s0); apply wexit_none; exact He0.
  - apply wexit_none. unfold shutdown. cbn zeta. rewrite exited_drain_iterate.
    exact He0.
  - apply wexit_none. exact He0.
  - destruct (shutdowns s0 !! k) as [[|]|]; apply wexit_none;
      rewrite ?exited_drain_iterate; exact He0.
  - destruct (shutdowns s0 !! k) as [[|]|] eqn:Hk; try (apply wexit_none; exact He0).
    pose proof (winv_closing _ Hinv0 k Hk) as Hin.
    apply list_elem_of_split in Hin as (h1 & h2 & Hh).
    assert (shuttingDown s0 = true) as Hflag.
    { apply (winv_flag _ Hinv0). intros Hnil. rewrite Hnil in Hk. discriminate Hk. }
    split; cbn [process_exit exited history pool_closed shuttingDown loop].
    + intros _. exists h1, h2, (if ok then LogPoolClosed else LogPoolError).
      split; [|split; [|exact Hflag]].
      * rewrite Hh. rewrite <- !app_assoc. cbn [app]. reflexivity.
      * destruct ok; [left; split; [reflexivity|apply orb_true_r]|right; reflexivity].
    + intros H. discriminate H.
    + intros code H. injection H as <-. auto.
  - destruct (timers s0 !! k) as [deadline|] eqn:Hk; [|apply wexit_none; exact He0].
    destruct (Z.leb_spec deadline (wnow s0)) as [Hle|Hgt];
      [|apply wexit_none; exact He0].
    destruct (winv_timers _ Hinv0 k deadline Hk) as (t0 & Hin & Hd & _).
    split; cbn [process_exit exited history pool_closed shuttingDown loop wnow].
    + intros H. discriminate H.
    + intros _. right. exists t0. split; [apply elem_of_app; auto|lia].
    + intros code H. injection H as <-. auto.
Qed.

Lemma wrun_inv mp evs s :
  winv s -> wexit s -> winv (wrun mp evs s) /\ wexit (wrun mp evs s).
Proof.
  revert s. induction evs as [|ev evs IH]; intros s Hi He; [auto|].
  cbn [wrun foldl]. apply IH; [apply winv_step, Hi|apply wexit_step; assumption].
Qed.

(** A due force-exit timer ends the process with code 1, whatever the
    counter of active renders says. *)
Lemma timer_forces_exit mp t k deadline s :
  exited s = None -> timers s !! k = Some deadline -> deadline <= t ->
  exited (wstep mp (t, TimerFire k) s) = Some 1.
Proof.
  intros He Hk Hle. unfold wstep. rewrite He. cbn [fst snd advance timers wnow].
  rewrite Hk. destruct (Z.leb_spec deadline (Z.max (wnow s) t)) as [_|Hgt];
    [reflexivity|lia].
Qed.

Lemma signal_arms_timer mp t s :
  exited s = None ->
  timers (wstep mp (t, Signal) s) = timers s ++ [Z.max (wnow s) t + FORCE_EXIT_MS].
Proof.
  intros He. unfold wstep. rewrite He. cbn [fst snd]. unfold shutdown. cbn zeta.
  unfold drain_iterate. cbn [activeRenders advance].
  destruct (0 <? activeRenders s)%nat; reflexivity.
Qed.

(** C8, as stated, fails on the pool: [pool.end()] of the first shutdown
    rejects, the handler logs the error and the process still exits with
    code 0, the pool not closed. *)
Lemma exit_zero_with_pool_not_closed :
  exited (wrun 4 [(0, Boot true); (1, Signal); (2, PoolEndSettled 0 false)] winit)
  = Some 0
  /\ pool_closed (wrun 4 [(0, Boot true); (1, Signal); (2, PoolEndSettled 0 false)]
                       winit) = false
  /\ ~ (forall evs, exited (wrun 4 evs winit) = Some 0 ->
                    pool_closed (wrun 4 evs winit) = true).
Proof.
  split; [reflexivity|]. split; [reflexivity|].
  intros H.
  specialize (H [(0, Boot true); (1, Signal); (2, PoolEndSettled 0 false)] eq_refl).
  discriminate H.
Qed.

(** A claim under way when the signal comes is not counted yet: the shutdown
    finds the counter at zero, closes the pool and exits with code 0 while the
    job claimed in between is being rendered. *)
Example exit_zero_with_render_active :
  exited (wrun 4 [(0, Boot true); (5, Signal); (6, ClaimDone ClaimedJob);
                  (7, PoolEndSettled 0 true)] winit) = Some 0
  /\ activeRenders (wrun 4 [(0, Boot true); (5, Signal); (6, ClaimDone ClaimedJob);
                            (7, PoolEndSettled 0 true)] winit) = 1%nat.
Proof. split; reflexivity. Qed.

(** C8, amended. In every run of the worker: a signal sets the shutdown flag;
    once the flag is set [getNextJob] is never called again, and every call of
    it was made with the flag unset. The process exits with code 0 only after
    [pool.end()] was called, which only happens with the counter of active
    renders at zero, and has settled: the pool is closed, or closing it failed
    and the error was logged. Every signal arms a timer due 30000 ms later; a
    due timer ends the process with code 1 whatever the counter says; code 1
    comes from such a timer or from a failed start, and no other code
    occurs. *)
Theorem shutdown_stops_claims_and_bounds_exit :
  forall (maxParallel : nat) (evs : list (Z * WEvent)),
    let s := wrun maxParallel evs winit in
    (forall t, exited s = None ->
               shuttingDown (wstep maxParallel (t, Signal) s) = true)
    /\ (shuttingDown s = true ->
        forall evs', shuttingDown (wrun maxParallel evs' s) = true
                     /\ claim_attempts (wrun maxParallel evs' s) = claim_attempts s)
    /\ (forall ev, claim_attempts (wstep maxParallel ev s) <> claim_attempts s ->
                   shuttingDown s = false)
    /\ (exited s = Some 0 ->
        exists h1 h2 e,
          history s = h1 ++ LogPoolEnd 0 :: h2 ++ [e; LogExit 0]
          /\ (e = LogPoolClosed /\ pool_closed s = true \/ e = LogPoolError)
          /\ shuttingDown s = true)
    /\ (forall a, LogPoolEnd a ∈ history s -> a = 0%nat)
    /\ (forall t, exited s = None ->
                  timers (wstep maxParallel (t, Signal) s)
                  = timers s ++ [Z.max (wnow s) t + FORCE_EXIT_MS])
    /\ (forall k deadline t,
          exited s = None -> timers s !! k = Some deadline -> deadline <= t ->
          exited (wstep maxParallel (t, TimerFire k) s) = Some 1)
    /\ (exited s = Some 1 ->
        loop s = Booting
        \/ exists t0, LogSetTimeout t0 FORCE_EXIT_MS ∈ history s
                      /\ t0 + FORCE_EXIT_MS <= wnow s)
    /\ (forall code, exited s = Some code -> code = 0 \/ code = 1)
    /\ FORCE_EXIT_MS = 30000.
Proof.
  intros mp evs s. subst s.
  destruct (wrun_inv mp evs winit winv_init (wexit_none winit eq_refl))
    as [Hinv Hex].
  set (s := wrun mp evs winit) in *. clearbody s.
  repeat lazymatch goal with |- _ /\ _ => split end.
  - intros t. apply signal_sets_flag.
  - intros Hflag evs'. apply wrun_after_flag, Hflag.
  - intros ev Hne. destruct (shuttingDown s) eqn:Hflag; [|reflexivity].
    destruct (wstep_after_flag mp ev s Hflag) as [_ Heq]. destruct (Hne Heq).
  - apply (wexit_clean _ Hex).
  - apply (winv_pool_end _ Hinv).
  - intros t. apply signal_arms_timer.
  - intros k deadline t. apply timer_forces_exit.
  - apply (wexit_forced _ Hex).
  - apply (wexit_codes _ Hex).
  - reflexivity.
Qed.

(** Two renders are active when the signal comes; one is still active when
    the timer is due 30000 ms later: exit code 1. *)
Lemma shutdown_stops_claims_and_bounds_exit_witness :
  let s := wrun 4 [(0, Boot true); (1, ClaimDone ClaimedJob);
                   (2, ClaimDone ClaimedJob); (5, Signal);
                   (1005, ShutdownWake 0); (1500, JobFinished);
                   (2005, ShutdownWake 0)] winit in
  exited s = None /\ timers s !! 0%nat = Some 30005 /\ 30005 <= 30005
  /\ activeRenders s = 1%nat
  /\ exited (wstep 4 (30005, TimerFire 0) s) = Some 1.
Proof.
  cbn zeta.
  assert (exited (wrun 4 [(0, Boot true); (1, ClaimDone ClaimedJob);
                          (2, ClaimDone ClaimedJob); (5, Signal);
                          (1005, ShutdownWake 0); (1500, JobFinished);
                          (2005, ShutdownWake 0)] winit) = None) as He
    by reflexivity.
  assert (timers (wrun 4 [(0, Boot true); (1, ClaimDone ClaimedJob);
                          (2, ClaimDone ClaimedJob); (5, Signal);
                          (1005, ShutdownWake 0); (1500, JobFinished);
                          (2005, ShutdownWake 0)] winit) !! 0%nat = Some 30005)
    as Hk by reflexivity.
  split; [exact He|]. split; [exact Hk|]. split; [lia|]. split; [reflexivity|].
  apply (proj1 (proj2 (proj2 (proj2 (proj2 (proj2 (proj2
    (shutdown_stops_claims_and_bounds_exit 4
       [(0, Boot true); (1, ClaimDone ClaimedJob);
        (2, ClaimDone ClaimedJob); (5, Signal);
        (1005, ShutdownWake 0); (1500, JobFinished);
        (2005, ShutdownWake 0)]))))))) 0%nat 30005 30005 He Hk).
  lia.
Defined.


(** * Further properties of the worker *)

(** ** The retry budget of [safeQuery] *)

Lemma within_refl w : within 0 0 w w.
Proof. unfold within. lia. Qed.

Lemma within_trans k1 T1 k2 T2 w w1 w2 :
  within k1 T1 w w1 -> within k2 T2 w1 w2 -> within (k1 + k2) (T1 + T2) w w2.
Proof. unfold within. lia. Qed.

Lemma within_weaken k1 T1 k2 T2 w w' :
  (k1 <= k2)%nat -> T1 <= T2 -> within k1 T1 w w' -> within k2 T2 w w'.
Proof. unfold within. lia. Qed.

Lemma backoff_total_nonneg maxAttempts attempt remaining :
  0 <= backoff_total maxAttempts attempt remaining.
Proof.
  unfold backoff_total. revert attempt.
  induction remaining as [|n IH]; intros attempt; cbn [seq map foldr]; [lia|].
  specialize (IH (S attempt)). unfold DB_RETRY_DELAY_MS in *.
  destruct (attempt <? maxAttempts)%nat; lia.
Qed.

(** [withRetry] multiplies the cost of its operation by the attempts and adds
    its own waits. *)
Lemma withRetry_loop_within {T} (operation : M T) k W :
  (forall w r w', operation w = (r, w') -> within k W w w') ->
  forall context maxAttempts remaining attempt lastError w r w',
    withRetry_loop operation context maxAttempts remaining attempt lastError w
    = (r, w') ->
    within (remaining * k)
           (Z.of_nat remaining * W + backoff_total maxAttempts attempt remaining)
           w w'.
Proof.
  intros Hop context maxAttempts.
  induction remaining as [|n IH]; intros attempt lastError w r w' H.
  - cbn in H. unfold throw in H. inv_pair H. apply within_refl.
  - cbn [withRetry_loop] in H. unfold try_catch in H.
    destruct (operation w) as [[a|e] w1] eqn:E.
    + inv_pair H. pose proof (Hop _ _ _ E) as Hw.
      pose proof (backoff_total_nonneg maxAttempts attempt (S n)) as Hb.
      eapply within_weaken; [| |exact Hw]; [lia|].
      assert (0 <= W) by (unfold within in Hw; lia). nia.
    + pose proof (Hop _ _ _ E) as Hw.
      rewrite bind_run in H. destruct w1 as [d1 t1 f1 c1 tr1].
      rewrite emit_run in H. rewrite bind_run in H.
      unfold backoff_total. cbn [seq map foldr].
      fold (backoff_total maxAttempts (S attempt) n).
      destruct (attempt <? maxAttempts)%nat.
      * rewrite sleep_run in H. apply IH in H.
        unfold within in *. cbn in *. unfold DB_RETRY_DELAY_MS in *. lia.
      * rewrite ret_run in H. apply IH in H.
        unfold within in *. cbn in *. lia.
Qed.

Lemma round_trip_within w r w' : round_trip w = (r, w') -> within 1 0 w w'.
Proof.
  intros H. apply round_trip_inv in H as (_ & _ & Hc & _ & Hf).
  unfold within. rewrite Hc, Hf. destruct (faults w); cbn; lia.
Qed.

Lemma pool_connect_within w r w' : pool_connect w = (r, w') -> within 1 0 w w'.
Proof.
  unfold pool_connect. rewrite bind_run.
  destruct (round_trip w) as [[[]|e] w1] eqn:E; intros H;
    apply round_trip_within in E.
  - unfold set_txn in H. inv_pair H. exact E.
  - inv_pair H. exact E.
Qed.

Lemma getClient_within w r w' : getClient w = (r, w') -> within 3 3000 w w'.
Proof.
  intros H. unfold getClient, withRetry in H.
  apply (withRetry_loop_within pool_connect 1 0 pool_connect_within) in H.
  exact H.
Qed.

Lemma query_release_within (stmt : Z -> Db -> Db) w r w' :
  finally (client_query stmt) client_release w = (r, w') -> within 1 0 w w'.
Proof.
  unfold finally, client_query. rewrite bind_run.
  destruct (round_trip w) as [[[]|e] w1] eqn:E; intros H;
    apply round_trip_within in E; destruct w1 as [d1 t1 f1 c1 tr1];
    unfold_client; destruct t1; inv_pair H; exact E.
Qed.

Lemma safeQuery_within (stmt : Z -> Db -> Db) w r w' :
  safeQuery stmt w = (r, w') -> within 12 12000 w w'.
Proof.
  intros H. unfold safeQuery, withRetry in H.
  apply (withRetry_loop_within _ 4 3000) in H; [exact H|].
  clear. intros w r w' H. rewrite bind_run in H.
  destruct (getClient w) as [[[]|e] w1] eqn:E; apply getClient_within in E.
  - apply query_release_within in H.
    exact (within_trans _ _ _ _ _ _ _ E H).
  - inv_pair H. eapply within_weaken; [| |exact E]; lia.
Qed.

(** X1: one [safeQuery] makes at most 12 round trips (three attempts, each
    with up to three connection attempts and one statement) and waits at most
    12 seconds in all; the budget is used up when every connection needs its
    third attempt and every statement fails, and the caller then gets the
    error of the last statement wrapped once. *)
Theorem safeQuery_retry_budget :
  forall (stmt : Z -> Db -> Db) (w : World),
    let out := safeQuery stmt w in
    (length (faults w) <= length (faults out.2) + 12)%nat
    /\ clock w <= clock out.2 <= clock w + 12000
    /\ (forall (c1 c2 q1 c3 c4 q2 c5 c6 q3 : string) (rest : list (option string)),
          faults w = [Some c1; Some c2; None; Some q1;
                      Some c3; Some c4; None; Some q2;
                      Some c5; Some c6; None; Some q3] ++ rest ->
          out.1 = Err ("Database query failed after 3 attempts: " +:+ q3)
          /\ faults out.2 = rest
          /\ clock out.2 = clock w + 12000
          /\ db out.2 = db w
          /\ exists evs, trace out.2 = trace w ++ evs
                         /\ sleeps_of evs = [1000; 2000; 1000; 1000; 2000; 2000;
                                             1000; 2000]).
Proof.
  intros stmt w out.
  destruct (safeQuery stmt w) as [r w'] eqn:E. subst out. cbn [fst snd].
  pose proof (safeQuery_within _ _ _ _ E) as [Hk Hc].
  split; [exact Hk|]. split; [exact Hc|].
  intros c1 c2 q1 c3 c4 q2 c5 c6 q3 rest Hf.
  destruct w as [d t f c tr]. cbn in Hf. subst f.
  unfold safeQuery, getClient, withRetry, DB_RETRY_ATTEMPTS in E.
  cbn [withRetry_loop] in E. unfold_client. cbn in E. inv_pair E. cbn.
  split; [reflexivity|]. split; [reflexivity|].
  split; [unfold DB_RETRY_DELAY_MS; lia|]. split; [reflexivity|].
  eexists. split.
  - rewrite <- !(assoc_L (++)). reflexivity.
  - reflexivity.
Qed.

Lemma safeQuery_retry_budget_witness :
  let w := mkWorld (mkDb [] []) None
                   ([Some "c1"; Some "c2"; None; Some "q1";
                     Some "c3"; Some "c4"; None; Some "q2";
                     Some "c5"; Some "c6"; None; Some "q3"] ++ [None]) 0 [] in
  faults w = [Some "c1"; Some "c2"; None; Some "q1";
              Some "c3"; Some "c4"; None; Some "q2";
              Some "c5"; Some "c6"; None; Some "q3"] ++ [None]
  /\ clock (safeQuery (fail_update "a" "boom") w).2 = clock w + 12000.
Proof.
  intros w. split; [reflexivity|].
  apply (proj2 (proj2 (safeQuery_retry_budget (fail_update "a" "boom") w))
           "c1" "c2" "q1" "c3" "c4" "q2" "c5" "c6" "q3" [None] eq_refl).
Defined.

(** ** [deductUserCredit] *)

(** Symbolic execution that leaves the messages alone. *)
Ltac step_faults :=
  repeat (cbn -[tail drop pretty String.append Z.ltb] in *;
          match goal with
          | |- context [head_fault ?f] => destruct (head_fault f)
          | H : context [head_fault ?f] |- _ => destruct (head_fault f)
          | H : context [match select_user ?u ?d with _ => _ end] |- _ =>
              destruct (select_user u d) eqn:?
          | H : context [if ?a <? ?b then _ else _] |- _ => destruct (a <? b) eqn:?
          end).

Lemma deductUserCredit_inv userId w r w' :
  deductUserCredit userId w = (r, w') ->
  match r with
  | Ok _ => exists u us now, select_user userId (db w) = u :: us /\ clock w <= now
                             /\ db w' = debit_update userId 1 now (db w)
  | Err _ => db w' = db w
  end.
Proof.
  unfold deductUserCredit. rewrite bind_run.
  destruct (getClient w) as [[[]|e] w1] eqn:E;
    apply getClient_inv in E as (Hd & Hc & Ht); intros H.
  - apply rollback_release_inv in H as (w2 & Hb & Hd2 & Ht2 & Hc2).
    destruct w1 as [d1 t1 f1 c1 tr1]. cbn in Hd, Hc, Ht. subst d1 t1.
    rewrite Hd2. clear Hd2 Ht2 Hc2.
    unfold_client. step_faults; inv_pair Hb; cbn; eauto 10.
  - inv_pair H. exact Hd.
Qed.

Ltac skip_faults_x Hff :=
  repeat (cbn -[tail drop pretty String.append Z.ltb] in *;
          match goal with
          | |- context [head_fault (drop ?n ?f)] =>
              rewrite (no_faults_head (drop n f)) by (apply no_faults_drop; exact Hff)
          | |- context [head_fault ?f] =>
              rewrite (no_faults_head f) by exact Hff;
              change (tail f) with (tail (drop 0 f))
          | |- context [tail (drop ?n ?f)] => rewrite (tail_drop f n)
          end).

Lemma deductUserCredit_ff_missing userId d t f c tr :
  no_faults f -> select_user userId d = [] ->
  deductUserCredit userId (mkWorld d t f c tr)
  = (Err ("User " +:+ pretty userId +:+ " not found"),
     mkWorld d None (drop 4 f) c tr).
Proof.
  intros Hff Hsel. unfold deductUserCredit.
  rewrite bind_run, getClient_ff by exact Hff.
  unfold_client. skip_faults_x Hff. rewrite Hsel. skip_faults_x Hff.
  reflexivity.
Qed.

Lemma deductUserCredit_ff_trace userId u us d t f c tr :
  no_faults f -> select_user userId d = u :: us ->
  deductUserCredit userId (mkWorld d t f c tr)
  = (Ok tt,
     mkWorld (debit_update userId 1 c d) None (drop 5 f) c
       (tr ++ (if credits u <? 1
               then [EvWarn ("User " +:+ pretty userId
                             +:+ " has insufficient credits ("
                             +:+ pretty (credits u)
                             +:+ "), but video was already rendered")]
               else [])
           ++ [EvLog ("Deducted 1 credit from user " +:+ pretty userId
                      +:+ " (had " +:+ pretty (credits u) +:+ ")")])).
Proof.
  intros Hff Hsel. unfold deductUserCredit.
  rewrite bind_run, getClient_ff by exact Hff.
  unfold_client. skip_faults_x Hff. rewrite Hsel.
  destruct (credits u <? 1); skip_faults_x Hff.
  - rewrite <- (assoc_L (++)). reflexivity.
  - reflexivity.
Qed.

(** X2: [deductUserCredit] debits one credit of a user that exists and
    nothing else: for an unknown user id it throws [User <id> not found] and
    commits nothing; whenever it throws, for whatever reason, the store is as
    before; a balance below 1 only adds a warning, the debit and the call go
    through. *)
Theorem deductUserCredit_needs_user :
  forall (userId : Z) (w : World),
    let out := deductUserCredit userId w in
    (out.1 = Ok tt ->
     exists u us now,
       select_user userId (db w) = u :: us /\ clock w <= now
       /\ db out.2 = debit_update userId 1 now (db w))
    /\ (forall e, out.1 = Err e -> db out.2 = db w)
    /\ (select_user userId (db w) = [] ->
        (exists e, out.1 = Err e) /\ db out.2 = db w
        /\ (fault_free w ->
            out.1 = Err ("User " +:+ pretty userId +:+ " not found")))
    /\ (forall u us,
          fault_free w -> select_user userId (db w) = u :: us ->
          out.1 = Ok tt
          /\ db out.2 = debit_update userId 1 (clock w) (db w)
          /\ trace out.2
             = trace w
               ++ (if credits u <? 1
                   then [EvWarn ("User " +:+ pretty userId
                                 +:+ " has insufficient credits ("
                                 +:+ pretty (credits u)
                                 +:+ "), but video was already rendered")]
                   else [])
               ++ [EvLog ("Deducted 1 credit from user " +:+ pretty userId
                          +:+ " (had " +:+ pretty (credits u) +:+ ")")]).
Proof.
  intros userId w out.
  destruct (deductUserCredit userId w) as [r w'] eqn:E. subst out. cbn [fst snd].
  pose proof (deductUserCredit_inv _ _ _ _ E) as Hinv.
  split; [|split; [|split]].
  - intros ->. exact Hinv.
  - intros e ->. exact Hinv.
  - intros Hsel. destruct r as [[]|e].
    + destruct Hinv as (u & us & now & Hu & _). congruence.
    + split; [eauto|]. split; [exact Hinv|].
      intros Hff. destruct w as [d t f c tr]. cbn in Hsel, Hff.
      rewrite (deductUserCredit_ff_missing _ _ _ _ _ _ Hff Hsel) in E.
      congruence.
  - intros u us Hff Hsel. destruct w as [d t f c tr]. cbn in Hsel, Hff.
    rewrite (deductUserCredit_ff_trace _ _ _ _ _ _ _ _ Hff Hsel) in E.
    inv_pair E. cbn. auto.
Qed.

Lemma deductUserCredit_needs_user_witness :
  let w := mkWorld (mkDb [] [mkUser 7 0 0]) None [] 50 [] in
  fault_free w /\ select_user 8 (db w) = []
  /\ (deductUserCredit 8 w).1 = Err "User 8 not found"
  /\ select_user 7 (db w) = [mkUser 7 0 0]
  /\ db (deductUserCredit 7 w).2 = mkDb [] [mkUser 7 0 50].
Proof.
  intros w.
  assert (fault_free w) as Hff by apply no_faults_nil.
  split; [exact Hff|]. split; [reflexivity|].
  split.
  - apply (proj2 (proj2 (proj1 (proj2 (proj2 (deductUserCredit_needs_user 8 w)))
                           eq_refl)) Hff).
  - split; [reflexivity|].
    apply (proj1 (proj2 (proj2 (proj2 (proj2 (deductUserCredit_needs_user 7 w)))
                           (mkUser 7 0 0) [] Hff eq_refl))).
Defined.

(** ** Writes addressed to a row that does not exist *)

Lemma set_render_jobs_miss (g : Job -> Job) jobId d :
  (forall r, r ∈ render_jobs d -> id r <> jobId) -> set_render_jobs g jobId d = d.
Proof.
  intros H. destruct d as [rows us]. unfold set_render_jobs. cbn in *. f_equal.
  rewrite <- (map_id rows) at 2. apply map_ext_in. intros r Hr.
  apply list_elem_of_In in Hr. destruct (decide (id r = jobId)) as [Heq|]; [|reflexivity].
  destruct (H r Hr Heq).
Qed.

Lemma debit_update_miss userId amount now d :
  (forall u, u ∈ users d -> uid u <> userId) -> debit_update userId amount now d = d.
Proof.
  intros H. destruct d as [rows us]. unfold debit_update. cbn in *. f_equal.
  rewrite <- (map_id us) at 2. apply map_ext_in. intros u Hu.
  apply list_elem_of_In in Hu. destruct (decide (uid u = userId)) as [Heq|]; [|reflexivity].
  destruct (H u Hu Heq).
Qed.

Lemma set_render_jobs_hit (g : Job -> Job) jobId d r :
  r ∈ render_jobs d -> id r = jobId -> g r ∈ render_jobs (set_render_jobs g jobId d).
Proof.
  intros Hr Hid. unfold set_render_jobs. cbn.
  apply list_elem_of_In, in_map_iff. exists r. split.
  - destruct (decide (id r = jobId)); [reflexivity|contradiction].
  - apply list_elem_of_In. exact Hr.
Qed.

(** X3: [completeJob] does not look at how many rows its two UPDATEs
    matched. With no failing round trip it succeeds whatever the ids are: for
    a job id that no row has, no job row changes and the user is debited all
    the same; for a user id that no row has, the job is marked completed and
    no balance changes. *)
Theorem completeJob_ignores_missing_rows :
  forall (jobId url : string) (userId amount : Z) (w : World),
    fault_free w ->
    let out := completeJob jobId url userId amount w in
    out.1 = Ok tt
    /\ ((forall r, r ∈ render_jobs (db w) -> id r <> jobId) ->
        render_jobs (db out.2) = render_jobs (db w)
        /\ balance userId (db out.2)
           = (fun c => Z.max (c - amount) 0) <$> balance userId (db w))
    /\ ((forall u, u ∈ users (db w) -> uid u <> userId) ->
        users (db out.2) = users (db w)
        /\ forall r, r ∈ render_jobs (db w) -> id r = jobId ->
                     complete_row url (clock w) r ∈ render_jobs (db out.2)).
Proof.
  intros jobId url userId amount w Hff out.
  destruct w as [d t f c tr]. cbn in Hff. subst out.
  rewrite (completeJob_ff _ _ _ _ _ _ _ _ _ Hff). cbn [fst snd db clock].
  split; [reflexivity|]. split.
  - intros Hmiss. rewrite (set_render_jobs_miss _ _ _ Hmiss : complete_update _ _ _ d = d).
    split; [reflexivity|]. apply balance_debit.
  - intros Hmiss. rewrite debit_update_miss by exact Hmiss.
    split; [reflexivity|]. intros r Hr Hid.
    exact (set_render_jobs_hit _ _ _ _ Hr Hid).
Qed.

Lemma completeJob_ignores_missing_rows_witness :
  let w := mkWorld (mkDb [mkJob "j1" rendering None 7 0 None None 1 (Some 2) None]
                         [mkUser 7 10 0]) None [] 50 [] in
  fault_free w
  /\ (forall r, r ∈ render_jobs (db w) -> id r <> "gone")
  /\ render_jobs (db (completeJob "gone" "renders/gone.mp4" 7 4 w).2)
     = render_jobs (db w)
  /\ balance 7 (db (completeJob "gone" "renders/gone.mp4" 7 4 w).2) = Some 6.
Proof.
  intros w.
  assert (fault_free w) as Hff by apply no_faults_nil.
  assert (forall r, r ∈ render_jobs (db w) -> id r <> "gone") as Hmiss.
  { intros r Hr. cbn in Hr. apply list_elem_of_singleton in Hr. subst r. discriminate. }
  split; [exact Hff|]. split; [exact Hmiss|].
  exact (proj1 (proj2 (completeJob_ignores_missing_rows
                         "gone" "renders/gone.mp4" 7 4 w Hff)) Hmiss).
Defined.

(** ** [failJob] *)

Lemma substring_length n s :
  String.length (String.substring 0 n s) = Nat.min n (String.length s).
Proof.
  revert s. induction n as [|n IH]; intros s.
  - destruct s; reflexivity.
  - destruct s as [|ch s]; [reflexivity|]. cbn. f_equal. apply IH.
Qed.

Lemma substring_prefix n s :
  exists rest, s = String.substring 0 n s +:+ rest.
Proof.
  revert s. induction n as [|n IH]; intros s.
  - exists s. destruct s; reflexivity.
  - destruct s as [|ch s]; [exists ""; reflexivity|].
    destruct (IH s) as [rest Hrest]. exists rest. cbn [String.substring].
    rewrite Hrest at 1. reflexivity.
Qed.

Lemma substring_short n s :
  (String.length s <= n)%nat -> String.substring 0 n s = s.
Proof.
  revert s. induction n as [|n IH]; intros s Hlen.
  - destruct s; [reflexivity|cbn in Hlen; lia].
  - destruct s as [|ch s]; [reflexivity|]. cbn. f_equal. apply IH. cbn in Hlen. lia.
Qed.

Lemma failJob_ff jobId message d t f c tr :
  no_faults f ->
  failJob jobId message (mkWorld d t f c tr)
  = (Ok tt, mkWorld (fail_update jobId (truncate_error message) c d) None
                    (drop 2 f) c tr).
Proof.
  intros Hff. unfold failJob. cbn zeta. unfold try_catch.
  rewrite safeQuery_ff by exact Hff. reflexivity.
Qed.

(** X4: the error text [failJob] stores is the message cut to at most 1000
    characters: a prefix of the message, the whole message when that is no
    longer than 1000; with no failing round trip exactly the rows with the
    job's id get status [failed] and this text, so an id that no row has
    changes nothing, without an error. *)
Theorem failJob_stores_truncated_message :
  forall (jobId message : string) (w : World),
    let out := failJob jobId message w in
    let stored := truncate_error message in
    String.length stored = Nat.min 1000 (String.length message)
    /\ (exists rest, message = stored +:+ rest)
    /\ ((String.length message <= 1000)%nat -> stored = message)
    /\ (fault_free w ->
        out.1 = Ok tt
        /\ db out.2 = fail_update jobId stored (clock w) (db w)
        /\ trace out.2 = trace w
        /\ (forall r, r ∈ render_jobs (db w) -> id r = jobId ->
              exists r', r' ∈ render_jobs (db out.2)
                         /\ id r' = jobId /\ status r' = failed
                         /\ error r' = Some stored)
        /\ ((forall r, r ∈ render_jobs (db w) -> id r <> jobId) ->
            db out.2 = db w)).
Proof.
  intros jobId message w out stored. subst out stored.
  split; [apply substring_length|]. split; [apply substring_prefix|].
  split; [apply substring_short|].
  intros Hff. destruct w as [d t f c tr]. cbn in Hff.
  rewrite (failJob_ff _ _ _ _ _ _ _ Hff). cbn [fst snd db clock trace].
  split; [reflexivity|]. split; [reflexivity|]. split; [reflexivity|]. split.
  - intros r Hr Hid. exists (fail_row (truncate_error message) r).
    split; [exact (set_render_jobs_hit _ _ _ _ Hr Hid)|]. cbn. auto.
  - intros Hmiss. exact (set_render_jobs_miss _ _ _ Hmiss).
Qed.

Lemma failJob_stores_truncated_message_witness :
  let w := mkWorld (mkDb [mkJob "j1" rendering None 7 0 None None 1 (Some 2) None]
                         [mkUser 7 10 0]) None [] 50 [] in
  (String.length "render crashed" <= 1000)%nat
  /\ truncate_error "render crashed" = "render crashed"
  /\ fault_free w
  /\ db (failJob "j1" "render crashed" w).2
     = mkDb [mkJob "j1" failed None 7 0 None (Some "render crashed") 1 (Some 2)
                   None]
            [mkUser 7 10 0].
Proof.
  intros w.
  assert (String.length "render crashed" <= 1000)%nat as Hlen by (cbn; lia).
  assert (fault_free w) as Hff by apply no_faults_nil.
  pose proof (failJob_stores_truncated_message "j1" "render crashed" w) as H.
  cbn zeta in H. destruct H as (_ & _ & Hshort & Hrun).
  split; [exact Hlen|]. split; [exact (Hshort Hlen)|]. split; [exact Hff|].
  destruct (Hrun Hff) as (_ & Hdb & _). rewrite Hdb, (Hshort Hlen). reflexivity.
Defined.

(** X5: when the store cannot be reached, [failJob] gives up after the nine
    connection attempts of its three query attempts, logs the failure as
    critical and returns normally: the caller is not told, and the job row
    stays as it was. In general a failed write never makes [failJob] throw
    and is logged exactly once. *)
Theorem failJob_swallows_store_outage :
  forall (jobId message : string) (w : World),
    let out := failJob jobId message w in
    (forall e w1,
        safeQuery (fail_update jobId (truncate_error message)) w = (Err e, w1) ->
        out.1 = Ok tt /\ db out.2 = db w
        /\ trace out.2
           = trace w1 ++ [EvError ("CRITICAL: Failed to mark job " +:+ jobId
                                   +:+ " as failed: " +:+ e)])
    /\ (forall (c1 c2 c3 c4 c5 c6 c7 c8 c9 : string) (rest : list (option string)),
          faults w = [Some c1; Some c2; Some c3; Some c4; Some c5; Some c6;
                      Some c7; Some c8; Some c9] ++ rest ->
          out.1 = Ok tt /\ db out.2 = db w /\ faults out.2 = rest
          /\ clock out.2 = clock w + 12000
          /\ last (trace out.2)
             = Some (EvError ("CRITICAL: Failed to mark job " +:+ jobId
                              +:+ " as failed: Database query failed after 3 "
                              +:+ "attempts: Database connection failed after 3 "
                              +:+ "attempts: " +:+ c9))).
Proof.
  intros jobId message w out. subst out. split.
  - intros e w1 E. unfold failJob. cbn zeta. unfold try_catch. rewrite E.
    apply safeQuery_inv in E. destruct w1 as [d1 t1 f1 c1 tr1]. cbn in E.
    rewrite emit_run. cbn. auto.
  - intros c1 c2 c3 c4 c5 c6 c7 c8 c9 rest Hf.
    destruct w as [d t f c tr]. cbn in Hf. subst f.
    unfold failJob, safeQuery, getClient, withRetry, DB_RETRY_ATTEMPTS.
    cbn zeta. cbn [withRetry_loop]. unfold_client.
    cbn -[pretty String.append truncate_error].
    split; [reflexivity|]. split; [reflexivity|]. split; [reflexivity|].
    split; [unfold DB_RETRY_DELAY_MS; lia|].
    rewrite last_snoc. reflexivity.
Qed.

Lemma failJob_swallows_store_outage_witness :
  let w := mkWorld (mkDb [mkJob "j1" rendering None 7 0 None None 1 (Some 2) None]
                         [])
                   None
                   ([Some "a"; Some "b"; Some "c"; Some "d"; Some "e"; Some "f";
                     Some "g"; Some "h"; Some "ECONNREFUSED"] ++ []) 50 [] in
  faults w = [Some "a"; Some "b"; Some "c"; Some "d"; Some "e"; Some "f";
              Some "g"; Some "h"; Some "ECONNREFUSED"] ++ []
  /\ (failJob "j1" "boom" w).1 = Ok tt
  /\ db (failJob "j1" "boom" w).2 = db w.
Proof.
  intros w. split; [reflexivity|].
  pose proof (proj2 (failJob_swallows_store_outage "j1" "boom" w)
                "a" "b" "c" "d" "e" "f" "g" "h" "ECONNREFUSED" [] eq_refl) as H.
  destruct H as (H1 & H2 & _). split; [exact H1|exact H2].
Defined.

(** ** The amount charged *)

Lemma credits_scaled (info : VideoInfo) :
  (0 < fps info)%Q ->
  (durationInFrames info / fps info / 60 * 2 * (30 * fps info)
   == durationInFrames info)%Q.
Proof.
  intros Hfps. field. intros H0. rewrite H0 in Hfps. exact (Qlt_irrefl 0 Hfps).
Qed.

(** For a positive frame rate and a duration that is not negative the
    amount is not negative. *)
Lemma creditsToDeduct_nonneg (info : VideoInfo) :
  (0 < fps info)%Q -> (0 <= durationInFrames info)%Q -> 0 <= creditsToDeduct info.
Proof.
  intros Hfps Hframes. unfold creditsToDeduct. cbn zeta.
  set (x := (durationInFrames info / fps info / 60 * 2)%Q).
  assert (0 < 30 * fps info)%Q as Hz.
  { rewrite <- (Qmult_0_r 30). apply Qmult_lt_l; [reflexivity|exact Hfps]. }
  pose proof (credits_scaled info Hfps) as Hx. fold x in Hx.
  assert (0 <= x)%Q as Hx0.
  { apply (Qmult_le_r _ _ _ Hz). rewrite Qmult_0_l, Hx. exact Hframes. }
  change 0 with (Qceiling 0). apply Qceiling_resp_le. exact Hx0.
Qed.

(** ** [processJob] when everything works *)

Lemma renderJob_ff job env d t f c tr :
  no_faults f -> composition env = Ok tt -> render_outcome env = Ok tt ->
  exists t' n,
    renderJob job env (mkWorld d t f c tr)
    = (Ok (TEMP_DIR +:+ "/" +:+ id job +:+ ".mp4"),
       mkWorld (apply_writes (id job) c
                  (issued_writes (progress_events env) throttle_start) d)
               t' (drop n f) c tr).
Proof.
  intros Hff Hc Hr. unfold renderJob, renderMedia, lift_result. cbn zeta.
  rewrite bind_run, Hc, !bind_run.
  destruct (run_progress_ff (id job) (progress_events env) throttle_start
              d t f c tr Hff) as (t' & n & ->).
  rewrite Hr, ret_run. eauto.
Qed.

Lemma users_apply_writes jobId now ws d :
  users (apply_writes jobId now ws d) = users d.
Proof.
  unfold apply_writes. revert d. induction ws as [|x ws IH]; intros d; [reflexivity|].
  cbn [foldl]. rewrite IH. reflexivity.
Qed.

Lemma ids_apply_writes jobId now ws d r :
  r ∈ render_jobs d ->
  exists r', r' ∈ render_jobs (apply_writes jobId now ws d) /\ id r' = id r.
Proof.
  unfold apply_writes. revert d r. induction ws as [|x ws IH]; intros d r Hr.
  - exists r. auto.
  - cbn [foldl].
    assert ((if decide (id r = jobId) then progress_row x.2 r else r)
            ∈ render_jobs (progress_update jobId x.2 now d)) as Hr'.
    { unfold progress_update, set_render_jobs. cbn.
      apply list_elem_of_In, in_map_iff. exists r.
      split; [reflexivity|apply list_elem_of_In; exact Hr]. }
    destruct (IH _ _ Hr') as (r' & Hin & Hid). exists r'. split; [exact Hin|].
    rewrite Hid. destruct (decide (id r = jobId)); reflexivity.
Qed.

Lemma balance_debit_other userId other amount now d :
  userId <> other ->
  balance userId (debit_update other amount now d) = balance userId d.
Proof.
  intros Hne. unfold balance, select_user, debit_update. cbn. f_equal. f_equal.
  induction (users d) as [|u us IH]; [reflexivity|]. cbn [map].
  rewrite !filter_cons.
  destruct (decide (uid u = other)) as [Heq|Hn].
  - cbn [uid debit_row].
    destruct (decide (uid u = userId)); [congruence|]. exact IH.
  - destruct (decide (uid u = userId)); [f_equal|]; exact IH.
Qed.

Lemma balance_apply_writes userId jobId now ws d :
  balance userId (apply_writes jobId now ws d) = balance userId d.
Proof.
  unfold balance, select_user. rewrite users_apply_writes. reflexivity.
Qed.

Lemma processJob_ff job env info d t f c tr :
  no_faults f ->
  composition env = Ok tt -> render_outcome env = Ok tt -> upload env = Ok tt ->
  input_props job = Some info ->
  exists t' n,
    processJob job env (mkWorld d t f c tr)
    = (Ok tt,
       mkWorld
         (debit_update (user_id job) (creditsToDeduct info) c
            (complete_update (id job) ("renders/" +:+ id job +:+ ".mp4") c
               (apply_writes (id job) c
                  (issued_writes (progress_events env) throttle_start) d)))
         t' (drop n f) c
         (tr ++ [EvLog ("Starting render " +:+ id job);
                 EvLog ("Uploading " +:+ id job);
                 EvLog ("Job " +:+ id job +:+ " completed and "
                        +:+ pretty (creditsToDeduct info)
                        +:+ " credits deducted from user "
                        +:+ pretty (user_id job));
                 EvLog ("Completed " +:+ id job);
                 match unlink env with
                 | Ok _ => EvLog ("Cleaned up " +:+ TEMP_DIR +:+ "/" +:+ id job
                                  +:+ ".mp4")
                 | Err m => EvLog ("Could not clean up "
                                   +:+ (TEMP_DIR +:+ "/" +:+ id job +:+ ".mp4")
                                   +:+ ": " +:+ m)
                 end])).
Proof.
  intros Hff Hc Hr Hu Hinfo. unfold processJob.
  rewrite bind_run, emit_run, bind_run. unfold attempt.
  destruct (renderJob_ff job env d t f c (tr ++ [EvLog ("Starting render " +:+ id job)])
              Hff Hc Hr) as (t1 & n1 & ->).
  cbn zeta. unfold finally, try_catch.
  rewrite bind_run. unfold lift_result at 1.
  rewrite bind_run, emit_run.
  unfold uploadToStorage, lift_result. rewrite !bind_run, Hu, ret_run, Hinfo.
  rewrite bind_run.
  rewrite completeJob_ff by (apply no_faults_drop; exact Hff).
  rewrite emit_run.
  rewrite bool_decide_eq_false_2 by discriminate.
  unfold cleanupFile.
  exists None, (n1 + 5)%nat. rewrite drop_drop.
  destruct (unlink env) as [[]|m]; rewrite emit_run;
    rewrite <- !(assoc_L (++)); reflexivity.
Qed.

(** X7: when the composition is found, the render and the upload succeed,
    the job carries a [videoInfo] with a positive frame rate and a duration
    that is not negative, and no round trip fails, [processJob] returns
    normally with the job's row completed (progress 1, output
    [renders/<id>.mp4], whatever progress writes went before) and the owner
    debited once, by an amount that is not negative, floored at zero; no
    other balance changes. Which amount it is, is left open here: the code
    computes it in floating point. The console lines of the model (the one
    with the formatted duration is not part of it) are start, upload,
    billing with that amount, completion and cleanup, in this order. *)
Theorem processJob_completes_and_charges :
  forall (job : Job) (env : JobEnv) (info : VideoInfo) (w : World),
    fault_free w ->
    composition env = Ok tt -> render_outcome env = Ok tt -> upload env = Ok tt ->
    input_props job = Some info ->
    (0 < fps info)%Q -> (0 <= durationInFrames info)%Q ->
    let out := processJob job env w in
    let url := "renders/" +:+ id job +:+ ".mp4" in
    out.1 = Ok tt
    /\ (forall r, r ∈ render_jobs (db w) -> id r = id job ->
          exists r', r' ∈ render_jobs (db out.2)
                     /\ id r' = id job /\ status r' = completed
                     /\ (progress r' == 1)%Q /\ output_url r' = Some url
                     /\ completed_at r' = Some (clock w))
    /\ (forall r', r' ∈ render_jobs (db out.2) -> id r' = id job ->
                   status r' = completed)
    /\ (forall userId, userId <> user_id job ->
                       balance userId (db out.2) = balance userId (db w))
    /\ exists amount : Z,
         0 <= amount
         /\ db out.2
            = debit_update (user_id job) amount (clock w)
                (complete_update (id job) url (clock w)
                   (apply_writes (id job) (clock w)
                      (issued_writes (progress_events env) throttle_start) (db w)))
         /\ balance (user_id job) (db out.2)
            = (fun c => Z.max (c - amount) 0) <$> balance (user_id job) (db w)
         /\ trace out.2
            = trace w
              ++ [EvLog ("Starting render " +:+ id job);
                  EvLog ("Uploading " +:+ id job);
                  EvLog ("Job " +:+ id job +:+ " completed and "
                         +:+ pretty amount
                         +:+ " credits deducted from user " +:+ pretty (user_id job));
                  EvLog ("Completed " +:+ id job);
                  match unlink env with
                  | Ok _ => EvLog ("Cleaned up " +:+ TEMP_DIR +:+ "/" +:+ id job
                                   +:+ ".mp4")
                  | Err m => EvLog ("Could not clean up "
                                    +:+ (TEMP_DIR +:+ "/" +:+ id job +:+ ".mp4")
                                    +:+ ": " +:+ m)
                  end].
Proof.
  intros job env info w Hff Hc Hr Hu Hinfo Hfps Hframes out url. subst out url.
  destruct w as [d t f c tr]. cbn in Hff.
  destruct (processJob_ff job env info d t f c tr Hff Hc Hr Hu Hinfo)
    as (t' & n & ->).
  cbn [fst snd db clock trace].
  split; [reflexivity|]. split; [|split; [|split]].
  - intros r Hr0 Hid.
    destruct (ids_apply_writes (id job) c
                (issued_writes (progress_events env) throttle_start) d r Hr0)
      as (r1 & Hin1 & Hid1).
    exists (complete_row ("renders/" +:+ id job +:+ ".mp4") c r1).
    split.
    + apply (set_render_jobs_hit _ _ _ _ Hin1). congruence.
    + cbn. split; [congruence|]. repeat split; reflexivity.
  - intros r' Hr' Hid. exact (complete_update_status _ _ _ _ _ _ _ Hr' Hid).
  - intros userId Hne. rewrite balance_debit_other by exact Hne.
    unfold complete_update.
    rewrite balance_set_render_jobs, balance_apply_writes. reflexivity.
  - exists (creditsToDeduct info).
    split; [exact (creditsToDeduct_nonneg info Hfps Hframes)|].
    split; [reflexivity|]. split; [|reflexivity].
    rewrite balance_debit. unfold complete_update.
    rewrite balance_set_render_jobs, balance_apply_writes. reflexivity.
Qed.

Lemma processJob_completes_and_charges_witness :
  let job := mkJob "a" rendering (Some (mkVideoInfo 1801 30)) 1 0 None None 20
                   (Some 21) None in
  let env := mkJobEnv (Ok tt) [(1000000, (1 # 2)%Q)] (Ok tt) (Ok tt) (Ok tt) in
  let w := mkWorld (mkDb [job] [mkUser 1 2 0; mkUser 2 9 0]) None [] 100 [] in
  fault_free w
  /\ composition env = Ok tt /\ render_outcome env = Ok tt /\ upload env = Ok tt
  /\ input_props job = Some (mkVideoInfo 1801 30)
  /\ (0 < fps (mkVideoInfo 1801 30))%Q
  /\ (0 <= durationInFrames (mkVideoInfo 1801 30))%Q
  /\ (processJob job env w).1 = Ok tt
  /\ balance 2 (db (processJob job env w).2) = Some 9
  /\ exists amount, 0 <= amount
                    /\ balance 1 (db (processJob job env w).2)
                       = Some (Z.max (2 - amount) 0).
Proof.
  intros job env w.
  assert (fault_free w) as Hff by apply no_faults_nil.
  assert (0 < fps (mkVideoInfo 1801 30))%Q as Hfps by reflexivity.
  assert (0 <= durationInFrames (mkVideoInfo 1801 30))%Q as Hframes
    by (cbn; discriminate).
  pose proof (processJob_completes_and_charges job env (mkVideoInfo 1801 30) w
                Hff eq_refl eq_refl eq_refl eq_refl Hfps Hframes) as H.
  cbn zeta in H. destruct H as (Hok & _ & _ & Ho & amount & Hpos & _ & Hb & _).
  split; [exact Hff|]. do 4 (split; [reflexivity|]).
  split; [exact Hfps|]. split; [exact Hframes|]. split; [exact Hok|].
  split.
  - exact (eq_trans (Ho 2 ltac:(discriminate)) eq_refl).
  - exists amount. split; [exact Hpos|]. exact (eq_trans Hb eq_refl).
Defined.

(** ** [processJob] when a collaborator fails *)

Lemma failure_handler_ff jobId e d t f c tr :
  no_faults f ->
  (emit (EvError ("Failed " +:+ jobId +:+ " " +:+ e));; failJob jobId e)
    (mkWorld d t f c tr)
  = (Ok tt, mkWorld (fail_update jobId (truncate_error e) c d) None (drop 2 f) c
                    (tr ++ [EvError ("Failed " +:+ jobId +:+ " " +:+ e)])).
Proof.
  intros Hff. rewrite bind_run, emit_run. apply failJob_ff. exact Hff.
Qed.

Lemma processJob_ff_failure job env e d t f c tr :
  no_faults f -> first_failure job env = Some e ->
  exists t' n tr',
    processJob job env (mkWorld d t f c tr)
    = (Ok tt,
       mkWorld (fail_update (id job) (truncate_error e) c
                  (apply_writes (id job) c (job_writes env) d))
               t' (drop n f) c
               (tr ++ EvLog ("Starting render " +:+ id job) :: tr'))
    /\ EvError ("Failed " +:+ id job +:+ " " +:+ e) ∈ tr'.
Proof.
  intros Hff Hfail. unfold first_failure, job_writes in *. unfold processJob.
  rewrite bind_run, emit_run, bind_run. unfold attempt.
  destruct (composition env) as [[]|ec] eqn:Hc.
  - destruct (render_outcome env) as [[]|er] eqn:Hr.
    + destruct (renderJob_ff job env d t f c
                  (tr ++ [EvLog ("Starting render " +:+ id job)]) Hff Hc Hr)
        as (t1 & n1 & ->).
      cbn zeta. unfold finally, try_catch at 1.
      rewrite bind_run. unfold lift_result at 1.
      rewrite bind_run, emit_run.
      unfold uploadToStorage, lift_result. rewrite !bind_run.
      destruct (upload env) as [[]|eu] eqn:Hu.
      * rewrite ret_run.
        destruct (input_props job) as [info|] eqn:Hinfo; [discriminate Hfail|].
        injection Hfail as <-. unfold throw.
        rewrite failure_handler_ff by (apply no_faults_drop; exact Hff).
        rewrite bool_decide_eq_false_2 by discriminate.
        unfold cleanupFile.
        destruct (unlink env) as [[]|m]; rewrite emit_run;
          eexists None, (n1 + 2)%nat, _; rewrite drop_drop, <- !(assoc_L (++));
          (split; [reflexivity|]); cbn; set_solver.
      * injection Hfail as <-.
        rewrite failure_handler_ff by (apply no_faults_drop; exact Hff).
        rewrite bool_decide_eq_false_2 by discriminate.
        unfold cleanupFile.
        destruct (unlink env) as [[]|m]; rewrite emit_run;
          eexists None, (n1 + 2)%nat, _; rewrite drop_drop, <- !(assoc_L (++));
          (split; [reflexivity|]); cbn; set_solver.
    + injection Hfail as <-.
      unfold renderJob, renderMedia, lift_result. cbn zeta.
      rewrite bind_run, Hc, !bind_run.
      destruct (run_progress_ff (id job) (progress_events env) throttle_start
                  d t f c (tr ++ [EvLog ("Starting render " +:+ id job)]) Hff)
        as (t1 & n1 & ->).
      rewrite Hr. cbn zeta. unfold finally, try_catch at 1.
      rewrite bind_run.
      rewrite failure_handler_ff by (apply no_faults_drop; exact Hff).
      rewrite bool_decide_eq_true_2 by reflexivity. rewrite ret_run.
      eexists None, (n1 + 2)%nat, _. rewrite drop_drop, <- !(assoc_L (++)).
      split; [reflexivity|]. cbn. set_solver.
  - injection Hfail as <-.
    unfold renderJob, lift_result. cbn zeta. rewrite bind_run, Hc.
    cbn zeta. unfold finally, try_catch at 1.
    rewrite bind_run.
    rewrite failure_handler_ff by exact Hff.
    rewrite bool_decide_eq_true_2 by reflexivity. rewrite ret_run.
    eexists None, 2%nat, _. rewrite <- !(assoc_L (++)).
    split; [reflexivity|]. cbn. set_solver.
Qed.

Lemma with_progress_fields ws r :
  id (with_progress ws r) = id r
  /\ status (with_progress ws r) = status r
  /\ input_props (with_progress ws r) = input_props r
  /\ user_id (with_progress ws r) = user_id r
  /\ created_at (with_progress ws r) = created_at r
  /\ started_at (with_progress ws r) = started_at r
  /\ output_url (with_progress ws r) = output_url r
  /\ error (with_progress ws r) = error r
  /\ completed_at (with_progress ws r) = completed_at r.
Proof.
  unfold with_progress. revert r. induction ws as [|x ws IH]; intros r; [auto 10|].
  cbn [foldl]. destruct (IH (progress_row x.2 r)) as (?&?&?&?&?&?&?&?&?).
  cbn in *. auto 10.
Qed.

Lemma set_render_jobs_other (g : Job -> Job) jobId d r :
  r ∈ render_jobs d -> id r <> jobId -> r ∈ render_jobs (set_render_jobs g jobId d).
Proof.
  intros Hr Hid. unfold set_render_jobs. cbn.
  apply list_elem_of_In, in_map_iff. exists r. split.
  - destruct (decide (id r = jobId)); [contradiction|reflexivity].
  - apply list_elem_of_In. exact Hr.
Qed.

Lemma apply_writes_row jobId now ws : forall d r,
  r ∈ render_jobs d ->
  (id r = jobId -> with_progress ws r ∈ render_jobs (apply_writes jobId now ws d))
  /\ (id r <> jobId -> r ∈ render_jobs (apply_writes jobId now ws d)).
Proof.
  unfold apply_writes, with_progress.
  induction ws as [|x ws IH]; intros d r Hr; [auto|]. cbn [foldl]. split.
  - intros Hid.
    apply (IH (progress_update jobId x.2 now d) (progress_row x.2 r));
      [exact (set_render_jobs_hit _ _ _ _ Hr Hid)|exact Hid].
  - intros Hid.
    apply (IH (progress_update jobId x.2 now d) r);
      [exact (set_render_jobs_other _ _ _ _ Hr Hid)|exact Hid].
Qed.

(** X8: when a collaborator fails and no round trip does, [processJob]
    records the first failure: the job's row gets status [failed] and, cut
    to 1000 characters, the message of the first of composition, render,
    upload and reading the [videoInfo] that failed; the console has the
    failure; the users table is as before; what the later steps would have
    done is not done. *)
Theorem processJob_records_first_failure :
  forall (job : Job) (env : JobEnv) (e : string) (w : World),
    fault_free w -> first_failure job env = Some e ->
    let out := processJob job env w in
    out.1 = Ok tt
    /\ db out.2 = fail_update (id job) (truncate_error e) (clock w)
                    (apply_writes (id job) (clock w) (job_writes env) (db w))
    /\ users (db out.2) = users (db w)
    /\ (forall r, r ∈ render_jobs (db w) -> id r = id job ->
          exists r', r' ∈ render_jobs (db out.2) /\ id r' = id job
                     /\ status r' = failed /\ error r' = Some (truncate_error e)
                     /\ output_url r' = output_url r
                     /\ completed_at r' = completed_at r)
    /\ (forall r, r ∈ render_jobs (db w) -> id r <> id job ->
                  r ∈ render_jobs (db out.2))
    /\ EvError ("Failed " +:+ id job +:+ " " +:+ e) ∈ trace out.2.
Proof.
  intros job env e w Hff Hfail out. subst out. destruct w as [d t f c tr].
  cbn in Hff.
  destruct (processJob_ff_failure job env e d t f c tr Hff Hfail)
    as (t' & n & tr' & -> & Hev).
  cbn [fst snd db clock trace].
  split; [reflexivity|]. split; [reflexivity|]. split; [|split; [|split]].
  - unfold fail_update. cbn. apply users_apply_writes.
  - intros r Hr Hid.
    destruct (apply_writes_row (id job) c (job_writes env) d r Hr) as [Hhit _].
    specialize (Hhit Hid).
    destruct (with_progress_fields (job_writes env) r)
      as (Hi & _ & _ & _ & _ & _ & Ho & _ & Hc).
    exists (fail_row (truncate_error e) (with_progress (job_writes env) r)).
    split; [apply (set_render_jobs_hit _ _ _ _ Hhit); congruence|].
    cbn. repeat split; congruence.
  - intros r Hr Hid.
    destruct (apply_writes_row (id job) c (job_writes env) d r Hr) as [_ Hmiss].
    exact (set_render_jobs_other _ _ _ _ (Hmiss Hid) Hid).
  - apply elem_of_app. right. right. exact Hev.
Qed.

Lemma processJob_records_first_failure_witness :
  let job := mkJob "a" rendering (Some (mkVideoInfo 1800 30)) 1 0 None None 20
                   (Some 21) None in
  let env := mkJobEnv (Ok tt) [(1000000, (1 # 2)%Q)] (Err "GPU out of memory")
                      (Err "upload refused") (Ok tt) in
  let w := mkWorld (mkDb [job] [mkUser 1 3 0]) None [] 100 [] in
  fault_free w /\ first_failure job env = Some "GPU out of memory"
  /\ db (processJob job env w).2
     = mkDb [mkJob "a" failed (Some (mkVideoInfo 1800 30)) 1 (50 # 100) None
                   (Some "GPU out of memory") 20 (Some 21) None]
            [mkUser 1 3 0].
Proof.
  intros job env w.
  assert (fault_free w) as Hff by apply no_faults_nil.
  split; [exact Hff|]. split; [reflexivity|].
  rewrite (proj1 (proj2 (processJob_records_first_failure job env
                           "GPU out of memory" w Hff eq_refl))).
  reflexivity.
Defined.

(** ** One job from claim to end *)






(** ** Which calls attempt a cleanup *)

Lemma cleanups_app evs1 evs2 : cleanups (evs1 ++ evs2) = cleanups evs1 ++ cleanups evs2.
Proof. unfold cleanups. apply filter_app. Qed.

Lemma quiet_same w w' : trace w' = trace w -> quiet w w'.
Proof. intros H. exists []. rewrite H, app_nil_r. auto. Qed.

Lemma quiet_trans w w1 w2 : quiet w w1 -> quiet w1 w2 -> quiet w w2.
Proof.
  intros (e1 & H1 & C1) (e2 & H2 & C2). exists (e1 ++ e2).
  rewrite H2, H1, cleanups_app, C1, C2, (assoc_L (++)). auto.
Qed.

Lemma Quiet_ret {A} (a : A) : Quiet (ret a).
Proof. intros w r w' H. inv_pair H. apply quiet_same. reflexivity. Qed.

Lemma Quiet_mret {A} (a : A) : Quiet (mret a).
Proof. apply Quiet_ret. Qed.

Lemma Quiet_throw {A} e : Quiet (@throw A e).
Proof. intros w r w' H. inv_pair H. apply quiet_same. reflexivity. Qed.

Lemma Quiet_lift_result {A} (r : Result A) : Quiet (lift_result r).
Proof. intros w r0 w' H. inv_pair H. apply quiet_same. reflexivity. Qed.

Lemma Quiet_emit e : is_cleanup e = false -> Quiet (emit e).
Proof.
  intros He w r w' H. unfold emit in H. inv_pair H. exists [e]. split; [reflexivity|].
  unfold cleanups. rewrite filter_cons. destruct (decide (is_cleanup e = true)); [congruence|].
  reflexivity.
Qed.

Lemma Quiet_sleep ms : Quiet (sleep ms).
Proof.
  intros w r w' H. unfold sleep in H. inv_pair H. exists [EvSleep ms].
  split; reflexivity.
Qed.

Lemma Quiet_round_trip : Quiet round_trip.
Proof.
  intros w r w' H. apply round_trip_inv in H as (_ & _ & _ & Ht & _).
  apply quiet_same. exact Ht.
Qed.

Lemma Quiet_set_txn t : Quiet (set_txn t).
Proof. intros w r w' H. unfold set_txn in H. inv_pair H. apply quiet_same. reflexivity. Qed.

Lemma Quiet_open_txn : Quiet open_txn.
Proof.
  intros w r w' H. unfold open_txn in H. destruct (txn w); inv_pair H;
    apply quiet_same; reflexivity.
Qed.

Lemma Quiet_commit_txn : Quiet commit_txn.
Proof.
  intros w r w' H. unfold commit_txn in H. destruct (txn w); inv_pair H;
    apply quiet_same; reflexivity.
Qed.

Lemma Quiet_apply_stmt stmt : Quiet (apply_stmt stmt).
Proof.
  intros w r w' H. unfold apply_stmt in H. destruct (txn w); inv_pair H;
    apply quiet_same; reflexivity.
Qed.

Lemma Quiet_read_view {A} (read : Db -> A) : Quiet (read_view read).
Proof. intros w r w' H. unfold read_view in H. inv_pair H. apply quiet_same. reflexivity. Qed.

Lemma Quiet_bind {A B} (m : M A) (k : A -> M B) :
  Quiet m -> (forall a, Quiet (k a)) -> Quiet (m ≫= k).
Proof.
  intros Hm Hk w r w' H. rewrite bind_run in H.
  destruct (m w) as [[a|e] w1] eqn:E.
  - exact (quiet_trans _ _ _ (Hm _ _ _ E) (Hk a _ _ _ H)).
  - inv_pair H. exact (Hm _ _ _ E).
Qed.

Lemma Quiet_try_catch {A} (m : M A) (h : string -> M A) :
  Quiet m -> (forall e, Quiet (h e)) -> Quiet (try_catch m h).
Proof.
  intros Hm Hh w r w' H. unfold try_catch in H.
  destruct (m w) as [[a|e] w1] eqn:E.
  - inv_pair H. exact (Hm _ _ _ E).
  - exact (quiet_trans _ _ _ (Hm _ _ _ E) (Hh e _ _ _ H)).
Qed.

Lemma Quiet_finally {A} (m : M A) (f : M unit) :
  Quiet m -> Quiet f -> Quiet (finally m f).
Proof.
  intros Hm Hf w r w' H. unfold finally in H.
  destruct (m w) as [r1 w1] eqn:E. destruct (f w1) as [[[]|e] w2] eqn:E2;
    inv_pair H; exact (quiet_trans _ _ _ (Hm _ _ _ E) (Hf _ _ _ E2)).
Qed.

Lemma Quiet_catch_ignore (m : M unit) : Quiet m -> Quiet (catch_ignore m).
Proof.
  intros Hm. unfold catch_ignore. apply Quiet_try_catch; [exact Hm|].
  intros e. apply Quiet_ret.
Qed.

Lemma Quiet_withRetry_loop {T} (operation : M T) context maxAttempts
    remaining attempt lastError :
  Quiet operation ->
  Quiet (withRetry_loop operation context maxAttempts remaining attempt lastError).
Proof.
  intros Hop. revert attempt lastError.
  induction remaining as [|n IH]; intros attempt lastError.
  - cbn. apply Quiet_throw.
  - cbn [withRetry_loop]. apply Quiet_try_catch; [exact Hop|].
    intros e. apply Quiet_bind; [apply Quiet_emit; reflexivity|]. intros _.
    apply Quiet_bind.
    + destruct (attempt <? maxAttempts)%nat; [apply Quiet_sleep|apply Quiet_ret].
    + intros _. apply IH.
Qed.

Ltac quiet_step :=
  first [ apply Quiet_bind; [|intros ?]
        | apply Quiet_try_catch; [|intros ?]
        | apply Quiet_finally
        | apply Quiet_catch_ignore
        | apply Quiet_withRetry_loop
        | apply Quiet_round_trip
        | apply Quiet_set_txn
        | apply Quiet_open_txn
        | apply Quiet_commit_txn
        | apply Quiet_apply_stmt
        | apply Quiet_read_view
        | apply Quiet_sleep
        | apply Quiet_lift_result
        | apply Quiet_throw
        | apply Quiet_ret
        | apply Quiet_mret
        | apply Quiet_emit; reflexivity ].

Ltac quiet_client :=
  unfold getClient, withRetry, pool_connect, client_release, query_begin,
    query_commit, query_rollback, query_set_timeout, client_query, client_select;
  repeat quiet_step.

Lemma Quiet_getClient : Quiet getClient.
Proof. quiet_client. Qed.

Lemma Quiet_safeQuery stmt : Quiet (safeQuery stmt).
Proof. unfold safeQuery. quiet_client. Qed.

Lemma Quiet_completeJob jobId url userId amount :
  Quiet (completeJob jobId url userId amount).
Proof. unfold completeJob. quiet_client. Qed.

Lemma Quiet_failJob jobId message : Quiet (failJob jobId message).
Proof. unfold failJob. cbn zeta. quiet_client. Qed.

Lemma Quiet_onProgress jobId now progress st : Quiet (onProgress jobId now progress st).
Proof.
  unfold onProgress. cbn zeta. destruct (should_write _ _ _); [|apply Quiet_ret].
  unfold safeQuery. quiet_client.
Qed.

Lemma Quiet_run_progress jobId events st : Quiet (run_progress jobId events st).
Proof.
  revert st. induction events as [|[now progress] events IH]; intros st.
  - apply Quiet_ret.
  - cbn [run_progress]. apply Quiet_bind; [apply Quiet_onProgress|]. intros st'. apply IH.
Qed.

Lemma Quiet_renderJob job env : Quiet (renderJob job env).
Proof.
  unfold renderJob, renderMedia. cbn zeta.
  repeat first [apply Quiet_run_progress | quiet_step].
Qed.

Lemma Quiet_uploadToStorage jobId env : Quiet (uploadToStorage jobId env).
Proof. unfold uploadToStorage. repeat quiet_step. Qed.

(** X10: [processJob] attempts the cleanup of the rendered file exactly when
    [renderJob] returned it, once, as its last step: also when the upload,
    the billing or the write of the failure went wrong, whatever round trips
    fail. When the composition or the render fails there is no file and no
    cleanup is attempted. *)
Theorem processJob_cleans_up_what_it_rendered :
  forall (job : Job) (env : JobEnv) (w : World),
    let out := processJob job env w in
    let path := TEMP_DIR +:+ "/" +:+ id job +:+ ".mp4" in
    exists evs,
      trace out.2 = trace w ++ evs
      /\ match composition env, render_outcome env with
         | Ok _, Ok _ =>
             exists evs0,
               evs = evs0
                     ++ [match unlink env with
                         | Ok _ => EvLog ("Cleaned up " +:+ path)
                         | Err m => EvLog ("Could not clean up " +:+ path
                                           +:+ ": " +:+ m)
                         end]
               /\ cleanups evs0 = []
         | _, _ => cleanups evs = []
         end.
Proof.
  intros job env w out path. subst out path. unfold processJob.
  rewrite bind_run.
  destruct (emit (EvLog ("Starting render " +:+ id job)) w) as [r0 w0] eqn:E0.
  assert (quiet w w0) as Q0
    by (exact (Quiet_emit (EvLog ("Starting render " +:+ id job)) eq_refl _ _ _ E0)).
  unfold emit in E0. inv_pair E0.
  set (w0 := mkWorld (db w) _ _ _ _) in *. clearbody w0.
  rewrite bind_run. unfold attempt.
  destruct (renderJob job env w0) as [r1 w1] eqn:E1.
  pose proof (Quiet_renderJob _ _ _ _ _ E1) as Q1.
  apply renderJob_inv in E1 as [_ Hr1]. cbn zeta.
  pose proof (quiet_trans _ _ _ Q0 Q1) as Q01. clear Q0 Q1 w0.
  unfold finally.
  match goal with
  | |- context [try_catch ?b ?h w1] =>
      destruct (try_catch b h w1) as [r2 w2] eqn:E2;
      assert (Quiet (try_catch b h)) as Q2
  end.
  { apply Quiet_try_catch.
    - repeat first [apply Quiet_uploadToStorage | quiet_step].
      destruct (input_props job);
        repeat first [apply Quiet_completeJob | quiet_step].
    - intros e. repeat first [apply Quiet_failJob | quiet_step]. }
  apply Q2 in E2. pose proof (quiet_trans _ _ _ Q01 E2) as (evs0 & Ht & Hc).
  clear Q2 E2 Q01.
  destruct (composition env) as [[]|ec]; [destruct (render_outcome env) as [[]|er]|];
    subst r1.
  - rewrite bool_decide_eq_false_2 by discriminate.
    unfold cleanupFile.
    destruct (unlink env) as [[]|m]; destruct w2 as [d2 t2 f2 c2 tr2];
      rewrite emit_run; cbn [fst snd trace] in *; subst tr2;
      (eexists; split; [rewrite <- (assoc_L (++)); reflexivity|]);
      exists evs0; auto.
  - rewrite bool_decide_eq_true_2 by reflexivity. rewrite ret_run.
    cbn [snd]. exists evs0. auto.
  - rewrite bool_decide_eq_true_2 by reflexivity. rewrite ret_run.
    cbn [snd]. exists evs0. auto.
Qed.

(** ** The worker loop: capacity and lifetime *)

Lemma drain_iterate_frame k s :
  activeRenders (drain_iterate k s) = activeRenders s
  /\ loop (drain_iterate k s) = loop s.
Proof. unfold drain_iterate. destruct (0 <? activeRenders s)%nat; auto. Qed.

Lemma shutdown_frame s :
  activeRenders (shutdown s) = activeRenders s
  /\ loop (shutdown s) = loop s
  /\ shuttingDown (shutdown s) = true
  /\ claim_attempts (shutdown s) = claim_attempts s.
Proof.
  unfold shutdown. cbn zeta.
  match goal with
  | |- context [drain_iterate ?k ?x] =>
      destruct (drain_iterate_frame k x) as [-> ->];
      destruct (drain_iterate_flag k x) as [-> ->]
  end.
  repeat split.
  apply (claim_attempts_app (history s) (LogSetTimeout (wnow s) FORCE_EXIT_MS));
    [reflexivity|discriminate].
Qed.

Lemma process_exit_claims code s :
  claim_attempts (process_exit code s) = claim_attempts s.
Proof.
  apply (claim_attempts_app (history s) (LogExit code)); [reflexivity|discriminate].
Qed.

Lemma wcap_frame mp s s' :
  activeRenders s' = activeRenders s -> loop s' = loop s ->
  (shuttingDown s = true -> shuttingDown s' = true) ->
  claim_attempts s' = claim_attempts s ->
  wcap mp s -> wcap mp s'.
Proof.
  intros Ha Hl Hf Hc [H1 H2 H3 H4].
  split; rewrite ?Ha, ?Hl, ?Hc; auto.
Qed.

Lemma wcap_loop_iterate mp s :
  (activeRenders s <= mp)%nat -> wcap mp (loop_iterate mp s).
Proof.
  intros Ha. unfold loop_iterate.
  destruct (shuttingDown s) eqn:Hf; [split; cbn; auto; discriminate|].
  destruct (mp <=? activeRenders s)%nat eqn:Hle.
  - split; cbn; auto; discriminate.
  - apply Nat.leb_gt in Hle. split; cbn; auto; try discriminate.
Qed.

Lemma wcap_step mp ev s : wcap mp s -> wcap mp (wstep mp ev s).
Proof.
  intros Hs. unfold wstep. destruct (exited s); [exact Hs|].
  destruct ev as [t ev]. cbn [fst snd].
  assert (wcap mp (advance t s)) as Hs0
    by (apply (wcap_frame mp s); auto).
  set (s0 := advance t s) in *. clearbody s0. clear Hs.
  destruct ev as [healthy| |outcome| | | |k|k ok|k].
  - destruct (loop s0) eqn:Hl; try exact Hs0.
    destruct healthy.
    + apply wcap_loop_iterate. apply Hs0.
    + apply (wcap_frame mp s0); auto. apply process_exit_claims.
  - destruct (loop s0) eqn:Hl; try exact Hs0.
    apply wcap_loop_iterate. apply Hs0.
  - destruct (loop s0) eqn:Hl; try exact Hs0.
    destruct outcome.
    + apply wcap_loop_iterate. cbn. apply (wcap_claiming _ _ Hs0 Hl).
    + destruct Hs0 as [H1 H2 H3 H4]. split; cbn; auto; discriminate.
    + destruct Hs0 as [H1 H2 H3 H4]. split; cbn; auto; discriminate.
  - destruct (activeRenders s0) as [|n] eqn:Ha; [exact Hs0|].
    destruct Hs0 as [H1 H2 H3 H4]. split; cbn; auto.
    + lia.
    + intros Hl. specialize (H2 Hl). lia.
    + intros Hl. destruct (H4 Hl) as [_ H0]. lia.
  - destruct (shutdown_frame s0) as (Ha & Hl & Hf & Hc).
    apply (wcap_frame mp s0); auto.
  - exact Hs0.
  - destruct (shutdowns s0 !! k) as [[|]|]; try exact Hs0.
    destruct (drain_iterate_frame k s0) as [Ha Hl].
    destruct (drain_iterate_flag k s0) as [Hf Hc].
    apply (wcap_frame mp s0); auto. congruence.
  - destruct (shutdowns s0 !! k) as [[|]|]; try exact Hs0.
    match goal with
    | |- wcap mp (process_exit 0 ?x) =>
        apply (wcap_frame mp x); auto; [apply process_exit_claims|]
    end.
    destruct Hs0 as [H1 H2 H3 H4]. split; auto.
    intros Hl. destruct (H4 Hl) as [Hc Ha]. split; [|exact Ha].
    rewrite <- Hc. unfold claim_attempts. cbn [history].
    rewrite filter_app, length_app, filter_cons, filter_nil.
    rewrite decide_False by (destruct ok; discriminate). cbn. lia.
  - destruct (timers s0 !! k) as [deadline|]; try exact Hs0.
    destruct (deadline <=? wnow s0); try exact Hs0.
    apply (wcap_frame mp s0); auto. apply process_exit_claims.
Qed.

Lemma wcap_init mp : wcap mp winit.
Proof. split; cbn; auto; try discriminate. lia. Qed.

Lemma wcap_run mp evs s : wcap mp s -> wcap mp (wrun mp evs s).
Proof.
  revert s. induction evs as [|ev evs IH]; intros s Hs; [exact Hs|].
  cbn [wrun foldl]. apply IH, wcap_step, Hs.
Qed.

Lemma wstep_active mp ev s :
  activeRenders (wstep mp ev s) = activeRenders s
  \/ (ev.2 = JobFinished /\ activeRenders s = S (activeRenders (wstep mp ev s)))
  \/ (ev.2 = ClaimDone ClaimedJob /\ loop s = LoopClaiming /\ exited s = None
      /\ activeRenders (wstep mp ev s) = S (activeRenders s)).
Proof.
  unfold wstep. destruct (exited s); [auto|].
  destruct ev as [t ev]. cbn [fst snd].
  assert (forall x, activeRenders (loop_iterate mp x) = activeRenders x) as Hloop.
  { intros x. unfold loop_iterate.
    destruct (shuttingDown x); [reflexivity|].
    destruct (mp <=? activeRenders x)%nat; reflexivity. }
  assert (activeRenders (advance t s) = activeRenders s) as Ha by reflexivity.
  assert (loop (advance t s) = loop s) as Hl by reflexivity.
  rewrite <- Ha, <- Hl. set (s0 := advance t s). clearbody s0. clear Ha Hl.
  destruct ev as [healthy| |outcome| | | |k|k ok|k].
  - destruct (loop s0); auto. destruct healthy; [rewrite Hloop|]; auto.
  - destruct (loop s0); auto.
  - destruct (loop s0) eqn:Hl; auto.
    destruct outcome; auto. rewrite Hloop. right. right. auto.
  - destruct (activeRenders s0) eqn:Ha; auto.
  - left. apply shutdown_frame.
  - auto.
  - destruct (shutdowns s0 !! k) as [[|]|]; auto.
    left. apply drain_iterate_frame.
  - destruct (shutdowns s0 !! k) as [[|]|]; auto.
  - destruct (timers s0 !! k) as [deadline|]; auto.
    destruct (deadline <=? wnow s0); auto.
Qed.

(** A step that calls [getNextJob] leaves the loop inside that call. *)
Lemma wstep_claims mp ev s :
  claim_attempts (wstep mp ev s) = claim_attempts s
  \/ (claim_attempts (wstep mp ev s) = S (claim_attempts s)
      /\ loop (wstep mp ev s) = LoopClaiming).
Proof.
  unfold wstep. destruct (exited s); [auto|].
  destruct ev as [t ev]. cbn [fst snd].
  assert (claim_attempts (advance t s) = claim_attempts s) as Hca by reflexivity.
  rewrite <- Hca. set (s0 := advance t s). clearbody s0.
  assert (forall x, claim_attempts (loop_iterate mp x) = claim_attempts x
                    \/ (claim_attempts (loop_iterate mp x) = S (claim_attempts x)
                        /\ loop (loop_iterate mp x) = LoopClaiming)) as Hloop.
  { intros x. unfold loop_iterate.
    destruct (shuttingDown x); [auto|].
    destruct (mp <=? activeRenders x)%nat; [auto|]. right. split; [|reflexivity].
    unfold claim_attempts. cbn [history set_loop log].
    rewrite filter_app, length_app, filter_cons, filter_nil.
    rewrite decide_True by reflexivity. cbn. lia. }
  destruct ev as [healthy| |outcome| | | |k|k ok|k].
  - destruct (loop s0); auto. destruct healthy; [apply Hloop|].
    left. apply process_exit_claims.
  - destruct (loop s0); auto.
  - destruct (loop s0); auto. destruct outcome; auto.
    exact (Hloop (set_active _ s0)).
  - destruct (activeRenders s0); auto.
  - left. apply shutdown_frame.
  - auto.
  - destruct (shutdowns s0 !! k) as [[|]|]; auto. left. apply drain_iterate_flag.
  - destruct (shutdowns s0 !! k) as [[|]|]; auto. left.
    rewrite process_exit_claims. unfold claim_attempts. cbn [history].
    rewrite filter_app, length_app, filter_cons, filter_nil.
    rewrite decide_False by (destruct ok; discriminate). cbn. lia.
  - destruct (timers s0 !! k) as [deadline|]; auto.
    destruct (deadline <=? wnow s0); auto. left. apply process_exit_claims.
Qed.

(** X11: the worker never has more than [MAX_PARALLEL] renders under way.
    The counter goes up only when a claim has returned a job, by one, and
    [getNextJob] is called only with the counter below the limit, which a
    claim under way keeps so. *)
Theorem workerLoop_respects_max_parallel :
  forall (maxParallel : nat) (evs : list (Z * WEvent)),
    let s := wrun maxParallel evs winit in
    (activeRenders s <= maxParallel)%nat
    /\ (loop s = LoopClaiming -> (activeRenders s < maxParallel)%nat)
    /\ (forall ev,
          (activeRenders s < activeRenders (wstep maxParallel ev s))%nat ->
          ev.2 = ClaimDone ClaimedJob /\ loop s = LoopClaiming
          /\ activeRenders (wstep maxParallel ev s) = S (activeRenders s))
    /\ (forall ev,
          claim_attempts (wstep maxParallel ev s) <> claim_attempts s ->
          (activeRenders (wstep maxParallel ev s) < maxParallel)%nat).
Proof.
  intros mp evs s.
  pose proof (wcap_run mp evs winit (wcap_init mp)) as Hs. fold s in Hs.
  split; [apply Hs|]. split; [apply Hs|]. split.
  - intros ev Hlt.
    destruct (wstep_active mp ev s) as [H|[[_ H]|(H1 & H2 & _ & H3)]]; try lia.
    auto.
  - intros ev Hne.
    destruct (wstep_claims mp ev s) as [H|[_ Hl]]; [contradiction|].
    exact (wcap_claiming _ _ (wcap_step mp ev s Hs) Hl).
Qed.

Lemma workerLoop_respects_max_parallel_witness :
  let s := wrun 2 [(0, Boot true); (1, ClaimDone ClaimedJob)] winit in
  loop s = LoopClaiming /\ (activeRenders s < 2)%nat
  /\ activeRenders (wstep 2 (2, ClaimDone ClaimedJob) s) = 2%nat
  /\ loop (wstep 2 (2, ClaimDone ClaimedJob) s) = LoopSleeping.
Proof.
  intros s.
  assert (loop s = LoopClaiming) as Hl by reflexivity.
  split; [exact Hl|].
  split; [exact (proj1 (proj2 (workerLoop_respects_max_parallel 2
                                 [(0, Boot true); (1, ClaimDone ClaimedJob)])) Hl)|].
  split; reflexivity.
Defined.

Lemma wrun_exited mp evs s code : exited s = Some code -> wrun mp evs s = s.
Proof.
  intros He. induction evs as [|ev evs IH]; [reflexivity|].
  cbn [wrun foldl]. unfold wstep at 2. rewrite He. exact IH.
Qed.

Lemma wrun_app mp evs1 evs2 s :
  wrun mp (evs1 ++ evs2) s = wrun mp evs2 (wrun mp evs1 s).
Proof. unfold wrun. apply foldl_app. Qed.

(** X12: [workerLoop] ends only through the shutdown flag. A call of
    [getNextJob] that throws or finds nothing puts the loop to sleep, and
    when it wakes up it calls [getNextJob] again. *)
Theorem workerLoop_ends_only_on_shutdown :
  forall (maxParallel : nat) (evs : list (Z * WEvent)),
    let s := wrun maxParallel evs winit in
    (loop s = LoopExited -> shuttingDown s = true)
    /\ (forall (t t' : Z) (outcome : ClaimOutcome),
          exited s = None -> shuttingDown s = false -> loop s = LoopClaiming ->
          outcome <> ClaimedJob ->
          let s1 := wstep maxParallel (t, ClaimDone outcome) s in
          let s2 := wstep maxParallel (t', Wake) s1 in
          loop s1 = LoopSleeping /\ exited s1 = None
          /\ loop s2 = LoopClaiming
          /\ claim_attempts s2 = S (claim_attempts s)).
Proof.
  intros mp evs s.
  pose proof (wcap_run mp evs winit (wcap_init mp)) as Hs. fold s in Hs.
  split; [apply Hs|].
  intros t t' outcome He Hf Hl Hne s1 s2.
  pose proof (wcap_claiming _ _ Hs Hl) as Hlt.
  assert (s1 = set_loop LoopSleeping (advance t s)) as E1.
  { subst s1. unfold wstep. rewrite He. cbn [fst snd].
    change (loop (advance t s)) with (loop s). rewrite Hl.
    destruct outcome; [contradiction|reflexivity|reflexivity]. }
  assert (s2 = set_loop LoopClaiming (log LogClaimAttempt (advance t' s1))) as E2.
  { subst s2. unfold wstep. rewrite E1. cbn [exited set_loop advance fst snd loop].
    rewrite He. unfold loop_iterate.
    change (shuttingDown (advance t' (set_loop LoopSleeping (advance t s))))
      with (shuttingDown s).
    change (activeRenders (advance t' (set_loop LoopSleeping (advance t s))))
      with (activeRenders s).
    rewrite Hf. apply Nat.leb_gt in Hlt. rewrite Hlt. reflexivity. }
  rewrite E2, E1. cbn [loop exited set_loop advance log].
  split; [reflexivity|]. split; [exact He|]. split; [reflexivity|].
  unfold claim_attempts.
  change (history (set_loop LoopClaiming
                     (log LogClaimAttempt
                        (advance t' (set_loop LoopSleeping (advance t s))))))
    with (history s ++ [LogClaimAttempt]).
  rewrite filter_app, length_app, filter_cons, filter_nil.
  rewrite decide_True by reflexivity. cbn. lia.
Qed.

Lemma workerLoop_ends_only_on_shutdown_witness :
  let s := wrun 4 [(0, Boot true)] winit in
  exited s = None /\ shuttingDown s = false /\ loop s = LoopClaiming
  /\ ClaimError <> ClaimedJob
  /\ claim_attempts (wstep 4 (3100, Wake) (wstep 4 (100, ClaimDone ClaimError) s))
     = 2%nat.
Proof.
  intros s.
  assert (ClaimError <> ClaimedJob) as Hne by discriminate.
  split; [reflexivity|]. split; [reflexivity|]. split; [reflexivity|].
  split; [exact Hne|].
  exact (proj2 (proj2 (proj2
           (proj2 (workerLoop_ends_only_on_shutdown 4 [(0, Boot true)])
              100 3100 ClaimError eq_refl eq_refl eq_refl Hne)))).
Defined.

(** X13: a claim that is under way when the signal comes is not waited
    for. With no render active the shutdown goes straight to [pool.end()];
    if [getNextJob] then returns a job, the job is dispatched and counted,
    the loop ends without another claim, and when the pool has closed the
    process exits with code 0 all the same, with one render active. *)
Theorem shutdown_can_abandon_a_claimed_job :
  forall (maxParallel : nat) (evs : list (Z * WEvent)) (t1 t2 t3 : Z),
    let s := wrun maxParallel evs winit in
    exited s = None -> loop s = LoopClaiming -> activeRenders s = 0%nat ->
    let k := length (shutdowns s) in
    let s' := wrun maxParallel [(t1, Signal); (t2, ClaimDone ClaimedJob);
                                (t3, PoolEndSettled k true)] s in
    exited s' = Some 0 /\ activeRenders s' = 1%nat /\ loop s' = LoopExited
    /\ pool_closed s' = true
    /\ claim_attempts s' = claim_attempts s.
Proof.
  intros mp evs t1 t2 t3 s He Hl Ha k s'. subst s'. clearbody s.
  destruct s as [sd ar lp sh tm pc ex now hist]. cbn in He, Hl, Ha, k.
  subst ex lp ar k. cbn [wrun foldl].
  set (sh1 := <[length sh := ShClosingPool]> (sh ++ [ShWaiting])).
  set (h1 := (hist ++ [LogSetTimeout (Z.max now t1) FORCE_EXIT_MS])
             ++ [LogPoolEnd 0]).
  assert (wstep mp (t1, Signal)
            (mkWState sd 0 LoopClaiming sh tm pc None now hist)
          = mkWState true 0 LoopClaiming sh1
                     (tm ++ [Z.max now t1 + FORCE_EXIT_MS]) pc None
                     (Z.max now t1) h1) as E1 by reflexivity.
  rewrite E1.
  assert (wstep mp (t2, ClaimDone ClaimedJob)
            (mkWState true 0 LoopClaiming sh1
                      (tm ++ [Z.max now t1 + FORCE_EXIT_MS]) pc None
                      (Z.max now t1) h1)
          = mkWState true 1 LoopExited sh1
                     (tm ++ [Z.max now t1 + FORCE_EXIT_MS]) pc None
                     (Z.max (Z.max now t1) t2) h1) as E2 by reflexivity.
  rewrite E2.
  assert (sh1 !! length sh = Some ShClosingPool) as Hk.
  { apply list_lookup_insert_eq. rewrite length_app. cbn. lia. }
  unfold wstep. cbn [exited fst snd advance shutdowns]. rewrite Hk.
  cbn [process_exit exited activeRenders loop pool_closed history shuttingDown
       shutdowns timers wnow].
  split; [reflexivity|]. split; [reflexivity|]. split; [reflexivity|].
  split; [apply orb_true_r|].
  unfold claim_attempts.
  cbn [process_exit advance history shuttingDown activeRenders loop shutdowns
       timers pool_closed exited wnow].
  subst h1. rewrite !filter_app, !length_app, !filter_cons, !filter_nil.
  rewrite !decide_False by discriminate. cbn. lia.
Qed.

Lemma shutdown_can_abandon_a_claimed_job_witness :
  let s := wrun 4 [(0, Boot true)] winit in
  exited s = None /\ loop s = LoopClaiming /\ activeRenders s = 0%nat
  /\ activeRenders (wrun 4 [(5, Signal); (6, ClaimDone ClaimedJob);
                            (7, PoolEndSettled (length (shutdowns s)) true)] s)
     = 1%nat.
Proof.
  intros s.
  split; [reflexivity|]. split; [reflexivity|]. split; [reflexivity|].
  exact (proj1 (proj2 (shutdown_can_abandon_a_claimed_job
                         4 [(0, Boot true)] 5 6 7 eq_refl eq_refl eq_refl))).
Defined.

(** ** Health check *)

Lemma healthCheck_run d t f c tr :
  healthCheck (mkWorld d t f c tr)
  = match head_fault f with
    | Some _ => (Ok false, mkWorld d t (tail f) c tr)
    | None =>
        match head_fault (tail f) with
        | Some _ => (Ok false, mkWorld d None (tail (tail f)) c tr)
        | None => (Ok true, mkWorld d None (tail (tail f)) c tr)
        end
    end.
Proof.
  unfold healthCheck, pool_select. unfold_client.
  cbn -[tail]. destruct (head_fault f); [reflexivity|].
  cbn -[tail]. destruct (head_fault (tail f)); reflexivity.
Qed.

(** X14: [healthCheck] never throws and writes nothing; it answers [true]
    exactly when both the connection and the query go through. When it
    answers [false] while [main] is still starting, the process exits with
    code 1 and [getNextJob] has never been called, whatever happens
    next. *)
Theorem failed_health_check_exits_before_any_claim :
  forall (w : World),
    (exists healthy,
        (healthCheck w).1 = Ok healthy
        /\ db (healthCheck w).2 = db w
        /\ (healthy = true
            <-> head_fault (faults w) = None
                /\ head_fault (tail (faults w)) = None))
    /\ (forall (maxParallel : nat) (before after : list (Z * WEvent)) (t : Z),
          (healthCheck w).1 = Ok false ->
          loop (wrun maxParallel before winit) = Booting ->
          exited (wrun maxParallel before winit) = None ->
          let s := wrun maxParallel (before ++ (t, boot w) :: after) winit in
          exited s = Some 1 /\ claim_attempts s = 0%nat
          /\ activeRenders s = 0%nat).
Proof.
  intros w. split.
  - destruct w as [d t f c tr]. rewrite healthCheck_run. cbn [faults db].
    destruct (head_fault f) as [m|].
    + exists false. cbn. repeat split; try discriminate. intros [H _]. discriminate.
    + destruct (head_fault (tail f)) as [m|].
      * exists false. cbn. repeat split; try discriminate. intros [_ H]. discriminate.
      * exists true. cbn. repeat split; auto.
  - intros mp before after t Hh Hl He s. subst s.
    rewrite wrun_app. cbn [wrun foldl].
    pose proof (wcap_run mp before winit (wcap_init mp)) as Hs.
    set (s0 := wrun mp before winit) in *.
    fold (wrun mp after (wstep mp (t, boot w) s0)).
    assert (wstep mp (t, boot w) s0 = process_exit 1 (advance t s0)) as E.
    { unfold boot. destruct (healthCheck w) as [[b|e] w1]; cbn in Hh.
      - injection Hh as ->. unfold wstep. rewrite He. cbn [fst snd].
        change (loop (advance t s0)) with (loop s0). rewrite Hl. reflexivity.
      - discriminate. }
    rewrite E. rewrite (wrun_exited mp after _ 1) by reflexivity.
    split; [reflexivity|]. rewrite process_exit_claims.
    destruct (wcap_booting _ _ Hs Hl) as [Hc Ha]. split; [exact Hc|exact Ha].
Qed.

Lemma failed_health_check_exits_before_any_claim_witness :
  let w := mkWorld (mkDb [] []) None [None; Some "ECONNREFUSED"] 0 [] in
  (healthCheck w).1 = Ok false
  /\ loop (wrun 4 [(1, Signal)] winit) = Booting
  /\ exited (wrun 4 [(1, Signal)] winit) = None
  /\ exited (wrun 4 ([(1, Signal)] ++ (2, boot w) :: [(3, Wake)]) winit) = Some 1.
Proof.
  intros w.
  split; [reflexivity|]. split; [reflexivity|]. split; [reflexivity|].
  exact (proj1 (proj2 (failed_health_check_exits_before_any_claim w)
                  4%nat [(1, Signal)] [(3, Wake)] 2 eq_refl eq_refl eq_refl)).
Defined.

(** ** Uncaught exceptions *)

Lemma prefix_spec needle s :
  String.prefix needle s = true <-> exists post, s = needle +:+ post.
Proof.
  revert s. induction needle as [|a needle IH]; intros s.
  - split; [intros _; exists s; reflexivity|intros _; destruct s; reflexivity].
  - destruct s as [|b s].
    + split; [discriminate|]. intros [post H]. discriminate.
    + cbn [String.prefix]. destruct (Ascii.ascii_dec a b) as [->|Hne].
      * rewrite IH. split.
        -- intros [post ->]. exists post. reflexivity.
        -- intros [post H]. injection H as ->. exists post. reflexivity.
      * split; [discriminate|]. intros [post H]. injection H as -> _.
        contradiction.
Qed.

Lemma includes_spec needle s :
  includes needle s = true <-> exists pre post, s = pre +:+ needle +:+ post.
Proof.
  induction s as [|b s IH].
  - cbn [includes]. rewrite orb_false_r, prefix_spec. split.
    + intros [post H]. exists "", post. exact H.
    + intros (pre & post & H). destruct pre as [|c pre]; [|discriminate].
      exists post. exact H.
  - cbn [includes]. rewrite orb_true_iff, prefix_spec, IH. split.
    + intros [[post H]|(pre & post & H)].
      * exists "", post. exact H.
      * exists (String b pre), post. rewrite H. reflexivity.
    + intros (pre & post & H). destruct pre as [|c pre].
      * left. exists post. exact H.
      * right. injection H as -> H. exists pre, post. exact H.
Qed.

(** X15: the [uncaughtException] handler takes an error for a recoverable
    connection error exactly when its message contains one of the four
    markers, anywhere and in this spelling. Such an error leaves the
    shutdown flag, the loop, the count of renders, the shutdowns under way,
    the timers and the exit state as they are; any other, in a process that
    has not exited, sets the shutdown flag and arms the force-exit timer, as
    a signal does. *)
Theorem recoverable_errors_are_only_logged :
  forall (message : string) (maxParallel : nat) (evs : list (Z * WEvent)) (t : Z),
    let s := wrun maxParallel evs winit in
    let s' := wstep maxParallel (t, uncaughtException message) s in
    (isRecoverableConnectionError message = true
     <-> exists pre post,
           message = pre +:+ "Connection terminated unexpectedly" +:+ post
           \/ message = pre +:+ "terminating connection" +:+ post
           \/ message = pre +:+ "ECONNRESET" +:+ post
           \/ message = pre +:+ "EPIPE" +:+ post)
    /\ (isRecoverableConnectionError message = true ->
        shuttingDown s' = shuttingDown s /\ loop s' = loop s
        /\ activeRenders s' = activeRenders s /\ shutdowns s' = shutdowns s
        /\ timers s' = timers s /\ exited s' = exited s
        /\ history s' = history s)
    /\ (isRecoverableConnectionError message = false -> exited s = None ->
        shuttingDown s' = true
        /\ timers s' = timers s ++ [Z.max (wnow s) t + FORCE_EXIT_MS]).
Proof.
  intros message mp evs t s s'. split; [|split].
  - unfold isRecoverableConnectionError.
    rewrite !orb_true_iff, !includes_spec. split.
    + intros [[[(pre & post & H)|(pre & post & H)]|(pre & post & H)]
             |(pre & post & H)]; exists pre, post; auto.
    + intros (pre & post & [H|[H|[H|H]]]); eauto 10.
  - intros Hrec. subst s'. unfold uncaughtException. rewrite Hrec.
    unfold wstep. destruct (exited s) eqn:He; [rewrite He; auto 10|].
    cbn. rewrite He. auto 10.
  - intros Hrec He. subst s'. unfold uncaughtException. rewrite Hrec.
    split; [exact (signal_sets_flag mp t s He)|exact (signal_arms_timer mp t s He)].
Qed.

Lemma recoverable_errors_are_only_logged_witness :
  isRecoverableConnectionError "read ECONNRESET" = true
  /\ isRecoverableConnectionError "econnreset" = false
  /\ exited (wrun 4 [(0, Boot true)] winit) = None
  /\ shuttingDown (wstep 4 (5, uncaughtException "read ECONNRESET")
                     (wrun 4 [(0, Boot true)] winit)) = false
  /\ shuttingDown (wstep 4 (5, uncaughtException "econnreset")
                     (wrun 4 [(0, Boot true)] winit)) = true.
Proof.
  assert (isRecoverableConnectionError "read ECONNRESET" = true) as H1 by reflexivity.
  assert (isRecoverableConnectionError "econnreset" = false) as H2 by reflexivity.
  assert (exited (wrun 4 [(0, Boot true)] winit) = None) as He by reflexivity.
  split; [exact H1|]. split; [exact H2|]. split; [exact He|]. split.
  - rewrite (proj1 (proj1 (proj2 (recoverable_errors_are_only_logged
               "read ECONNRESET" 4 [(0, Boot true)] 5)) H1)).
    reflexivity.
  - exact (proj1 (proj2 (proj2 (recoverable_errors_are_only_logged
               "econnreset" 4 [(0, Boot true)] 5)) H2 He)).
Defined.

Lemma benign_step mp ev s :
  benign ev ->
  shuttingDown s = false /\ exited s = None /\ shutdowns s = [] /\ timers s = [] ->
  let s' := wstep mp ev s in
  shuttingDown s' = false /\ exited s' = None /\ shutdowns s' = [] /\ timers s' = [].
Proof.
  intros [Hsig Hboot] (Hf & He & Hsd & Htm). cbn zeta.
  unfold wstep. rewrite He. destruct ev as [t ev]. cbn [fst snd] in *.
  assert (forall x, shuttingDown x = false /\ exited x = None
                    /\ shutdowns x = [] /\ timers x = [] ->
                    shuttingDown (loop_iterate mp x) = false
                    /\ exited (loop_iterate mp x) = None
                    /\ shutdowns (loop_iterate mp x) = []
                    /\ timers (loop_iterate mp x) = []) as Hloop.
  { intros x (H1 & H2 & H3 & H4). unfold loop_iterate. rewrite H1.
    destruct (mp <=? activeRenders x)%nat; cbn; auto. }
  assert (shuttingDown (advance t s) = false /\ exited (advance t s) = None
          /\ shutdowns (advance t s) = [] /\ timers (advance t s) = []) as H0
    by auto.
  set (s0 := advance t s) in *. clearbody s0.
  destruct H0 as (H1 & H2 & H3 & H4).
  destruct ev as [healthy| |outcome| | | |k|k ok|k].
  - destruct (loop s0); auto. destruct healthy; [apply Hloop; auto|].
    contradiction.
  - destruct (loop s0); auto.
  - destruct (loop s0); auto. destruct outcome; auto.
  - destruct (activeRenders s0); auto.
  - contradiction.
  - auto.
  - rewrite H3. auto.
  - rewrite H3. auto.
  - rewrite H4. auto.
Qed.

(** X16: the worker begins to shut down, or exits, for three reasons only: a
    signal, an uncaught exception that is no recoverable connection error, a
    failed start. While none of these happens the flag stays clear, no
    force-exit timer is armed and the process runs on, whatever claims,
    renders and recoverable errors come. *)
Theorem worker_runs_until_told_to_stop :
  forall (maxParallel : nat) (evs : list (Z * WEvent)),
    (Forall benign evs ->
     let s := wrun maxParallel evs winit in
     shuttingDown s = false /\ exited s = None /\ shutdowns s = []
     /\ timers s = [] /\ loop s <> LoopExited)
    /\ (forall (t : Z) (message : string),
          isRecoverableConnectionError message = true ->
          benign (t, uncaughtException message))
    /\ (forall (t : Z) (outcome : ClaimOutcome),
          benign (t, ClaimDone outcome) /\ benign (t, Wake)
          /\ benign (t, JobFinished) /\ benign (t, Boot true)).
Proof.
  intros mp evs. split; [|split].
  - intros Hall s.
    assert (shuttingDown s = false /\ exited s = None /\ shutdowns s = []
            /\ timers s = []) as H.
    { subst s. generalize winit
        (conj (eq_refl : shuttingDown winit = false)
           (conj (eq_refl : exited winit = None)
              (conj (eq_refl : shutdowns winit = [])
                 (eq_refl : timers winit = [])))).
      induction Hall as [|ev evs Hev Hall IH]; intros s0 H0; [exact H0|].
      cbn [wrun foldl]. apply IH. exact (benign_step mp ev s0 Hev H0). }
    destruct H as (H1 & H2 & H3 & H4). repeat (split; [assumption|]).
    intros Hl.
    pose proof (wcap_exited _ _ (wcap_run mp evs winit (wcap_init mp)) Hl) as Hf.
    fold s in Hf. congruence.
  - intros t message Hrec. unfold benign, uncaughtException. rewrite Hrec.
    split; discriminate.
  - intros t outcome. unfold benign. cbn. repeat split; discriminate.
Qed.

Lemma worker_runs_until_told_to_stop_witness :
  Forall benign [(0, Boot true); (1, ClaimDone ClaimError);
                 (2, uncaughtException "write EPIPE"); (3001, Wake)]
  /\ exited (wrun 4 [(0, Boot true); (1, ClaimDone ClaimError);
                     (2, uncaughtException "write EPIPE"); (3001, Wake)] winit)
     = None.
Proof.
  assert (Forall benign [(0, Boot true); (1, ClaimDone ClaimError);
                         (2, uncaughtException "write EPIPE"); (3001, Wake)]) as H.
  { repeat constructor; discriminate. }
  split; [exact H|].
  exact (proj1 (proj2 (proj1 (worker_runs_until_told_to_stop 4 _) H))).
Defined.

(** ** Consecutive claims *)




(** ** The rate of progress writes *)

Lemma issued_writes_origin events : forall st t v,
  (t, v) ∈ issued_writes events st ->
  exists p, (t, p) ∈ events /\ v = round2 p.
Proof.
  induction events as [|[now p] events IH]; intros st t v H.
  - inversion H.
  - cbn [issued_writes] in H. destruct (should_write now (round2 p) st).
    + apply elem_of_cons in H as [H|H].
      * injection H as -> ->. exists p. split; [left|reflexivity].
      * destruct (IH _ _ _ H) as (p' & Hin & Hv). exists p'. split; [right|]; auto.
    + destruct (IH _ _ _ H) as (p' & Hin & Hv). exists p'. split; [right|]; auto.
Qed.

Lemma issued_writes_spread events st : forall n i ti vi tj vj,
  issued_writes events st !! i = Some (ti, vi) ->
  issued_writes events st !! (i + S n)%nat = Some (tj, vj) ->
  Z.of_nat (S n) * PROGRESS_UPDATE_INTERVAL_MS < tj - ti.
Proof.
  destruct (issued_writes_spaced events st) as [_ Hstep].
  induction n as [|n IH]; intros i ti vi tj vj Hi Hj.
  - replace (i + 1)%nat with (S i) in Hj by lia.
    destruct (Hstep _ _ _ _ _ Hi Hj) as [H _]. lia.
  - replace (i + S (S n))%nat with (S (i + S n)) in Hj by lia.
    destruct (issued_writes events st !! (i + S n)%nat) as [[tm vm]|] eqn:Hm.
    + specialize (IH _ _ _ _ _ Hi Hm).
      destruct (Hstep _ _ _ _ _ Hm Hj) as [H _]. lia.
    + apply lookup_ge_None in Hm. apply lookup_lt_Some in Hj. lia.
Qed.

(** X19: progress writes are rare. Of the writes one render issues, any two
    that are [n] writes apart are more than [n] times 5 seconds apart; so a
    render whose callbacks all come within [D] ms issues at most
    [D / 5000 + 1] writes, however often the renderer calls back. *)
Theorem progress_writes_are_rare :
  forall (events : list (Z * Q)) (st : Throttle),
    let ws := issued_writes events st in
    (forall i j ti vi tj vj,
        (i < j)%nat -> ws !! i = Some (ti, vi) -> ws !! j = Some (tj, vj) ->
        Z.of_nat (j - i) * PROGRESS_UPDATE_INTERVAL_MS < tj - ti)
    /\ (forall lo hi,
          (forall t p, (t, p) ∈ events -> lo <= t <= hi) ->
          ws = [] \/ (Z.of_nat (length ws) - 1) * 5000 <= hi - lo).
Proof.
  intros events st ws. split.
  - intros i j ti vi tj vj Hij Hi Hj.
    replace j with (i + S (j - i - 1))%nat in Hj by lia.
    pose proof (issued_writes_spread events st _ _ _ _ _ _ Hi Hj) as H.
    replace (S (j - i - 1)) with (j - i)%nat in H by lia. exact H.
  - intros lo hi Hin.
    assert (forall t v, (t, v) ∈ ws -> lo <= t <= hi) as Hbound.
    { intros t v Htv.
      destruct (issued_writes_origin events st t v Htv) as (p & Hp & _).
      exact (Hin _ _ Hp). }
    pose proof (issued_writes_spread events st) as Hspread. fold ws in Hspread.
    clearbody ws. clear Hin.
    destruct ws as [|[t1 v1] ws']; [left; reflexivity|right].
    destruct (Hbound t1 v1 ltac:(left)) as [Hlo1 Hhi1].
    destruct ws' as [|w2 ws'']; [cbn; lia|].
    destruct (lookup_lt_is_Some_2 ((t1, v1) :: w2 :: ws'') (S (length ws''))
                ltac:(cbn; lia)) as [[tn vn] Hn].
    destruct (Hbound tn vn (list_elem_of_lookup_2 _ _ _ Hn)) as [_ Hhin].
    pose proof (Hspread (length ws'') 0%nat t1 v1 tn vn eq_refl Hn) as H.
    unfold PROGRESS_UPDATE_INTERVAL_MS in H. cbn [length]. lia.
Qed.

Lemma progress_writes_are_rare_witness :
  let events := [(1000000, (1 # 10)%Q); (1000001, (2 # 10)%Q);
                 (1006000, (1 # 2)%Q); (1012000, (7 # 10)%Q)] in
  (forall t p, (t, p) ∈ events -> 1000000 <= t <= 1012000)
  /\ length (issued_writes events throttle_start) = 3%nat
  /\ (3 - 1) * 5000 <= 1012000 - 1000000.
Proof.
  intros events.
  assert (forall t p, (t, p) ∈ events -> 1000000 <= t <= 1012000) as Hin.
  { intros t p H. subst events.
    repeat (apply elem_of_cons in H as [H|H]; [injection H as -> _; lia|]).
    inversion H. }
  split; [exact Hin|]. split; [reflexivity|].
  destruct (proj2 (progress_writes_are_rare events throttle_start) _ _ Hin)
    as [H|H]; [discriminate H|exact H].
Defined.

(** * The earlier worker, [server/worker.ts] *)

(** X20: when a statement of [getNextJob] fails and the [ROLLBACK] of the
    catch block fails too, the caller of [server/worker.ts] gets the error of
    the [ROLLBACK] and never sees the cause, while the later worker keeps the
    cause and ignores the [ROLLBACK]. Both release the client and leave the
    store as it was. Here the [k]-th statement after the connection (and,
    in the later worker, after the statement timeout) fails with [cause]. *)
Theorem getNextJob_v1_rollback_error_replaces_cause :
  forall (d : Db) (t : option Db) (c : Z) (tr : list Event) (k : nat)
         (cause rollback : string) (rest : list (option string)),
    (k <= 2)%nat ->
    getNextJob_v1
      (mkWorld d t (None :: replicate k None ++ Some cause :: Some rollback :: rest)
               c tr)
    = (Err rollback, mkWorld d None rest c tr)
    /\ getNextJob
         (mkWorld d t (None :: None :: replicate k None
                         ++ Some cause :: Some rollback :: rest) c tr)
       = (Err cause, mkWorld d None rest c tr).
Proof.
  intros d t c tr k cause rollback rest Hk.
  assert (k = 0 \/ k = 1 \/ k = 2)%nat as Hcases by lia.
  destruct Hcases as [Hk0|[Hk0|Hk0]]; subst k.
  - split.
    + unfold getNextJob_v1. unfold_client. reflexivity.
    + unfold getNextJob, getClient, withRetry, DB_RETRY_ATTEMPTS.
      cbn [withRetry_loop]. unfold_client. reflexivity.
  - split.
    + unfold getNextJob_v1. unfold_client. reflexivity.
    + unfold getNextJob, getClient, withRetry, DB_RETRY_ATTEMPTS.
      cbn [withRetry_loop]. unfold_client. reflexivity.
  - split.
    + unfold getNextJob_v1. unfold_client. cbn.
      destruct (select_next_queued no_locks d); reflexivity.
    + unfold getNextJob, getClient, withRetry, DB_RETRY_ATTEMPTS.
      cbn [withRetry_loop]. unfold_client. cbn.
      destruct (select_next_queued no_locks d); reflexivity.
Qed.

Lemma getNextJob_v1_rollback_error_replaces_cause_witness :
  (1 <= 2)%nat
  /\ (getNextJob_v1
        (mkWorld (mkDb [mkJob "a" queued None 1 0 None None 20 None None] [])
                 None
                 (None :: replicate 1 None
                    ++ Some "deadlock detected" :: Some "connection lost" :: [])
                 0 [])).1
     = Err "connection lost".
Proof.
  assert (1 <= 2)%nat as Hk by lia.
  split; [exact Hk|].
  rewrite (proj1 (getNextJob_v1_rollback_error_replaces_cause
                    (mkDb [mkJob "a" queued None 1 0 None None 20 None None] [])
                    None 0 [] 1 "deadlock detected" "connection lost" [] Hk)).
  reflexivity.
Defined.

Lemma pool_query_inv (stmt : Z -> Db -> Db) w r w' :
  pool_query stmt w = (r, w') ->
  clock w' = clock w /\ trace w' = trace w
  /\ match r with
     | Ok _ => db w' = stmt (clock w) (db w)
               /\ head_fault (faults w) = None
               /\ head_fault (tail (faults w)) = None
     | Err e => db w' = db w
                /\ (head_fault (faults w) = Some e
                    \/ head_fault (tail (faults w)) = Some e)
     end.
Proof.
  destruct w as [d t f c tr]. unfold pool_query. unfold_client.
  cbn -[tail]. destruct (head_fault f) eqn:E1.
  - intros H. inv_pair H. cbn. auto.
  - cbn -[tail]. destruct (head_fault (tail f)) eqn:E2;
      intros H; inv_pair H; cbn; auto.
Qed.

(** X21: in [server/worker.ts] completing or failing a job is one statement
    on the pool, without retry and without billing: the users table is never
    touched; the error text is stored as it is, uncut; and if the connection
    or the statement fails, that error reaches the caller and nothing is
    written. *)
Theorem worker_v1_terminal_writes :
  (forall (jobId url : string) (w : World),
      let out := completeJob_v1 jobId url w in
      users (db out.2) = users (db w)
      /\ (out.1 = Ok tt <->
          head_fault (faults w) = None /\ head_fault (tail (faults w)) = None)
      /\ (out.1 = Ok tt -> db out.2 = complete_update jobId url (clock w) (db w))
      /\ (forall e, out.1 = Err e ->
            db out.2 = db w
            /\ (head_fault (faults w) = Some e
                \/ head_fault (tail (faults w)) = Some e)))
  /\ (forall (jobId text : string) (w : World),
        let out := failJob_v1 jobId text w in
        users (db out.2) = users (db w)
        /\ (out.1 = Ok tt ->
            db out.2 = fail_update jobId text (clock w) (db w)
            /\ forall r, r ∈ render_jobs (db w) -> id r = jobId ->
                         fail_row text r ∈ render_jobs (db out.2))
        /\ (forall e, out.1 = Err e ->
              db out.2 = db w
              /\ (head_fault (faults w) = Some e
                  \/ head_fault (tail (faults w)) = Some e))).
Proof.
  split.
  - intros jobId url w out. subst out. unfold completeJob_v1.
    destruct (pool_query (complete_update jobId url) w) as [[[]|e] w'] eqn:E;
      apply pool_query_inv in E as (_ & _ & H); cbn [fst snd].
    + destruct H as (Hd & H1 & H2). rewrite Hd.
      split; [reflexivity|]. split; [tauto|]. split; [auto|]. discriminate.
    + destruct H as (Hd & H1). rewrite Hd. split; [reflexivity|]. split.
      * split; [discriminate|]. intros [Ha Hb]. destruct H1; congruence.
      * split; [discriminate|]. intros e0 He0. injection He0 as ->. auto.
  - intros jobId text w out. subst out. unfold failJob_v1.
    destruct (pool_query (fail_update jobId text) w) as [[[]|e] w'] eqn:E;
      apply pool_query_inv in E as (_ & _ & H); cbn [fst snd].
    + destruct H as (Hd & H1 & H2). rewrite Hd.
      split; [reflexivity|]. split; [|discriminate].
      intros _. split; [reflexivity|]. intros r Hr Hid.
      exact (set_render_jobs_hit _ _ _ _ Hr Hid).
    + destruct H as (Hd & H1). rewrite Hd. split; [reflexivity|].
      split; [discriminate|]. intros e0 He0. injection He0 as ->. auto.
Qed.

Lemma worker_v1_terminal_writes_witness :
  let w := mkWorld (mkDb [mkJob "j1" rendering None 7 0 None None 1 (Some 2) None]
                         [mkUser 7 10 0]) None [None; Some "timeout"] 50 [] in
  (failJob_v1 "j1" "Error: boom" w).1 = Err "timeout"
  /\ db (failJob_v1 "j1" "Error: boom" w).2 = db w.
Proof.
  intros w.
  assert ((failJob_v1 "j1" "Error: boom" w).1 = Err "timeout") as He by reflexivity.
  split; [exact He|].
  exact (proj1 (proj2 (proj2 (proj2 worker_v1_terminal_writes "j1" "Error: boom" w))
                  "timeout" He)).
Defined.

(** ** Worker loop and shutdown of [server/worker.ts] *)

Lemma elem_of_insert_inv {A} (l : list A) k x y :
  x ∈ <[k := y]> l -> x = y \/ x ∈ l.
Proof.
  revert k. induction l as [|a l IH]; intros k H; [inversion H|].
  destruct k as [|k]; cbn in H.
  - apply elem_of_cons in H as [->|H]; [auto|]. right. right. exact H.
  - apply elem_of_cons in H as [->|H]; [right; left|].
    destruct (IH _ H) as [->|H']; [auto|]. right. right. exact H'.
Qed.






Lemma v1_held_up_step mp ev s :
  ev <> WorkerV1.JobFinished -> WorkerV1.held_up s ->
  WorkerV1.held_up (WorkerV1.step mp ev s).
Proof.
  intros Hev (Ha & He & Hc). unfold WorkerV1.step. rewrite He.
  assert (forall x, WorkerV1.held_up x -> WorkerV1.held_up (WorkerV1.loop_iterate mp x))
    as Hloop.
  { intros x Hx. unfold WorkerV1.loop_iterate.
    destruct (WorkerV1.shuttingDown x); [exact Hx|].
    destruct (mp <=? WorkerV1.activeRenders x)%nat; exact Hx. }
  assert (forall k x, WorkerV1.held_up x ->
                      WorkerV1.held_up (WorkerV1.drain_iterate k x)) as Hdrain.
  { intros k x (Hxa & Hxe & Hxc). unfold WorkerV1.drain_iterate.
    apply Nat.ltb_lt in Hxa as Hlt. rewrite Hlt.
    split; [exact Hxa|]. split; [exact Hxe|]. cbn. intros Hin.
    apply elem_of_insert_inv in Hin as [Hin|Hin]; [discriminate|auto]. }
  assert (WorkerV1.held_up s) as Hs by (split; auto).
  destruct ev as [| |outcome| | |k|k ok].
  - destruct (WorkerV1.loop s); try exact Hs. apply Hloop, Hs.
  - destruct (WorkerV1.loop s); try exact Hs. apply Hloop, Hs.
  - destruct (WorkerV1.loop s); try exact Hs.
    destruct outcome; [apply Hloop| |]; split; cbn; auto.
  - contradiction.
  - unfold WorkerV1.shutdown. apply Hdrain. split; [exact Ha|]. split; [exact He|].
    cbn. intros Hin. apply elem_of_app in Hin as [Hin|Hin]; [auto|].
    apply list_elem_of_singleton in Hin. discriminate.
  - destruct (WorkerV1.shutdowns s !! k) as [[| |]|] eqn:Hk; try exact Hs.
    apply Hdrain, Hs.
  - destruct (WorkerV1.shutdowns s !! k) as [[| |]|] eqn:Hk; try exact Hs.
    destruct Hc. exact (list_elem_of_lookup_2 _ _ _ Hk).
Qed.

Lemma v1_held_up_run mp evs : forall s,
  WorkerV1.JobFinished ∉ evs -> WorkerV1.held_up s ->
  WorkerV1.held_up (WorkerV1.run mp evs s).
Proof.
  induction evs as [|ev evs IH]; intros s Hnot Hs; [exact Hs|].
  apply not_elem_of_cons in Hnot as [Hne Hnot].
  cbn [WorkerV1.run foldl]. apply (IH _ Hnot). apply v1_held_up_step; auto.
Qed.



Lemma v1_rejected_step mp ev s :
  WorkerV1.loop s = WorkerV1.LoopRejected ->
  WorkerV1.loop (WorkerV1.step mp ev s) = WorkerV1.LoopRejected
  /\ WorkerV1.claim_attempts (WorkerV1.step mp ev s) = WorkerV1.claim_attempts s.
Proof.
  intros Hl. unfold WorkerV1.step. destruct (WorkerV1.exited s); [auto|].
  assert (forall k x, WorkerV1.loop (WorkerV1.drain_iterate k x) = WorkerV1.loop x
                      /\ WorkerV1.claim_attempts (WorkerV1.drain_iterate k x)
                         = WorkerV1.claim_attempts x) as Hdrain.
  { intros k x. unfold WorkerV1.drain_iterate.
    destruct (0 <? WorkerV1.activeRenders x)%nat; auto. }
  destruct ev as [| |outcome| | |k|k ok]; rewrite ?Hl; auto.
  - destruct (WorkerV1.activeRenders s); auto.
  - unfold WorkerV1.shutdown. destruct (Hdrain (length (WorkerV1.shutdowns s))
      (WorkerV1.mkState true (WorkerV1.activeRenders s) (WorkerV1.loop s)
         (WorkerV1.shutdowns s ++ [WorkerV1.ShWaiting]) (WorkerV1.pool_closed s)
         (WorkerV1.exited s) (WorkerV1.claim_attempts s)
         (WorkerV1.pool_end_calls s) (WorkerV1.unhandled s))) as [-> ->]. auto.
  - destruct (WorkerV1.shutdowns s !! k) as [[| |]|]; auto.
    destruct (Hdrain k s) as [-> ->]. auto.
  - destruct (WorkerV1.shutdowns s !! k) as [[| |]|]; auto. destruct ok; auto.
Qed.

(** X23: in [server/worker.ts] one call of [getNextJob] that throws ends
    the worker loop for good: [workerLoop] is rejected with nobody to handle
    it, the shutdown flag is not set, and [getNextJob] is never called
    again, whatever happens next. *)
Theorem worker_v1_loop_dies_on_failed_claim :
  forall (maxParallel : nat) (evs evs' : list WorkerV1.Event),
    let s := WorkerV1.run maxParallel evs WorkerV1.init in
    WorkerV1.exited s = None -> WorkerV1.loop s = WorkerV1.LoopClaiming ->
    let s1 := WorkerV1.step maxParallel (WorkerV1.ClaimDone ClaimError) s in
    let s2 := WorkerV1.run maxParallel evs' s1 in
    WorkerV1.loop s1 = WorkerV1.LoopRejected
    /\ WorkerV1.shuttingDown s1 = WorkerV1.shuttingDown s
    /\ WorkerV1.unhandled s1 = S (WorkerV1.unhandled s)
    /\ WorkerV1.loop s2 = WorkerV1.LoopRejected
    /\ WorkerV1.claim_attempts s2 = WorkerV1.claim_attempts s.
Proof.
  intros mp evs evs' s He Hl s1 s2.
  assert (WorkerV1.loop s1 = WorkerV1.LoopRejected
          /\ WorkerV1.shuttingDown s1 = WorkerV1.shuttingDown s
          /\ WorkerV1.unhandled s1 = S (WorkerV1.unhandled s)
          /\ WorkerV1.claim_attempts s1 = WorkerV1.claim_attempts s)
    as (H1 & H2 & H3 & H4).
  { subst s1. unfold WorkerV1.step. rewrite He, Hl. cbn. auto. }
  split; [exact H1|]. split; [exact H2|]. split; [exact H3|].
  rewrite <- H4. subst s2. clearbody s1. clear H2 H3 H4.
  revert s1 H1. induction evs' as [|ev evs' IH]; intros s1 H1; [auto|].
  cbn [WorkerV1.run foldl]. fold (WorkerV1.run mp evs' (WorkerV1.step mp ev s1)).
  destruct (v1_rejected_step mp ev s1 H1) as [Hl1 Hc1].
  destruct (IH _ Hl1) as [Hl2 Hc2]. split; [exact Hl2|congruence].
Qed.

Lemma worker_v1_loop_dies_on_failed_claim_witness :
  let s := WorkerV1.run 4 [WorkerV1.Boot] WorkerV1.init in
  WorkerV1.exited s = None /\ WorkerV1.loop s = WorkerV1.LoopClaiming
  /\ WorkerV1.claim_attempts
       (WorkerV1.run 4 [WorkerV1.Wake; WorkerV1.Boot; WorkerV1.ClaimDone NoJob]
                     (WorkerV1.step 4 (WorkerV1.ClaimDone ClaimError) s))
     = 1%nat.
Proof.
  intros s.
  split; [reflexivity|]. split; [reflexivity|].
  exact (proj2 (proj2 (proj2 (proj2
           (worker_v1_loop_dies_on_failed_claim
              4 [WorkerV1.Boot]
              [WorkerV1.Wake; WorkerV1.Boot; WorkerV1.ClaimDone NoJob]
              eq_refl eq_refl))))).
Defined.

(** * The endpoint that creates a job *)

Lemma assoc_cons_eq key v fields : Server.assoc key ((key, v) :: fields) = Some v.
Proof. cbn. rewrite bool_decide_eq_true_2 by reflexivity. reflexivity. Qed.

Lemma assoc_cons_ne key k v fields :
  k <> key -> Server.assoc key ((k, v) :: fields) = Server.assoc key fields.
Proof. intros H. cbn. rewrite bool_decide_eq_false_2 by exact H. reflexivity. Qed.

(** X24: [POST /renders] fills in what the body leaves out. Without a body,
    with a body that is no object and with the empty object the job is
    created from the defaults: style [basic], padding 540, no style
    configurations, no transcript, no video URL, a 0 by 0 video of 0 frames
    at 30 fps. Leaving a field out is the same as sending its default; a
    field sent as [null] is not left out: it is what the job gets as its
    style configurations, and a 400 for every other field. *)
Theorem post_renders_fills_in_defaults :
  let defaults := Server.mkRenderRequest
                    (Server.JStr "basic") (Server.JNum 540) (Server.JObj [])
                    (Server.JArr []) (Server.JStr "") Server.defaultVideoInfo in
  Server.post_renders None = Server.Created defaults
  /\ Server.post_renders (Some (Server.JObj [])) = Server.Created defaults
  /\ (forall v, (forall fields, v <> Server.JObj fields) ->
                Server.post_renders (Some v) = Server.Created defaults)
  /\ (forall fields key value,
        (key, value) ∈ Server.request_defaults ->
        Server.assoc key fields = None ->
        Server.post_renders (Some (Server.JObj fields))
        = Server.post_renders (Some (Server.JObj ((key, value) :: fields))))
  /\ (forall fields key,
        key ∈ ["style"; "captionPadding"; "transcript"; "videoUrl"; "videoInfo"] ->
        Server.assoc key fields = Some Server.JNull ->
        exists message,
          Server.post_renders (Some (Server.JObj fields))
          = Server.BadRequest message)
  /\ (forall fields value data,
        Server.assoc "customStyleConfigs" fields = Some value ->
        Server.post_renders (Some (Server.JObj fields)) = Server.Created data ->
        Server.customStyleConfigs data = value).
Proof.
  cbn zeta. split; [reflexivity|]. split; [reflexivity|]. split; [|split; [|split]].
  - intros v Hv. destruct v as [|b|x|s|items|fields]; try reflexivity.
    + unfold Server.post_renders. cbn [Server.truthy].
      destruct b; reflexivity.
    + unfold Server.post_renders. cbn [Server.truthy].
      destruct (negb (Qeq_bool x 0)); reflexivity.
    + unfold Server.post_renders. cbn [Server.truthy].
      destruct (negb (bool_decide (s = ""))); reflexivity.
    + destruct (Hv fields eq_refl).
  - intros fields key value Hin Hnone. unfold Server.request_defaults in Hin.
    unfold Server.post_renders. cbn [Server.truthy Server.get].
    repeat (apply elem_of_cons in Hin as [Hin|Hin];
            [injection Hin as -> ->;
             rewrite assoc_cons_eq, !assoc_cons_ne by discriminate;
             rewrite Hnone; reflexivity|]).
    inversion Hin.
  - intros fields key Hin Hnull.
    assert (bool_decide (Server.typeof (Some Server.JNull) = Server.TString) = false)
      as E1 by reflexivity.
    assert (bool_decide (Server.typeof (Some Server.JNull) = Server.TNumber) = false)
      as E2 by reflexivity.
    unfold Server.post_renders. cbn [Server.truthy Server.get].
    repeat (apply elem_of_cons in Hin as [Hin|Hin];
            [subst key; rewrite Hnull;
             unfold default; cbn [from_option Datatypes.id Server.isArray Server.truthy];
             rewrite ?E1, ?E2;
             cbn [negb orb];
             repeat match goal with
                    | |- context [if ?b then _ else _] => destruct b
                    end; eauto|]).
    inversion Hin.
  - intros fields value data Hv. unfold Server.post_renders.
    cbn [Server.truthy Server.get]. rewrite Hv.
    unfold default at 3. cbn [from_option Datatypes.id].
    repeat match goal with
           | |- context [if ?b then _ else _] => destruct b
           end; intros H; try discriminate H.
    injection H as <-. reflexivity.
Qed.

Lemma post_renders_fills_in_defaults_witness :
  ("transcript", Server.JArr []) ∈ Server.request_defaults
  /\ Server.assoc "transcript" [("style", Server.JStr "karaoke")] = None
  /\ Server.post_renders (Some (Server.JObj [("style", Server.JStr "karaoke")]))
     = Server.post_renders
         (Some (Server.JObj [("transcript", Server.JArr []);
                             ("style", Server.JStr "karaoke")])).
Proof.
  assert (("transcript", Server.JArr []) ∈ Server.request_defaults) as Hin.
  { unfold Server.request_defaults. do 3 right. left. }
  split; [exact Hin|]. split; [reflexivity|].
  exact (proj1 (proj2 (proj2 (proj2 post_renders_fills_in_defaults)))
           [("style", Server.JStr "karaoke")] "transcript" (Server.JArr [])
           Hin eq_refl).
Defined.

Lemma typeof_string v :
  Server.typeof (Some v) = Server.TString -> exists s, v = Server.JStr s.
Proof. destruct v; try discriminate. eauto. Qed.

Lemma typeof_number v :
  Server.typeof v = Server.TNumber -> exists x, v = Some (Server.JNum x).
Proof. destruct v as [[]|]; try discriminate. eauto. Qed.

(** X25: [POST /renders] checks types and nothing else. A job is created
    only from a string as style, a number as padding, an array as transcript,
    a string as video URL and an object with numbers as [width], [height],
    [durationInFrames] and [fps]; and every body of this shape creates a job
    with exactly the values sent, whatever they are: no value is looked at,
    so a video of no frames, of negative size or at 0 fps passes, as does any
    transcript, any style configuration and any further field. *)
Theorem post_renders_checks_types_only :
  (forall body data,
      Server.post_renders body = Server.Created data ->
      (exists s, Server.style data = Server.JStr s)
      /\ (exists x, Server.captionPadding data = Server.JNum x)
      /\ (exists items, Server.transcript data = Server.JArr items)
      /\ (exists u, Server.videoUrl data = Server.JStr u)
      /\ exists fields w h d f,
           Server.videoInfo data = Server.JObj fields
           /\ Server.assoc "width" fields = Some (Server.JNum w)
           /\ Server.assoc "height" fields = Some (Server.JNum h)
           /\ Server.assoc "durationInFrames" fields = Some (Server.JNum d)
           /\ Server.assoc "fps" fields = Some (Server.JNum f))
  /\ (forall (s u : string) (pad w h d f : Q) (custom : Server.JSON)
             (items : list Server.JSON) (more also : list (string * Server.JSON)),
        let info := Server.JObj ([("width", Server.JNum w); ("height", Server.JNum h);
                                  ("durationInFrames", Server.JNum d);
                                  ("fps", Server.JNum f)] ++ more) in
        Server.post_renders
          (Some (Server.JObj ([("style", Server.JStr s);
                               ("captionPadding", Server.JNum pad);
                               ("customStyleConfigs", custom);
                               ("transcript", Server.JArr items);
                               ("videoUrl", Server.JStr u);
                               ("videoInfo", info)] ++ also)))
        = Server.Created
            (Server.mkRenderRequest (Server.JStr s) (Server.JNum pad) custom
                                    (Server.JArr items) (Server.JStr u) info)).
Proof.
  split.
  - intros body data. unfold Server.post_renders.
    set (b := match body with Some v => _ | None => _ end). clearbody b.
    generalize (default (Server.JStr "basic") (Server.get "style" b)).
    generalize (default (Server.JNum 540) (Server.get "captionPadding" b)).
    generalize (default (Server.JObj []) (Server.get "customStyleConfigs" b)).
    generalize (default (Server.JArr []) (Server.get "transcript" b)).
    generalize (default (Server.JStr "") (Server.get "videoUrl" b)).
    generalize (default Server.defaultVideoInfo (Server.get "videoInfo" b)).
    intros vi vu tr cu cp st.
    destruct (bool_decide (Server.typeof (Some st) = Server.TString)) eqn:E1;
      [|discriminate].
    destruct (bool_decide (Server.typeof (Some cp) = Server.TNumber)) eqn:E2;
      [|discriminate].
    destruct (Server.isArray tr) eqn:E3; [|discriminate].
    destruct (bool_decide (Server.typeof (Some vu) = Server.TString)) eqn:E4;
      [|discriminate].
    cbn [negb].
    destruct (Server.truthy vi) eqn:E5; [|discriminate].
    destruct (bool_decide (Server.typeof (Some vi) = Server.TObject)) eqn:E6;
      [|discriminate].
    cbn [negb orb].
    destruct (bool_decide (Server.typeof (Server.get "width" vi) = Server.TNumber))
      eqn:E7; [|discriminate].
    destruct (bool_decide (Server.typeof (Server.get "height" vi) = Server.TNumber))
      eqn:E8; [|discriminate].
    destruct (bool_decide (Server.typeof (Server.get "durationInFrames" vi)
                           = Server.TNumber)) eqn:E9; [|discriminate].
    destruct (bool_decide (Server.typeof (Server.get "fps" vi) = Server.TNumber))
      eqn:E10; [|discriminate].
    cbn [negb orb]. intros H. injection H as <-. cbn.
    apply bool_decide_eq_true_1 in E1, E2, E4, E7, E8, E9, E10.
    split; [exact (typeof_string _ E1)|].
    split; [destruct (typeof_number _ E2) as [x Hx]; injection Hx as ->; eauto|].
    split; [destruct tr; try discriminate E3; eauto|].
    split; [exact (typeof_string _ E4)|].
    destruct (typeof_number _ E7) as [w Hw]. destruct (typeof_number _ E8) as [h Hh].
    destruct (typeof_number _ E9) as [d Hd]. destruct (typeof_number _ E10) as [f Hf].
    destruct vi as [| | | | |fields]; try discriminate Hw.
    exists fields, w, h, d, f. auto.
  - intros s u pad w h d f custom items more also info. reflexivity.
Qed.

Lemma post_renders_checks_types_only_witness :
  Server.post_renders
    (Some (Server.JObj [("videoInfo",
                         Server.JObj [("width", Server.JNum (-1));
                                      ("height", Server.JNum 0);
                                      ("durationInFrames", Server.JNum 1800);
                                      ("fps", Server.JNum 0)])]))
  = Server.Created
      (Server.mkRenderRequest
         (Server.JStr "basic") (Server.JNum 540) (Server.JObj []) (Server.JArr [])
         (Server.JStr "")
         (Server.JObj [("width", Server.JNum (-1)); ("height", Server.JNum 0);
                       ("durationInFrames", Server.JNum 1800);
                       ("fps", Server.JNum 0)]))
  /\ exists f, Server.assoc "fps" [("width", Server.JNum (-1));
                                   ("height", Server.JNum 0);
                                   ("durationInFrames", Server.JNum 1800);
                                   ("fps", Server.JNum 0)] = Some (Server.JNum f).
Proof.
  assert (Server.post_renders
            (Some (Server.JObj [("videoInfo",
                                 Server.JObj [("width", Server.JNum (-1));
                                              ("height", Server.JNum 0);
                                              ("durationInFrames", Server.JNum 1800);
                                              ("fps", Server.JNum 0)])]))
          = Server.Created
              (Server.mkRenderRequest
                 (Server.JStr "basic") (Server.JNum 540) (Server.JObj [])
                 (Server.JArr []) (Server.JStr "")
                 (Server.JObj [("width", Server.JNum (-1)); ("height", Server.JNum 0);
                               ("durationInFrames", Server.JNum 1800);
                               ("fps", Server.JNum 0)]))) as H by reflexivity.
  split; [exact H|].
  destruct (proj1 post_renders_checks_types_only _ _ H)
    as (_ & _ & _ & _ & fields & w & h & d & f & Hv & _ & _ & _ & Hf).
  cbn in Hv. injection Hv as <-. exists f. exact Hf.
Defined.
(** ** The in-memory render queue *)

Import RenderQueue.

Lemma started_pending_disjoint s j :
  inv s -> j ∈ started s -> j ∈ pending s -> False.
Proof.
  intros Hinv Hs Hp. pose proof (inv_nodup _ Hinv) as Hnd.
  rewrite (inv_created _ Hinv) in Hnd.
  apply NoDup_app in Hnd as (_ & Hdis & _). exact (Hdis j Hs Hp).
Qed.

Lemma inv_init : inv init.
Proof.
  split; cbn.
  - reflexivity.
  - constructor.
  - intros j d H. discriminate H.
  - intros j p d H. rewrite lookup_empty in H. discriminate H.
  - intros j [x H]. rewrite lookup_empty in H. discriminate H.
  - intros j H. inversion H.
  - intros j H. rewrite lookup_empty in H. destruct H.
  - intros e H. discriminate H.
Qed.

Lemma inv_createJob jobId data s : inv s -> inv (createJob jobId data s).
Proof.
  intros Hinv. unfold createJob.
  destruct (bool_decide (jobId ∈ created s)) eqn:Hfresh; [exact Hinv|].
  apply bool_decide_eq_false in Hfresh.
  destruct Hinv as [Hc Hnd Hrun Hip Hknown Hpend Hq Hrej].
  assert (forall j, j ∈ started s -> j <> jobId) as Hs.
  { intros j Hj ->. apply Hfresh. rewrite Hc. apply elem_of_app. auto. }
  assert (forall j, j ∈ pending s -> j <> jobId) as Hp.
  { intros j Hj ->. apply Hfresh. rewrite Hc. apply elem_of_app. auto. }
  split; cbn [queueRender jobs pending running cancelled rejected created started].
  - rewrite Hc, app_assoc. reflexivity.
  - apply NoDup_app. split; [exact Hnd|]. split; [|apply NoDup_singleton].
    intros x Hx Hx'. apply list_elem_of_singleton in Hx'. subst x. exact (Hfresh Hx).
  - intros j d Hj. destruct (Hrun j d Hj) as [Hst [p Hl]]. split; [exact Hst|].
    exists p. rewrite lookup_insert_ne; [exact Hl|]. intros <-. exact (Hs _ Hst eq_refl).
  - intros j p d Hl. destruct (decide (jobId = j)) as [->|Hne].
    + rewrite lookup_insert_eq in Hl. discriminate Hl.
    + rewrite lookup_insert_ne in Hl by exact Hne. eauto.
  - intros j Hl. apply elem_of_app. destruct (decide (jobId = j)) as [->|Hne].
    + right. left.
    + left. rewrite lookup_insert_ne in Hl by exact Hne. auto.
  - intros j Hj. apply elem_of_app in Hj as [Hj|Hj].
    + rewrite lookup_insert_ne; [auto|]. intros <-. exact (Hp _ Hj eq_refl).
    + apply list_elem_of_singleton in Hj. subst j. rewrite lookup_insert_eq.
      right. exact I.
  - intros j Hj. apply elem_of_app. destruct (decide (jobId = j)) as [->|Hne].
    + right. left.
    + left. rewrite lookup_insert_ne in Hj by exact Hne. auto.
  - exact Hrej.
Qed.

Lemma inv_processRender j rest s :
  running s = None -> rejected s = None -> pending s = j :: rest ->
  inv s -> inv (processRender j rest s).
Proof.
  intros Hr Hrj Hp Hinv.
  assert (j ∉ rest) as Hjrest.
  { pose proof (inv_nodup _ Hinv) as Hnd.
    rewrite (inv_created _ Hinv), Hp in Hnd.
    apply NoDup_app in Hnd as (_ & _ & Hnd). apply NoDup_cons in Hnd as [H _].
    exact H. }
  assert (j ∈ created s) as Hjc.
  { rewrite (inv_created _ Hinv), Hp. apply elem_of_app. right. left. }
  destruct Hinv as [Hc Hnd Hrun Hip Hknown Hpend Hq Hrej].
  unfold processRender. destruct (jobs s !! j) as [job|] eqn:Hj.
  - split; cbn [jobs pending running cancelled rejected created started].
    + rewrite Hc, Hp, <- app_assoc. reflexivity.
    + exact Hnd.
    + intros j0 d H0. injection H0 as <- <-. split; [apply elem_of_app; right; left|].
      exists 0%Q. apply lookup_insert_eq.
    + intros j0 p d Hl. destruct (decide (j = j0)) as [->|Hne].
      * rewrite lookup_insert_eq in Hl. injection Hl as _ <-. reflexivity.
      * rewrite lookup_insert_ne in Hl by exact Hne.
        rewrite (Hip _ _ _ Hl) in Hr. discriminate Hr.
    + intros j0 Hl. destruct (decide (j = j0)) as [->|Hne]; [exact Hjc|].
      rewrite lookup_insert_ne in Hl by exact Hne. auto.
    + intros j0 Hj0. rewrite lookup_insert_ne; [|intros ->; exact (Hjrest Hj0)].
      apply Hpend. rewrite Hp. right. exact Hj0.
    + intros j0 Hj0. destruct (decide (j = j0)) as [->|Hne].
      * rewrite lookup_insert_eq in Hj0. destruct Hj0.
      * rewrite lookup_insert_ne in Hj0 by exact Hne.
        apply Hq in Hj0. rewrite Hp in Hj0.
        apply elem_of_cons in Hj0 as [->|Hj0]; [congruence|exact Hj0].
    + intros e He. congruence.
  - split; cbn [jobs pending running cancelled rejected created started].
    + rewrite Hc, Hp, <- app_assoc. reflexivity.
    + exact Hnd.
    + intros j0 d H0. discriminate H0.
    + intros j0 p d Hl. rewrite (Hip _ _ _ Hl) in Hr. discriminate Hr.
    + exact Hknown.
    + intros j0 Hj0. apply Hpend. rewrite Hp. right. exact Hj0.
    + intros j0 Hj0. pose proof (Hq _ Hj0) as Hin. rewrite Hp in Hin.
      apply elem_of_cons in Hin as [->|Hin]; [|exact Hin].
      rewrite Hj in Hj0. destruct Hj0.
    + reflexivity.
Qed.

(** [jobs.set(jobId, ..)] for the render under way, with a state that is not
    queued. *)
Lemma inv_update_running j d st run' cancelled' s :
  running s = Some (j, d) ->
  ~ is_queued (Some st) ->
  (forall p d', st = InProgress p d' -> run' = Some (j, d'))->
  (run' = None \/ run' = Some (j, d) /\ exists p, st = InProgress p d) ->
  inv s ->
  inv (mkState (<[j := st]> (jobs s)) (pending s) run' cancelled' (rejected s)
               (created s) (started s)).
Proof.
  intros Hr Hnq Hst Hrun' Hinv.
  destruct (inv_running _ Hinv j d Hr) as [Hjs [p0 Hj]].
  assert (j ∉ pending s) as Hjp
    by (intros H; exact (started_pending_disjoint s j Hinv Hjs H)).
  destruct Hinv as [Hc Hnd Hrun Hip Hknown Hpend Hq Hrej].
  split; cbn [jobs pending running cancelled rejected created started].
  - exact Hc.
  - exact Hnd.
  - intros j0 d0 H0. destruct Hrun' as [->|[-> [p ->]]]; [discriminate H0|].
    injection H0 as <- <-. split; [exact Hjs|]. exists p. apply lookup_insert_eq.
  - intros j0 p d0 Hl. destruct (decide (j = j0)) as [->|Hne].
    + rewrite lookup_insert_eq in Hl. injection Hl as ->. eauto.
    + rewrite lookup_insert_ne in Hl by exact Hne.
      pose proof (Hip _ _ _ Hl) as H. rewrite Hr in H. congruence.
  - intros j0 Hl. destruct (decide (j = j0)) as [->|Hne].
    + apply Hknown. eauto.
    + rewrite lookup_insert_ne in Hl by exact Hne. auto.
  - intros j0 Hj0. rewrite lookup_insert_ne; [auto|]. intros ->. exact (Hjp Hj0).
  - intros j0 Hj0. destruct (decide (j = j0)) as [->|Hne].
    + rewrite lookup_insert_eq in Hj0. destruct (Hnq Hj0).
    + rewrite lookup_insert_ne in Hj0 by exact Hne. auto.
  - intros e He. specialize (Hrej e He). congruence.
Qed.

Lemma inv_cancel jobId s : inv s -> inv (cancel jobId s).
Proof.
  intros Hinv. unfold cancel.
  destruct (jobs s !! jobId) as [[d|p d|u d|e d]|] eqn:Hj; try exact Hinv.
  - destruct Hinv as [Hc Hnd Hrun Hip Hknown Hpend Hq Hrej].
    split; cbn [jobs pending running cancelled rejected created started]; auto.
    + intros j d0 H0. destruct (Hrun j d0 H0) as [Hs [p Hl]]. split; [exact Hs|].
      exists p. rewrite lookup_delete_ne; [exact Hl|]. intros ->. congruence.
    + intros j p d0 Hl. apply lookup_delete_Some in Hl as [_ Hl]. eauto.
    + intros j [x Hl]. apply lookup_delete_Some in Hl as [_ Hl]. eauto.
    + intros j Hjp. destruct (decide (jobId = j)) as [->|Hne].
      * left. apply lookup_delete_eq.
      * rewrite lookup_delete_ne by exact Hne. auto.
    + intros j Hjq. destruct (decide (jobId = j)) as [->|Hne].
      * rewrite lookup_delete_eq in Hjq. destruct Hjq.
      * rewrite lookup_delete_ne in Hjq by exact Hne. auto.
  - destruct (running s) as [[j d0]|] eqn:Hr; [|exact Hinv].
    destruct (bool_decide (j = jobId)); [|exact Hinv].
    destruct Hinv as [Hc Hnd Hrun Hip Hknown Hpend Hq Hrej].
    split; cbn [jobs pending running cancelled rejected created started]; auto.
    + rewrite <- Hr. exact Hrun.
    + intros j0 p0 d1 Hl. rewrite <- Hr. eauto.
    + intros e He. specialize (Hrej e He). congruence.
Qed.

Lemma inv_step port ev s : inv s -> inv (step port ev s).
Proof.
  intros Hinv. destruct ev as [jobId data| |p|outcome|jobId]; cbn [step].
  - apply inv_createJob, Hinv.
  - destruct (running s) eqn:Hr; [exact Hinv|].
    destruct (rejected s) eqn:Hrj; [exact Hinv|].
    destruct (pending s) as [|j rest] eqn:Hp; [exact Hinv|].
    apply inv_processRender; assumption.
  - destruct (running s) as [[j d]|] eqn:Hr; [|exact Hinv].
    apply (inv_update_running j d); auto.
    + intros p0 d' H. injection H as _ <-. reflexivity.
    + eauto.
  - unfold settle. destruct (running s) as [[j d]|] eqn:Hr; [|exact Hinv].
    apply (inv_update_running j d); auto.
    + destruct outcome; cbn; auto.
    + intros p0 d' H. destruct outcome; discriminate H.
  - apply inv_cancel, Hinv.
Qed.

Lemma inv_run port evs s : inv s -> inv (run port evs s).
Proof.
  revert s. induction evs as [|ev evs IH]; intros s H; [exact H|].
  cbn [run foldl]. apply IH, inv_step, H.
Qed.








(** Once the chain is rejected nothing is processed any more. *)
Lemma rejected_step port ev s e :
  inv s -> rejected s = Some e ->
  rejected (step port ev s) = Some e
  /\ started (step port ev s) = started s
  /\ (forall j st, jobs (step port ev s) !! j = Some st ->
                   jobs s !! j = Some st \/ exists d, st = Queued d)
  /\ (forall j d, jobs s !! j = Some (Queued d) -> ev <> Cancel j ->
                  jobs (step port ev s) !! j = Some (Queued d)).
Proof.
  intros Hinv Hrj. pose proof (inv_rejected _ Hinv e Hrj) as Hr.
  destruct ev as [jobId data| |p|outcome|jobId]; cbn [step].
  - unfold createJob. destruct (bool_decide (jobId ∈ created s)) eqn:Hfresh;
      [auto|].
    apply bool_decide_eq_false in Hfresh.
    cbn [queueRender jobs rejected started]. repeat split; auto.
    + intros j st Hl. destruct (decide (jobId = j)) as [->|Hne].
      * rewrite lookup_insert_eq in Hl. injection Hl as <-. eauto.
      * rewrite lookup_insert_ne in Hl by exact Hne. auto.
    + intros j d Hl _. rewrite lookup_insert_ne; [exact Hl|]. intros ->.
      apply Hfresh, (inv_known _ Hinv). eauto.
  - rewrite Hr, Hrj. auto.
  - rewrite Hr. auto.
  - unfold settle. rewrite Hr. auto.
  - unfold cancel.
    destruct (jobs s !! jobId) as [[d|p d|u d|e0 d]|] eqn:Hl; auto.
    + cbn [jobs rejected started]. repeat split; auto.
      * intros j st Hj. apply lookup_delete_Some in Hj as [_ Hj]. auto.
      * intros j d0 Hj Hne. rewrite lookup_delete_ne; [exact Hj|]. congruence.
    + rewrite Hr. auto.
Qed.

Lemma rejected_run port evs s e :
  inv s -> rejected s = Some e ->
  rejected (run port evs s) = Some e
  /\ started (run port evs s) = started s
  /\ (forall j st, jobs (run port evs s) !! j = Some st ->
                   jobs s !! j = Some st \/ exists d, st = Queued d)
  /\ (forall j d, jobs s !! j = Some (Queued d) -> Cancel j ∉ evs ->
                  jobs (run port evs s) !! j = Some (Queued d)).
Proof.
  revert s. induction evs as [|ev evs IH]; intros s Hinv Hrj.
  - cbn. repeat split; auto.
  - cbn [run foldl].
    destruct (rejected_step port ev s e Hinv Hrj) as (H1 & H2 & H3 & H4).
    destruct (IH _ (inv_step port ev s Hinv) H1) as (I1 & I2 & I3 & I4).
    unfold run in *. repeat split.
    + exact I1.
    + rewrite I2. exact H2.
    + intros j st Hl. destruct (I3 j st Hl) as [Hl'|Hq]; [|auto].
      exact (H3 j st Hl').
    + intros j d Hl Hnc. apply I4.
      * apply H4; [exact Hl|]. intros ->. apply Hnc. left.
      * intros Hin. apply Hnc. right. exact Hin.
Qed.

(** [processRender] is only called from the chain, with no render under way,
    for the oldest id still chained. *)
Lemma started_step port ev s :
  started (step port ev s) = started s
  \/ (ev = Next /\ running s = None /\ rejected s = None
      /\ exists j rest, pending s = j :: rest
                        /\ started (step port ev s) = started s ++ [j]
                        /\ pending (step port ev s) = rest).
Proof.
  destruct ev as [jobId data| |p|outcome|jobId]; cbn [step].
  - left. unfold createJob. destruct (bool_decide (jobId ∈ created s)); reflexivity.
  - destruct (running s) eqn:Hr; [auto|].
    destruct (rejected s) eqn:Hrj; [auto|].
    destruct (pending s) as [|j rest] eqn:Hp; [auto|].
    right. repeat split; auto. exists j, rest. split; [reflexivity|].
    unfold processRender. destruct (jobs s !! j); auto.
  - left. destruct (running s) as [[j d]|]; reflexivity.
  - left. unfold settle. destruct (running s) as [[j d]|]; reflexivity.
  - left. unfold cancel.
    destruct (jobs s !! jobId) as [[d|p d|u d|e0 d]|]; try reflexivity.
    destruct (running s) as [[j d0]|]; [|reflexivity].
    destruct (bool_decide (j = jobId)); reflexivity.
Qed.

(** A job removed while it waits stays chained until its turn, which rejects
    the chain. *)
Lemma removed_step port ev s j :
  inv s -> j ∈ pending s -> jobs s !! j = None ->
  (j ∈ pending (step port ev s) /\ jobs (step port ev s) !! j = None)
  \/ rejected (step port ev s) = Some ("Render job " +:+ j +:+ " not found").
Proof.
  intros Hinv Hp Hj.
  assert (forall j0 d, running s = Some (j0, d) -> j0 <> j) as Hrun.
  { intros j0 d Hr ->. destruct (inv_running _ Hinv j d Hr) as [Hs _].
    exact (started_pending_disjoint s j Hinv Hs Hp). }
  destruct ev as [jobId data| |p|outcome|jobId]; cbn [step].
  - left. unfold createJob. destruct (bool_decide (jobId ∈ created s)) eqn:Hfresh;
      [auto|].
    apply bool_decide_eq_false in Hfresh. cbn [queueRender jobs pending].
    split; [apply elem_of_app; auto|].
    rewrite lookup_insert_ne; [exact Hj|]. intros ->. apply Hfresh.
    rewrite (inv_created _ Hinv). apply elem_of_app. auto.
  - destruct (running s) eqn:Hr; [auto|].
    destruct (rejected s) eqn:Hrj; [auto|].
    destruct (pending s) as [|j0 rest] eqn:Hp0; [inversion Hp|].
    apply elem_of_cons in Hp as [->|Hp].
    + right. unfold processRender. rewrite Hj. reflexivity.
    + left. unfold processRender.
      destruct (jobs s !! j0) as [job|] eqn:Hj0; cbn [jobs pending]; [|auto].
      split; [exact Hp|]. rewrite lookup_insert_ne; [exact Hj|]. congruence.
  - left. destruct (running s) as [[j0 d]|] eqn:Hr; [|auto].
    cbn [jobs pending]. split; [exact Hp|].
    rewrite lookup_insert_ne; [exact Hj|]. exact (Hrun j0 d eq_refl).
  - left. unfold settle. destruct (running s) as [[j0 d]|] eqn:Hr; [|auto].
    cbn [jobs pending]. split; [exact Hp|].
    rewrite lookup_insert_ne; [exact Hj|]. exact (Hrun j0 d eq_refl).
  - left. unfold cancel.
    destruct (jobs s !! jobId) as [[d|p d|u d|e0 d]|] eqn:Hl; auto.
    + cbn [jobs pending]. split; [exact Hp|].
      apply lookup_delete_None. auto.
    + destruct (running s) as [[j0 d0]|]; [|auto].
      destruct (bool_decide (j0 = jobId)); auto.
Qed.

Lemma removed_run port evs s j :
  inv s ->
  (j ∈ pending s /\ jobs s !! j = None) \/ (exists e, rejected s = Some e) ->
  (j ∈ pending (run port evs s) /\ jobs (run port evs s) !! j = None)
  \/ (exists e, rejected (run port evs s) = Some e).
Proof.
  revert s. induction evs as [|ev evs IH]; intros s Hinv H; [exact H|].
  cbn [run foldl]. apply IH; [apply inv_step, Hinv|].
  destruct H as [[Hp Hj]|[e He]].
  - destruct (removed_step port ev s j Hinv Hp Hj) as [H|H]; eauto.
  - right. exists e. apply (rejected_step port ev s e Hinv He).
Qed.

(** C10. One at a time, in creation order, and a cancelled queued job breaks
    the chain. In every state the queue reaches at most one job is
    [in-progress]; [processRender] is only called with no render under way,
    for the oldest id still chained, so the ids it has been called with are a
    prefix of the ids created. A [queued] job that is cancelled is gone from
    the registry but stays chained, and when its turn comes [processRender]
    throws "Render job .. not found" and the chain is rejected. From then on
    [processRender] is never called again: no job becomes [in-progress],
    every entry is an old one unchanged or a [queued] one, and a job that is
    [queued] then, or is created later, stays [queued] as long as it is not
    cancelled itself. *)
Theorem queue_is_serial_and_breaks_on_cancel :
  forall (port : Z) (evs : list RenderQueue.Event),
    let s := run port evs init in
    (forall j1 j2,
        is_in_progress (jobs s !! j1) -> is_in_progress (jobs s !! j2) -> j1 = j2)
    /\ (forall ev,
          started (step port ev s) = started s
          \/ (ev = Next /\ running s = None /\ rejected s = None
              /\ exists j rest, pending s = j :: rest
                                /\ started (step port ev s) = started s ++ [j]
                                /\ pending (step port ev s) = rest))
    /\ created s = started s ++ pending s
    /\ (forall j,
          is_queued (jobs s !! j) ->
          let s1 := step port (Cancel j) s in
          j ∈ pending s1 /\ jobs s1 !! j = None
          /\ forall evs',
               (j ∈ pending (run port evs' s1) /\ jobs (run port evs' s1) !! j = None)
               \/ exists e, rejected (run port evs' s1) = Some e)
    /\ (forall j rest,
          running s = None -> rejected s = None -> pending s = j :: rest ->
          jobs s !! j = None ->
          rejected (step port Next s) = Some ("Render job " +:+ j +:+ " not found"))
    /\ (forall e,
          rejected s = Some e ->
          forall evs',
            let s' := run port evs' s in
            rejected s' = Some e
            /\ started s' = started s
            /\ (forall j, ~ is_in_progress (jobs s' !! j))
            /\ (forall j st, jobs s' !! j = Some st ->
                             jobs s !! j = Some st \/ exists d, st = Queued d)
            /\ (forall j d, jobs s !! j = Some (Queued d) -> Cancel j ∉ evs' ->
                            jobs s' !! j = Some (Queued d)))
    /\ (forall e j d evs',
          rejected s = Some e -> j ∉ created s -> Cancel j ∉ evs' ->
          jobs (run port evs' (step port (Create j d) s)) !! j = Some (Queued d)).
Proof.
  intros port evs s.
  pose proof (inv_run port evs init inv_init) as Hinv. fold s in Hinv.
  clearbody s.
  repeat lazymatch goal with |- _ /\ _ => split end.
  - intros j1 j2 H1 H2.
    destruct (jobs s !! j1) as [[d|p d|u d|e d]|] eqn:Hj1; try destruct H1.
    destruct (jobs s !! j2) as [[d'|p' d'|u' d'|e' d']|] eqn:Hj2; try destruct H2.
    pose proof (inv_in_progress _ Hinv _ _ _ Hj1) as R1.
    pose proof (inv_in_progress _ Hinv _ _ _ Hj2) as R2.
    congruence.
  - intros ev. apply started_step.
  - apply (inv_created _ Hinv).
  - intros j Hq. cbn zeta.
    pose proof (inv_queued _ Hinv j Hq) as Hp.
    assert (pending (step port (Cancel j) s) = pending s
            /\ jobs (step port (Cancel j) s) !! j = None) as [Hp1 Hj1].
    { cbn [step]. unfold cancel.
      destruct (jobs s !! j) as [[d|p d|u d|e d]|]; try destruct Hq.
      cbn [pending jobs]. split; [reflexivity|apply lookup_delete_eq]. }
    split; [rewrite Hp1; exact Hp|]. split; [exact Hj1|].
    intros evs'. apply removed_run; [apply inv_step, Hinv|].
    left. split; [rewrite Hp1; exact Hp|exact Hj1].
  - intros j rest Hr Hrj Hp Hj. cbn [step]. rewrite Hr, Hrj, Hp.
    unfold processRender. rewrite Hj. reflexivity.
  - intros e Hrj evs'. cbn zeta.
    destruct (rejected_run port evs' s e Hinv Hrj) as (H1 & H2 & H3 & H4).
    repeat split; auto.
    intros j Hip.
    destruct (jobs (run port evs' s) !! j) as [[d|p d|u d|e0 d]|] eqn:Hj;
      try destruct Hip.
    pose proof (inv_in_progress _ (inv_run port evs' s Hinv) _ _ _ Hj) as Hr.
    rewrite (inv_rejected _ (inv_run port evs' s Hinv) e H1) in Hr. discriminate Hr.
  - intros e j d evs' Hrj Hfresh Hnc.
    assert (step port (Create j d) s = queueRender j d s) as Hs.
    { cbn [step]. unfold createJob.
      rewrite bool_decide_eq_false_2 by exact Hfresh. reflexivity. }
    rewrite Hs.
    assert (inv (queueRender j d s)) as Hinv1
      by (rewrite <- Hs; apply inv_step, Hinv).
    apply (rejected_run port evs' (queueRender j d s) e Hinv1 Hrj); [|exact Hnc].
    cbn [queueRender jobs]. apply lookup_insert_eq.
Qed.

(** Job "b" is cancelled while "a" renders; when "a" is done the chain calls
    [processRender "b"] and is rejected; "c", created before, and "d",
    created after, stay queued. *)
Lemma queue_is_serial_and_breaks_on_cancel_witness :
  rejected (run 3002 [Create "a" (mkJobData "basic" 540 None [] "v" (0, 0, 0, 30));
                      Create "b" (mkJobData "basic" 540 None [] "v" (0, 0, 0, 30));
                      Next;
                      Create "c" (mkJobData "basic" 540 None [] "v" (0, 0, 0, 30));
                      Cancel "b"; Settle None; Next] init)
  = Some "Render job b not found"
  /\ ("d" ∉ created (run 3002 [Create "a" (mkJobData "basic" 540 None [] "v" (0, 0, 0, 30));
                               Create "b" (mkJobData "basic" 540 None [] "v" (0, 0, 0, 30));
                               Next;
                               Create "c" (mkJobData "basic" 540 None [] "v" (0, 0, 0, 30));
                               Cancel "b"; Settle None; Next] init))
  /\ (Cancel "d" ∉ [Next; Progress 1; Settle None; Next])
  /\ jobs (run 3002 [Next; Progress 1; Settle None; Next]
             (step 3002 (Create "d" (mkJobData "basic" 540 None [] "w" (0, 0, 0, 30)))
                (run 3002 [Create "a" (mkJobData "basic" 540 None [] "v" (0, 0, 0, 30));
                           Create "b" (mkJobData "basic" 540 None [] "v" (0, 0, 0, 30));
                           Next;
                           Create "c" (mkJobData "basic" 540 None [] "v" (0, 0, 0, 30));
                           Cancel "b"; Settle None; Next] init))) !! "d"
     = Some (Queued (mkJobData "basic" 540 None [] "w" (0, 0, 0, 30))).
Proof.
  assert (rejected (run 3002 [Create "a" (mkJobData "basic" 540 None [] "v" (0, 0, 0, 30));
                      Create "b" (mkJobData "basic" 540 None [] "v" (0, 0, 0, 30));
                      Next;
                      Create "c" (mkJobData "basic" 540 None [] "v" (0, 0, 0, 30));
                      Cancel "b"; Settle None; Next] init)
          = Some "Render job b not found") as Hrj by (vm_compute; reflexivity).
  assert ("d" ∉ created (run 3002 [Create "a" (mkJobData "basic" 540 None [] "v" (0, 0, 0, 30));
                              Create "b" (mkJobData "basic" 540 None [] "v" (0, 0, 0, 30));
                              Next;
                              Create "c" (mkJobData "basic" 540 None [] "v" (0, 0, 0, 30));
                              Cancel "b"; Settle None; Next] init)) as Hfresh.
  { apply (bool_decide_unpack _). vm_compute. exact I. }
  assert (Cancel "d" ∉ [Next; Progress 1; Settle None; Next]) as Hnc.
  { intros H. repeat (apply elem_of_cons in H as [H|H]; [discriminate H|]).
    inversion H. }
  split; [exact Hrj|]. split; [exact Hfresh|]. split; [exact Hnc|].
  exact (proj2 (proj2 (proj2 (proj2 (proj2 (proj2
    (queue_is_serial_and_breaks_on_cancel 3002
       [Create "a" (mkJobData "basic" 540 None [] "v" (0, 0, 0, 30));
        Create "b" (mkJobData "basic" 540 None [] "v" (0, 0, 0, 30));
        Next;
        Create "c" (mkJobData "basic" 540 None [] "v" (0, 0, 0, 30));
        Cancel "b"; Settle None; Next]))))))
    _ "d" (mkJobData "basic" 540 None [] "w" (0, 0, 0, 30))
    [Next; Progress 1; Settle None; Next] Hrj Hfresh Hnc).
Defined.

(** * Further properties of the in-memory render queue *)

(** ** The life of a registry entry *)

Lemma follows_refl st : follows st st.
Proof. unfold follows. auto. Qed.

Lemma follows_trans st1 st2 st3 : follows st1 st2 -> follows st2 st3 -> follows st1 st3.
Proof.
  intros (Hd1 & Hs1 & Ht1) (Hd2 & Hs2 & Ht2). split; [congruence|].
  split; [lia|]. intros H2. specialize (Ht1 H2). subst st2. auto.
Qed.

Lemma entry_step_same port j ev known o : entry_step port j ev known o o.
Proof. destruct o as [st|]; cbn; [|exact I]. split; [apply follows_refl|auto]. Qed.

Lemma entry_step_ok port ev s j :
  inv s -> entry_step port j ev (created s) (jobs s !! j) (jobs (step port ev s) !! j).
Proof.
  intros Hinv.
  destruct ev as [jobId data| |p|outcome|jobId]; cbn [step].
  - unfold createJob. destruct (bool_decide (jobId ∈ created s)) eqn:Hfresh;
      [apply entry_step_same|].
    apply bool_decide_eq_false in Hfresh. cbn [queueRender jobs].
    destruct (decide (jobId = j)) as [->|Hne].
    + rewrite lookup_insert_eq.
      destruct (jobs s !! j) as [st|] eqn:Hj.
      * destruct Hfresh. apply (inv_known _ Hinv). eauto.
      * cbn. eauto.
    + rewrite lookup_insert_ne by exact Hne. apply entry_step_same.
  - destruct (running s) eqn:Hr; [apply entry_step_same|].
    destruct (rejected s) eqn:Hrj; [apply entry_step_same|].
    destruct (pending s) as [|j0 rest] eqn:Hp; [apply entry_step_same|].
    unfold processRender. destruct (jobs s !! j0) as [job|] eqn:Hj0;
      [|apply entry_step_same].
    cbn [jobs]. destruct (decide (j0 = j)) as [->|Hne].
    + rewrite lookup_insert_eq, Hj0. cbn.
      destruct (inv_pending _ Hinv j) as [Hn|Hq]; [rewrite Hp; left|congruence|].
      rewrite Hj0 in Hq. destruct job; cbn in Hq; try contradiction.
      split; [|intros url d H; discriminate H].
      unfold follows. cbn. split; [reflexivity|]. split; [lia|discriminate].
    + rewrite lookup_insert_ne by exact Hne. apply entry_step_same.
  - destruct (running s) as [[j0 d]|] eqn:Hr; [|apply entry_step_same].
    cbn [jobs]. destruct (decide (j0 = j)) as [->|Hne].
    + destruct (inv_running _ Hinv j d Hr) as [_ [p0 Hl]].
      rewrite lookup_insert_eq, Hl. cbn.
      split; [|intros url d' H; discriminate H].
      unfold follows. cbn. split; [reflexivity|]. split; [lia|discriminate].
    + rewrite lookup_insert_ne by exact Hne. apply entry_step_same.
  - unfold settle. destruct (running s) as [[j0 d]|] eqn:Hr; [|apply entry_step_same].
    cbn [jobs]. destruct (decide (j0 = j)) as [->|Hne].
    + destruct (inv_running _ Hinv j d Hr) as [_ [p0 Hl]].
      rewrite lookup_insert_eq, Hl. cbn. split.
      * unfold follows. destruct outcome; cbn;
          (split; [reflexivity|]; split; [lia|discriminate]).
      * intros url d' H. right.
        destruct outcome; try discriminate H.
        injection H as <- _. reflexivity.
    + rewrite lookup_insert_ne by exact Hne. apply entry_step_same.
  - unfold cancel. destruct (jobs s !! jobId) as [[d|p d|u d|e d]|] eqn:Hl;
      try apply entry_step_same.
    + cbn [jobs]. destruct (decide (jobId = j)) as [->|Hne].
      * rewrite lookup_delete_eq, Hl. cbn. auto.
      * rewrite lookup_delete_ne by exact Hne. apply entry_step_same.
    + destruct (running s) as [[j0 d0]|]; [|apply entry_step_same].
      destruct (bool_decide (j0 = jobId)); apply entry_step_same.
Qed.

Lemma created_step port ev s j : j ∈ created s -> j ∈ created (step port ev s).
Proof.
  intros Hj. destruct ev as [jobId data| |p|outcome|jobId]; cbn [step].
  - unfold createJob. destruct (bool_decide (jobId ∈ created s)); [exact Hj|].
    cbn [queueRender created]. apply elem_of_app. auto.
  - destruct (running s); [exact Hj|]. destruct (rejected s); [exact Hj|].
    destruct (pending s) as [|j0 rest]; [exact Hj|].
    unfold processRender. destruct (jobs s !! j0); exact Hj.
  - destruct (running s) as [[j0 d]|]; exact Hj.
  - unfold settle. destruct (running s) as [[j0 d]|]; exact Hj.
  - unfold cancel. destruct (jobs s !! jobId) as [[d|p d|u d|e d]|]; try exact Hj.
    destruct (running s) as [[j0 d0]|]; [|exact Hj].
    destruct (bool_decide (j0 = jobId)); exact Hj.
Qed.

Lemma entry_run port evs : forall s j,
  inv s -> j ∈ created s ->
  match jobs s !! j with
  | Some st => jobs (run port evs s) !! j = None
               \/ exists st', jobs (run port evs s) !! j = Some st' /\ follows st st'
  | None => jobs (run port evs s) !! j = None
  end.
Proof.
  induction evs as [|ev evs IH]; intros s j Hinv Hc.
  - cbn. destruct (jobs s !! j) as [st|]; [|reflexivity].
    right. exists st. split; [reflexivity|apply follows_refl].
  - cbn [run foldl]. fold (run port evs (step port ev s)).
    pose proof (entry_step_ok port ev s j Hinv) as Hstep.
    specialize (IH (step port ev s) j (inv_step port ev s Hinv)
                   (created_step port ev s j Hc)).
    destruct (jobs s !! j) as [st|] eqn:Hj;
      destruct (jobs (step port ev s) !! j) as [st1|] eqn:Hj1; cbn in Hstep.
    + destruct Hstep as [Hf _]. destruct IH as [IH|(st' & IH & Hf')]; [auto|].
      right. exists st'. split; [exact IH|exact (follows_trans _ _ _ Hf Hf')].
    + auto.
    + destruct Hstep as (d & _ & _ & Hfresh). contradiction.
    + exact IH.
Qed.

Lemma completed_url port evs : forall j url d,
  jobs (run port evs init) !! j = Some (Completed url d) -> url = render_url port j.
Proof.
  induction evs as [|ev evs IH] using rev_ind; intros j url d H.
  - cbn in H. rewrite lookup_empty in H. discriminate H.
  - unfold run in H. rewrite foldl_app in H. cbn [foldl] in H.
    fold (run port evs init) in H.
    pose proof (entry_step_ok port ev (run port evs init) j
                  (inv_run port evs init inv_init)) as Hstep.
    rewrite H in Hstep.
    destruct (jobs (run port evs init) !! j) as [st|] eqn:Hj; cbn in Hstep.
    + destruct Hstep as [_ Hurl]. destruct (Hurl url d eq_refl) as [<-|Hu];
        [exact (IH j url d Hj)|exact Hu].
    + destruct Hstep as (d0 & _ & Hq & _). discriminate Hq.
Qed.

(** X26: a job of the registry only moves forward. From one event to the
    next its entry keeps the data it was created with and goes from queued
    to in progress to completed or failed, never back; a job that is done
    stays exactly as it is; an entry vanishes only when the job is cancelled
    while queued and then never comes back; an entry appears only for a new
    id, as queued; and a completed job has the URL
    [http://localhost:<port>/renders/<id>.mp4]. *)
Theorem registry_entries_only_move_forward :
  forall (port : Z) (evs evs' : list RenderQueue.Event) (j : string),
    let s := run port evs init in
    let s' := run port evs' s in
    (forall ev,
        entry_step port j ev (created s) (jobs s !! j) (jobs (step port ev s) !! j))
    /\ (forall st, jobs s !! j = Some st ->
          jobs s' !! j = None
          \/ exists st', jobs s' !! j = Some st' /\ follows st st')
    /\ (j ∈ created s -> jobs s !! j = None -> jobs s' !! j = None)
    /\ (forall url d, jobs s !! j = Some (Completed url d) ->
                      url = render_url port j).
Proof.
  intros port evs evs' j s s'.
  pose proof (inv_run port evs init inv_init) as Hinv. fold s in Hinv.
  split; [intros ev; exact (entry_step_ok port ev s j Hinv)|].
  split; [|split].
  - intros st Hj.
    pose proof (entry_run port evs' s j Hinv
                  (inv_known _ Hinv j (ex_intro _ st Hj))) as H.
    rewrite Hj in H. exact H.
  - intros Hc Hj. pose proof (entry_run port evs' s j Hinv Hc) as H.
    rewrite Hj in H. exact H.
  - intros url d. apply completed_url.
Qed.

Lemma registry_entries_only_move_forward_witness :
  let data := mkJobData "basic" 540 None [] "v" (0, 0, 0, 30) in
  let s := run 3002 [Create "a" data; Next] init in
  jobs s !! "a" = Some (InProgress 0 data)
  /\ jobs (run 3002 [Progress (1 # 2); Settle None] s) !! "a"
     = Some (Completed "http://localhost:3002/renders/a.mp4" data)
  /\ (jobs (run 3002 [Progress (1 # 2); Settle None] s) !! "a" = None
      \/ exists st', jobs (run 3002 [Progress (1 # 2); Settle None] s) !! "a"
                     = Some st'
                     /\ follows (InProgress 0 data) st').
Proof.
  intros data s.
  assert (jobs s !! "a" = Some (InProgress 0 data)) as Hj by reflexivity.
  split; [exact Hj|]. split; [reflexivity|].
  exact (proj1 (proj2 (registry_entries_only_move_forward
                         3002 [Create "a" data; Next]
                         [Progress (1 # 2); Settle None] "a"))
           (InProgress 0 data) Hj).
Defined.

(** ** What breaks the chain *)

Lemma chain_cause port evs :
  (forall j, j ∈ pending (run port evs init) ->
             jobs (run port evs init) !! j = None -> Cancel j ∈ evs)
  /\ (forall e, rejected (run port evs init) = Some e ->
        exists j, Cancel j ∈ evs /\ e = "Render job " +:+ j +:+ " not found").
Proof.
  induction evs as [|ev evs [IHp IHr]] using rev_ind.
  - split; [intros j H; inversion H|intros e H; discriminate H].
  - unfold run. rewrite foldl_app. cbn [foldl]. fold (run port evs init).
    set (s := run port evs init) in *. clearbody s.
    assert (forall j, Cancel j ∈ evs -> Cancel j ∈ evs ++ [ev]) as Hmono
      by (intros j H; apply elem_of_app; auto).
    assert ((forall j, j ∈ pending s -> jobs s !! j = None -> Cancel j ∈ evs ++ [ev])
            /\ (forall e, rejected s = Some e ->
                  exists j, Cancel j ∈ evs ++ [ev]
                            /\ e = "Render job " +:+ j +:+ " not found")) as Hsame.
    { split; [auto|]. intros e He. destruct (IHr e He) as (j & Hj & ->). eauto. }
    destruct ev as [jobId data| |p|outcome|jobId]; cbn [step].
    + unfold createJob. destruct (bool_decide (jobId ∈ created s)); [exact Hsame|].
      cbn [queueRender pending jobs rejected]. split; [|apply Hsame].
      intros j Hj Hn. destruct (decide (jobId = j)) as [->|Hne].
      * rewrite lookup_insert_eq in Hn. discriminate Hn.
      * rewrite lookup_insert_ne in Hn by exact Hne.
        apply elem_of_app in Hj as [Hj|Hj]; [auto|].
        apply list_elem_of_singleton in Hj. congruence.
    + destruct (running s) eqn:Hr; [exact Hsame|].
      destruct (rejected s) eqn:Hrj; [rewrite Hrj; exact Hsame|].
      destruct (pending s) as [|j0 rest] eqn:Hp; [rewrite Hp, Hrj; exact Hsame|].
      unfold processRender. destruct (jobs s !! j0) as [job|] eqn:Hj0;
        cbn [pending jobs rejected].
      * split; [|rewrite Hrj; intros e He; discriminate He].
        intros j Hj Hn. destruct (decide (j0 = j)) as [->|Hne].
        -- rewrite lookup_insert_eq in Hn. discriminate Hn.
        -- rewrite lookup_insert_ne in Hn by exact Hne.
           apply Hmono, IHp; [right; exact Hj|exact Hn].
      * split.
        -- intros j Hj Hn. apply Hmono, IHp; [right; exact Hj|exact Hn].
        -- intros e He. injection He as <-. exists j0. split; [|reflexivity].
           apply Hmono, IHp; [left|exact Hj0].
    + destruct (running s) as [[j0 d]|] eqn:Hr; [|exact Hsame].
      cbn [pending jobs rejected]. split; [|apply Hsame].
      intros j Hj Hn. destruct (decide (j0 = j)) as [->|Hne].
      * rewrite lookup_insert_eq in Hn. discriminate Hn.
      * rewrite lookup_insert_ne in Hn by exact Hne. auto.
    + unfold settle. destruct (running s) as [[j0 d]|] eqn:Hr; [|exact Hsame].
      cbn [pending jobs rejected]. split; [|apply Hsame].
      intros j Hj Hn. destruct (decide (j0 = j)) as [->|Hne].
      * rewrite lookup_insert_eq in Hn. discriminate Hn.
      * rewrite lookup_insert_ne in Hn by exact Hne. auto.
    + unfold cancel. destruct (jobs s !! jobId) as [[d|p d|u d|e d]|] eqn:Hl;
        try exact Hsame.
      * cbn [pending jobs rejected]. split; [|apply Hsame].
        intros j Hj Hn. destruct (decide (jobId = j)) as [->|Hne].
        -- apply elem_of_app. right. left.
        -- rewrite lookup_delete_ne in Hn by exact Hne. auto.
      * destruct (running s) as [[j0 d0]|]; [|exact Hsame].
        destruct (bool_decide (j0 = jobId)); exact Hsame.
Qed.

(** X27: only the cancellation of a queued job breaks the chain. When the
    chain is rejected, the error names a job that was cancelled; a render
    that fails leaves the chain as it is, and the next job starts after it.
    So with no cancellation every job waiting is in the registry, queued,
    and the chain is never rejected. *)
Theorem chain_breaks_only_by_cancel :
  forall (port : Z) (evs : list RenderQueue.Event),
    let s := run port evs init in
    (forall e, rejected s = Some e ->
       exists j, Cancel j ∈ evs /\ e = "Render job " +:+ j +:+ " not found")
    /\ ((forall j, Cancel j ∉ evs) ->
        rejected s = None /\ forall j, j ∈ pending s -> is_queued (jobs s !! j))
    /\ (forall outcome j d,
          running s = Some (j, d) ->
          let s1 := step port (Settle outcome) s in
          rejected s1 = rejected s /\ running s1 = None /\ pending s1 = pending s
          /\ (outcome <> None -> is_failed (jobs s1 !! j)))
    /\ (forall j rest job,
          running s = None -> rejected s = None -> pending s = j :: rest ->
          jobs s !! j = Some job ->
          let s1 := step port Next s in
          running s1 = Some (j, data_of job) /\ rejected s1 = None
          /\ pending s1 = rest).
Proof.
  intros port evs s. destruct (chain_cause port evs) as [Hp Hr]. fold s in Hp, Hr.
  pose proof (inv_run port evs init inv_init) as Hinv. fold s in Hinv.
  split; [exact Hr|]. split; [|split].
  - intros Hnc. split.
    + destruct (rejected s) as [e|] eqn:He; [|reflexivity].
      destruct (Hr e eq_refl) as (j & Hj & _). destruct (Hnc j Hj).
    + intros j Hj. destruct (inv_pending _ Hinv j Hj) as [Hn|Hq]; [|exact Hq].
      destruct (Hnc j (Hp j Hj Hn)).
  - intros outcome j d Hrun s1. subst s1. cbn [step]. unfold settle. rewrite Hrun.
    cbn [rejected running pending jobs]. repeat split.
    intros Hne. rewrite lookup_insert_eq.
    destruct outcome as [err|]; [exact I|contradiction].
  - intros j rest job Hrun Hrj Hpend Hj s1. subst s1. cbn [step].
    rewrite Hrun, Hrj, Hpend. unfold processRender. rewrite Hj.
    cbn. auto.
Qed.

Lemma chain_breaks_only_by_cancel_witness :
  let data := mkJobData "basic" 540 None [] "v" (0, 0, 0, 30) in
  let evs := [Create "a" data; Create "b" data; Next; Settle (Some "crash"); Next] in
  (forall j, Cancel j ∉ evs)
  /\ rejected (run 3002 evs init) = None
  /\ is_failed (jobs (run 3002 evs init) !! "a")
  /\ is_in_progress (jobs (run 3002 evs init) !! "b").
Proof.
  intros data evs.
  assert (forall j, Cancel j ∉ evs) as Hnc.
  { intros j H. subst evs.
    repeat (apply elem_of_cons in H as [H|H]; [discriminate H|]).
    inversion H. }
  split; [exact Hnc|].
  split; [exact (proj1 (proj1 (proj2 (chain_breaks_only_by_cancel 3002 evs)) Hnc))|].
  split; exact I.
Defined.
